(** * Lua/APR binding: directory and file modules (io_dir.c, io_file.c)

    A shallow embedding of the parts of [io_dir.c] and [io_file.c] that carry
    the algorithms of the binding: the buffered [file:seek], the recursive
    directory removal, the directory reader and the close / finalizer paths.

    Conventions.
    - The calls into the Apache Portable Runtime are external collaborators.
      They are the fields of a runtime class and act on an explicit state;
      every theorem holds for any runtime of that signature.
    - C integers are [Z] with the conversions written out for an LP64 target
      ([apr_off_t] and [long] are signed 64-bit, [size_t] is unsigned 64-bit,
      [int] is signed 32-bit).
    - A Lua C function either raises a Lua error or returns the values it
      pushed; [lua_return] records which. *)

From Stdlib Require Import ZArith List Ascii String Bool Lia FunInd Permutation.
Import ListNotations.

Local Open Scope string_scope.
Local Open Scope list_scope.
Local Open Scope Z_scope.

(** ** Status codes of the runtime (apr_errno.h, Unix values) *)

Definition apr_status_t := Z.

Definition APR_SUCCESS : apr_status_t := 0.
Definition APR_ENOENT : apr_status_t := 2.
Definition APR_ENOMEM : apr_status_t := 12.
Definition APR_EINVAL : apr_status_t := 22.
Definition APR_ENOTEMPTY : apr_status_t := 39.
Definition APR_INCOMPLETE : apr_status_t := 70008.

Definition APR_STATUS_IS_ENOENT (s : apr_status_t) : bool := s =? APR_ENOENT.
Definition APR_STATUS_IS_INCOMPLETE (s : apr_status_t) : bool := s =? APR_INCOMPLETE.

(** ** What a Lua C function hands back to its caller *)

Inductive lua_error : Type :=
| ErrorMessage (msg : string)      (* luaL_error, luaL_argerror *)
| ErrorStatus (status : apr_status_t). (* raise_error_status *)

Inductive lua_return (A : Type) : Type :=
| Raised (msg : lua_error)         (* a Lua error is thrown *)
| PushedError (status : apr_status_t) (* nil, message, code *)
| Pushed (v : A).                  (* the natural result *)

Arguments Raised {A} msg.
Arguments PushedError {A} status.
Arguments Pushed {A} v.

(** Modelled from the spec: [push_status] and [push_error_status] are defined
    outside src/.  Success yields the operation's natural result ([true]),
    failure a structured error that carries the status. *)
Definition push_error_status {A : Type} (status : apr_status_t) : lua_return A :=
  PushedError status.

Definition push_status (status : apr_status_t) : lua_return bool :=
  if status =? APR_SUCCESS then Pushed true else push_error_status status.

(** Modelled from the spec: the macro [filename_symbolic] lives in lua_apr.h.
    It recognises the self and parent markers, the entries named [.] and
    [..]. *)
Definition filename_symbolic (name : string) : bool :=
  String.eqb name "." || String.eqb name "..".

(** ** C integer conversions (LP64) *)

Definition two64 : Z := 2 ^ 64.
Definition two63 : Z := 2 ^ 63.

(** Conversion to [size_t]. *)
Definition size_t_of (x : Z) : Z := x mod two64.

(** Conversion to [apr_off_t] (two's complement). *)
Definition apr_off_t_of (x : Z) : Z := (x + two63) mod two64 - two63.

Definition apr_off_t_range (x : Z) : Prop := - two63 <= x < two63.

(** Conversion to [int]. *)
Definition int_of (x : Z) : Z := (x + 2 ^ 31) mod 2 ^ 32 - 2 ^ 31.

Definition int_range (x : Z) : Prop := - 2 ^ 31 <= x < 2 ^ 31.

(** ** file:seek (io_file.c) *)

Inductive apr_seek_where_t : Type := APR_SET | APR_CUR | APR_END.

Definition apr_seek_where_eqb (a b : apr_seek_where_t) : bool :=
  match a, b with
  | APR_SET, APR_SET | APR_CUR, APR_CUR | APR_END, APR_END => true
  | _, _ => false
  end.

(** The two fields of [lua_apr_buffer] that [file_seek] touches; both are
    [size_t]. *)
Record lua_apr_buffer : Type := mk_buffer { index : Z; limit : Z }.

(** [luaL_checkoption]: position of the option in the table, the default
    when the argument is absent, no position when the name is not listed. *)
Fixpoint option_index (name : string) (names : list string) : option nat :=
  match names with
  | [] => None
  | n :: rest =>
      if String.eqb name n then Some O
      else option_map S (option_index name rest)
  end.

Definition luaL_checkoption (arg : option string) (def : string)
    (names : list string) : option nat :=
  match arg with
  | None => option_index def names
  | Some name => option_index name names
  end.

Definition modenames : list string := ["set"; "cur"; "end"].
Definition modes : list apr_seek_where_t := [APR_SET; APR_CUR; APR_END].

(** [start_of_buf = end_of_buf - file->buffer.limit]: the subtraction is
    done in [size_t] and the result stored in an [apr_off_t]. *)
Definition start_of_buf (end_of_buf limit : Z) : Z :=
  apr_off_t_of (size_t_of (size_t_of end_of_buf - limit)).

(** [offset += start_of_buf + file->buffer.index], same conversions. *)
Definition cur_offset (offset start index : Z) : Z :=
  apr_off_t_of (size_t_of (size_t_of offset + size_t_of (size_t_of start + index))).

(** The request handed to the second [apr_file_seek]. *)
Definition seek_request (mode : apr_seek_where_t) (offset start index : Z)
    : apr_seek_where_t * Z :=
  if apr_seek_where_eqb mode APR_CUR
  then (APR_SET, cur_offset offset start index)
  else (mode, offset).

(** The buffer after a successful seek that ended at [offset]. *)
Definition adjust_buffer (b : lua_apr_buffer) (offset start end_of_buf : Z)
    : lua_apr_buffer :=
  if (offset >=? start) && (offset <=? end_of_buf)
  then mk_buffer (size_t_of (apr_off_t_of (offset - start))) (limit b)
  else mk_buffer 0 0.

(** The runtime behind a file object.  [apr_file_t] is the state of the
    descriptor behind an [apr_file_t*]; the raw seek gives the status, the
    value left in [*offset] and the descriptor afterwards. *)
Class FileRuntime : Type := {
  apr_file_t : Type;
  apr_file_seek :
    apr_file_t -> apr_seek_where_t -> Z -> apr_status_t * Z * apr_file_t;
  apr_file_close : apr_file_t -> apr_status_t
}.

(** The calls by which an object gives its resources back. *)
Inductive release_call : Type :=
| Call_file_close
| Call_dir_close_handle
| Call_pool_destroy_of (memory_pool : nat)
| Call_free_buffer.

Section File.

Context {RT : FileRuntime}.

(** [lua_apr_file]; [handle] is [None] (NULL) once the file is closed.
    The pool is named by a number. *)
Record lua_apr_file : Type := mk_file {
  handle : option apr_file_t;
  memory_pool : nat;
  buffer : lua_apr_buffer
}.

Definition set_handle (file : lua_apr_file) (h : option apr_file_t)
    : lua_apr_file :=
  mk_file h (memory_pool file) (buffer file).

(** [file_check (L, i, open)]: raises when [open] is asked for and the
    file is closed; otherwise gives the handle as it is. *)
Definition file_check (file : lua_apr_file) (open : bool)
    : lua_return (option apr_file_t) :=
  if open && match handle file with None => true | Some _ => false end
  then Raised (ErrorMessage "attempt to use a closed file")
  else Pushed (handle file).

(** [file:seek([whence [, offset]])].  [whence] is the second argument when
    given, [offset] the [long] that [luaL_optlong] read (0 when absent).
    The result is the [apr_off_t] handed to [lua_pushnumber], before its
    conversion to a Lua number (exact below 2^53), and the file object
    afterwards. *)
Definition file_seek (file : lua_apr_file) (whence : option string)
    (offset : Z) : lua_return Z * lua_apr_file :=
  match file_check file true with
  | Pushed (Some h) =>
      match luaL_checkoption whence "cur" modenames with
      | None => (Raised (ErrorMessage "invalid option"), file)
      | Some i =>
          let mode := nth i modes APR_SET in
          (* Get offsets corresponding to start/end of buffered input. *)
          let '(status, end_of_buf, h1) := apr_file_seek h APR_CUR 0 in
          if negb (status =? APR_SUCCESS)
          then (push_error_status status, set_handle file (Some h1))
          else
            let start := start_of_buf end_of_buf (limit (buffer file)) in
            (* Adjust APR_CUR to index in buffered input. *)
            let '(mode', offset') :=
              seek_request mode offset start (index (buffer file)) in
            (* Perform the actual seek() requested from Lua. *)
            let '(status, offset'', h2) := apr_file_seek h1 mode' offset' in
            if negb (status =? APR_SUCCESS)
            then (push_error_status status, set_handle file (Some h2))
            else
              (* Adjust buffer index / invalidate buffered input? *)
              (Pushed offset'',
               mk_file (Some h2) (memory_pool file)
                 (adjust_buffer (buffer file) offset'' start end_of_buf))
      end
  | Pushed None => (Raised (ErrorMessage "attempt to use a closed file"), file)
  | Raised msg => (Raised msg, file)
  | PushedError status => (PushedError status, file)
  end.

(** [file_close_real]: status, object afterwards, release calls made. *)
Definition file_close_real (file : lua_apr_file)
    : apr_status_t * lua_apr_file * list release_call :=
  match handle file with
  | Some h =>
      (apr_file_close h, set_handle file None,
       [Call_file_close; Call_pool_destroy_of (memory_pool file);
        Call_free_buffer])
  | None => (APR_SUCCESS, file, [])
  end.

(** [file:close()]. *)
Definition file_close (file : lua_apr_file)
    : lua_return bool * lua_apr_file * list release_call :=
  match file_check file true with
  | Pushed _ =>
      let '(status, file', calls) := file_close_real file in
      (push_status status, file', calls)
  | Raised msg => (Raised msg, file, [])
  | PushedError status => (PushedError status, file, [])
  end.

(** [file_gc], the finalizer: nothing is pushed. *)
Definition file_gc (file : lua_apr_file)
    : lua_return unit * lua_apr_file * list release_call :=
  match file_check file false with
  | Pushed _ =>
      let '(_, file', calls) := file_close_real file in
      (Pushed tt, file', calls)
  | Raised msg => (Raised msg, file, [])
  | PushedError status => (PushedError status, file, [])
  end.

End File.

(** A descriptor of a regular file as [lseek] sees it, for running the
    model: the cursor and the size of the file.  A seek to a negative
    position fails with EINVAL and leaves -1 in [*offset]. *)
Record posix_file : Type := mk_posix { cursor : Z; file_size : Z }.

Definition posix_seek (f : posix_file) (whence : apr_seek_where_t) (offset : Z)
    : apr_status_t * Z * posix_file :=
  let target :=
    match whence with
    | APR_SET => offset
    | APR_CUR => cursor f + offset
    | APR_END => file_size f + offset
    end in
  if target <? 0 then (APR_EINVAL, -1, f)
  else (APR_SUCCESS, target, mk_posix target (file_size f)).

Definition posix_runtime : FileRuntime :=
  {| apr_file_t := posix_file;
     apr_file_seek := posix_seek;
     apr_file_close := fun _ => APR_SUCCESS |}.

(** ** apr.file_copy, apr.file_append, apr.file_rename (io_file.c) *)

(** A value on the Lua stack, over the host's number type. *)
Inductive lua_value (N : Type) : Type :=
| LNil
| LBoolean (b : bool)
| LNumber (n : N)
| LString (s : string)
| LOther.                     (* table, function, userdata, thread *)

Arguments LNil {N}.
Arguments LBoolean {N} b.
Arguments LNumber {N} n.
Arguments LString {N} s.
Arguments LOther {N}.

(** The host of the three wrappers: Lua's number formatting, the permission
    parser of the binding (defined outside src/; it reads the stack slot it
    is pointed at) and the three runtime operations. *)
Class CopyRuntime : Type := {
  lua_Number : Type;
  lua_number2str : lua_Number -> string;
  apr_fileperms_t : Type;
  check_permissions :
    option (lua_value lua_Number) -> bool -> lua_return apr_fileperms_t;
  apr_file_copy : string -> string -> apr_fileperms_t -> apr_status_t;
  apr_file_append : string -> string -> apr_fileperms_t -> apr_status_t;
  apr_file_rename : string -> string -> apr_status_t
}.

Section FileOperations.

Context {CR : CopyRuntime}.

Definition lua_State : Type := list (lua_value lua_Number).

(** The value at stack index [idx] (counted from 1), if any. *)
Definition lua_arg (L : lua_State) (idx : nat) : option (lua_value lua_Number) :=
  match idx with
  | O => None
  | S i => nth_error L i
  end.

(** [luaL_checkstring]: strings and numbers are accepted. *)
Definition luaL_checkstring (L : lua_State) (idx : nat) : lua_return string :=
  match lua_arg L idx with
  | Some (LString s) => Pushed s
  | Some (LNumber n) => Pushed (lua_number2str n)
  | _ => Raised (ErrorMessage "string expected")
  end.

(** The runtime call a wrapper made, with the arguments it passed. *)
Inductive file_call : Type :=
| Call_file_copy (source target : string) (permissions : apr_fileperms_t)
| Call_file_append (source target : string) (permissions : apr_fileperms_t)
| Call_file_rename (source target : string).

Definition call_source (c : file_call) : string :=
  match c with
  | Call_file_copy source _ _ | Call_file_append source _ _
  | Call_file_rename source _ => source
  end.

Definition call_target (c : file_call) : string :=
  match c with
  | Call_file_copy _ target _ | Call_file_append _ target _
  | Call_file_rename _ target => target
  end.

Definition lua_apr_file_copy (L : lua_State)
    : lua_return bool * list file_call :=
  match luaL_checkstring L 1 with
  | Pushed source =>
      match luaL_checkstring L 1 with
      | Pushed target =>
          match check_permissions (lua_arg L 3) true with
          | Pushed permissions =>
              (push_status (apr_file_copy source target permissions),
               [Call_file_copy source target permissions])
          | Raised msg => (Raised msg, [])
          | PushedError status => (PushedError status, [])
          end
      | Raised msg => (Raised msg, [])
      | PushedError status => (PushedError status, [])
      end
  | Raised msg => (Raised msg, [])
  | PushedError status => (PushedError status, [])
  end.

Definition lua_apr_file_append (L : lua_State)
    : lua_return bool * list file_call :=
  match luaL_checkstring L 1 with
  | Pushed source =>
      match luaL_checkstring L 1 with
      | Pushed target =>
          match check_permissions (lua_arg L 3) true with
          | Pushed permissions =>
              (push_status (apr_file_append source target permissions),
               [Call_file_append source target permissions])
          | Raised msg => (Raised msg, [])
          | PushedError status => (PushedError status, [])
          end
      | Raised msg => (Raised msg, [])
      | PushedError status => (PushedError status, [])
      end
  | Raised msg => (Raised msg, [])
  | PushedError status => (PushedError status, [])
  end.

Definition lua_apr_file_rename (L : lua_State)
    : lua_return bool * list file_call :=
  match luaL_checkstring L 1 with
  | Pushed source =>
      match luaL_checkstring L 1 with
      | Pushed target =>
          (push_status (apr_file_rename source target),
           [Call_file_rename source target])
      | Raised msg => (Raised msg, [])
      | PushedError status => (PushedError status, [])
      end
  | Raised msg => (Raised msg, [])
  | PushedError status => (PushedError status, [])
  end.

End FileOperations.

(** A host for running the wrappers: a number is kept as its printed form,
    every permission argument parses, every operation succeeds. *)
Definition sample_copy_runtime : CopyRuntime :=
  {| lua_Number := string;
     lua_number2str := fun n => n;
     apr_fileperms_t := Z;
     check_permissions := fun _ _ => Pushed 0;
     apr_file_copy := fun _ _ _ => APR_SUCCESS;
     apr_file_append := fun _ _ _ => APR_SUCCESS;
     apr_file_rename := fun _ _ => APR_SUCCESS |}.

(** ** Directory handles (io_dir.c) *)

Inductive apr_filetype_e : Type :=
| APR_NOFILE | APR_REG | APR_DIR | APR_CHR | APR_BLK | APR_PIPE | APR_LNK
| APR_SOCK | APR_UNKFILE.

Definition apr_filetype_eqb (a b : apr_filetype_e) : bool :=
  match a, b with
  | APR_NOFILE, APR_NOFILE | APR_REG, APR_REG | APR_DIR, APR_DIR
  | APR_CHR, APR_CHR | APR_BLK, APR_BLK | APR_PIPE, APR_PIPE
  | APR_LNK, APR_LNK | APR_SOCK, APR_SOCK | APR_UNKFILE, APR_UNKFILE => true
  | _, _ => false
  end.

(** The fields of [apr_finfo_t] the module reads. *)
Record apr_finfo_t : Type := mk_finfo {
  valid : Z;
  filetype : apr_filetype_e;
  name : string
}.

Definition APR_FINFO_LINK : Z := 1.
Definition APR_FINFO_TYPE : Z := 32768.
Definition APR_FINFO_NAME : Z := 33554432.

Definition finfo_none : apr_finfo_t := mk_finfo 0 APR_NOFILE EmptyString.

(** An open [apr_dir_t]: the results its coming [apr_dir_read] calls deliver,
    in order, statuses included.  Once they are used up the runtime reports
    APR_ENOENT.  [apr_dir_open] may hand out any such handle, so every finite
    run of read results is covered. *)
Definition apr_dir_t : Type := list (apr_status_t * apr_finfo_t).

(** The runtime behind the directory functions, acting on a state [world]:
    pools, arrays ([apr_array_alloc] tells whether [apr_array_make] or
    [apr_array_push] got its memory), the directory handle and the removals. *)
Class DirRuntime : Type := {
  world : Type;
  apr_pool_create : world -> apr_status_t * world;
  apr_array_alloc : world -> bool * world;
  apr_dir_open : world -> string -> apr_status_t * apr_dir_t * world;
  apr_dir_close : world -> apr_dir_t -> apr_status_t * world;
  apr_filepath_merge : string -> string -> apr_status_t * string;
  apr_file_remove : world -> string -> apr_status_t * world;
  apr_dir_remove : world -> string -> apr_status_t * world
}.

Section Directory.

Context {DR : DirRuntime}.

(** [lua_apr_dir]; [dir_handle] is [None] (NULL) once closed. *)
Record lua_apr_dir : Type := mk_dir {
  dir_handle : option apr_dir_t;
  dir_memory_pool : nat;
  dir_filepath : string
}.

Definition set_dir_handle (directory : lua_apr_dir) (h : option apr_dir_t)
    : lua_apr_dir :=
  mk_dir h (dir_memory_pool directory) (dir_filepath directory).

(** [checkdir (L, idx, check_open)]. *)
Definition checkdir (directory : lua_apr_dir) (check_open : bool)
    : lua_return (option apr_dir_t) :=
  if check_open && match dir_handle directory with None => true | Some _ => false end
  then Raised (ErrorMessage "attempt to use a closed directory")
  else Pushed (dir_handle directory).

(** The loop of [dir_read] over the handle.  [Pushed (Some info)] stands
    for [push_stat_results] on that entry, [Pushed None] for the plain
    [return 0] at the end of the directory, [PushedError] is not produced
    and [Raised] is [raise_error_status]. *)
Fixpoint dir_read_loop (h : apr_dir_t)
    : lua_return (option apr_finfo_t) * apr_dir_t :=
  match h with
  | [] => (Pushed None, [])
  | (status, info) :: rest =>
      if (status =? APR_SUCCESS) || APR_STATUS_IS_INCOMPLETE status then
        if negb (negb (Z.land (valid info) APR_FINFO_NAME =? 0)
                 && filename_symbolic (name info))
        then (Pushed (Some info), rest)
        else dir_read_loop rest
      else if APR_STATUS_IS_ENOENT status then (Pushed None, rest)
      else (Raised (ErrorStatus status), rest)
  end.

(** [directory:read()], also the iterator of [directory:entries()]. *)
Definition dir_read (directory : lua_apr_dir)
    : lua_return (option apr_finfo_t) * lua_apr_dir :=
  match checkdir directory true with
  | Pushed (Some h) =>
      let '(r, h') := dir_read_loop h in
      (r, set_dir_handle directory (Some h'))
  | Pushed None => (Raised (ErrorMessage "attempt to use a closed directory"), directory)
  | Raised msg => (Raised msg, directory)
  | PushedError status => (PushedError status, directory)
  end.

(** [directory:entries()]: the iterator function and the directory. *)
Definition dir_entries (directory : lua_apr_dir)
    : lua_return ((lua_apr_dir ->
                   lua_return (option apr_finfo_t) * lua_apr_dir)
                  * lua_apr_dir) :=
  match checkdir directory true with
  | Pushed _ => Pushed (dir_read, directory)
  | Raised msg => Raised msg
  | PushedError status => PushedError status
  end.

(** [directory:close()]. *)
Definition dir_close (w : world) (directory : lua_apr_dir)
    : lua_return bool * lua_apr_dir * world * list release_call :=
  match checkdir directory true with
  | Pushed (Some h) =>
      let '(status, w') := apr_dir_close w h in
      (push_status status, set_dir_handle directory None, w',
       [Call_dir_close_handle])
  | Pushed None => (Raised (ErrorMessage "attempt to use a closed directory"), directory, w, [])
  | Raised msg => (Raised msg, directory, w, [])
  | PushedError status => (PushedError status, directory, w, [])
  end.

(** [dir_gc], the finalizer. *)
Definition dir_gc (w : world) (directory : lua_apr_dir)
    : lua_return unit * lua_apr_dir * world * list release_call :=
  match checkdir directory false with
  | Pushed (Some h) =>
      let '(_, w') := apr_dir_close w h in
      (Pushed tt, set_dir_handle directory None, w',
       [Call_dir_close_handle; Call_pool_destroy_of (dir_memory_pool directory)])
  | Pushed None => (Pushed tt, directory, w, [])
  | Raised msg => (Raised msg, directory, w, [])
  | PushedError status => (PushedError status, directory, w, [])
  end.

End Directory.

(** ** apr.dir_remove_recursive (io_dir.c) *)

Inductive pool : Type := outer_pool | middle_pool | inner_pool.

Inductive stack : Type := stack_todo | stack_done.

(** The calls of the function into the runtime that allocate, release or
    touch the file system, each with what it returned. *)
Inductive action : Type :=
| Call_pool_create (p : pool) (status : apr_status_t)
| Call_pool_clear (p : pool)
| Call_pool_destroy (p : pool)
| Call_array_make (s : stack) (ok : bool)
| Call_array_push (s : stack) (filepath : string) (ok : bool)
| Call_dir_open (filepath : string) (status : apr_status_t)
| Call_dir_read (status : apr_status_t) (info : apr_finfo_t)
| Call_dir_close (status : apr_status_t)
| Call_filepath_merge (root add : string) (p : pool) (status : apr_status_t)
    (merged : string)
| Call_file_remove (filepath : string) (status : apr_status_t)
| Call_dir_remove (filepath : string) (status : apr_status_t).

(** [if (counter % n == 0) apr_pool_clear(p)]; C's [%] truncates. *)
Definition clear_every (n : Z) (p : pool) (counter : Z) : list action :=
  if Z.rem counter n =? 0 then [Call_pool_clear p] else [].

(** Put the calls made so far in front of those of the rest of a loop. *)
Definition emit {A : Type} (here : list action) (r : list action * A)
    : list action * A :=
  (here ++ fst r, snd r).

Section RemoveRecursive.

Context {DR : DirRuntime}.

(** How the inner [for (;;)] loop is left: by [break] or by
    [goto cleanup]; the directory is still open in both cases. *)
Inductive read_outcome : Type :=
| Entries_done (w : world) (directory : apr_dir_t) (todo : list string)
    (allocation_counter : Z)
| Entries_abort (status : apr_status_t) (w : world) (directory : apr_dir_t).

(** The inner loop over the entries of [filepath].  [todo] has its top at
    the head. *)
Fixpoint read_entries (w : world) (filepath : string) (directory : apr_dir_t)
    (todo : list string) (allocation_counter : Z) {struct directory}
    : list action * read_outcome :=
  let clear := clear_every 1000 inner_pool allocation_counter in
  match directory with
  | [] =>
      (clear ++ [Call_dir_read APR_ENOENT finfo_none],
       Entries_done w [] todo allocation_counter)
  | (status, info) :: rest =>
      let here := clear ++ [Call_dir_read status info] in
      if APR_STATUS_IS_ENOENT status then
        (* no more entries *)
        (here, Entries_done w rest todo allocation_counter)
      else if negb (status =? APR_SUCCESS) && negb (status =? APR_INCOMPLETE) then
        (* something went wrong *)
        (here, Entries_abort status w rest)
      else if filename_symbolic (name info) then
        (* bogus entry *)
        emit here (read_entries w filepath rest todo allocation_counter)
      else if apr_filetype_eqb (filetype info) APR_DIR then
        (* recurse into subdirectory *)
        let '(mstatus, tmp) := apr_filepath_merge filepath (name info) in
        let merge :=
          [Call_filepath_merge filepath (name info) outer_pool mstatus tmp] in
        if negb (mstatus =? APR_SUCCESS) then
          (here ++ merge, Entries_abort mstatus w rest)
        else
          let '(ok, w1) := apr_array_alloc w in
          let push := [Call_array_push stack_todo tmp ok] in
          if ok then
            emit (here ++ merge ++ push)
              (read_entries w1 filepath rest (tmp :: todo) allocation_counter)
          else (here ++ merge ++ push, Entries_abort APR_ENOMEM w1 rest)
      else
        (* delete non-subdirectory entry *)
        let '(mstatus, tmp) := apr_filepath_merge filepath (name info) in
        let merge :=
          [Call_filepath_merge filepath (name info) inner_pool mstatus tmp] in
        let allocation_counter := int_of (allocation_counter + 1) in
        if mstatus =? APR_SUCCESS then
          let '(rstatus, w1) := apr_file_remove w tmp in
          let remove := [Call_file_remove tmp rstatus] in
          if rstatus =? APR_SUCCESS then
            emit (here ++ merge ++ remove)
              (read_entries w1 filepath rest todo allocation_counter)
          else (here ++ merge ++ remove, Entries_abort rstatus w1 rest)
        else (here ++ merge, Entries_abort mstatus w rest)
  end.

(** How the first [while] loop is left.  [Walk_abort] is [goto cleanup],
    with the directory that is still open, if any. *)
Inductive walk_outcome : Type :=
| Walk_done (w : world) (done : list string) (allocation_counter : Z)
| Walk_abort (status : apr_status_t) (w : world) (directory : option apr_dir_t)
| Walk_out_of_fuel (w : world) (todo done : list string)
    (allocation_counter : Z).

(** The first [while] loop: one unit of fuel per directory popped. *)
Fixpoint walk (fuel : nat) (w : world) (todo done : list string)
    (allocation_counter : Z) {struct fuel} : list action * walk_outcome :=
  match todo with
  | [] => ([], Walk_done w done allocation_counter)
  | filepath :: todo' =>
      match fuel with
      | O => ([], Walk_out_of_fuel w todo done allocation_counter)
      | S fuel' =>
          let '(ostatus, directory, w1) := apr_dir_open w filepath in
          let here :=
            [Call_pool_clear middle_pool; Call_dir_open filepath ostatus] in
          if negb (ostatus =? APR_SUCCESS) then (here, Walk_abort ostatus w1 None)
          else
            match read_entries w1 filepath directory todo' allocation_counter with
            | (body, Entries_abort status w2 d) =>
                (here ++ body, Walk_abort status w2 (Some d))
            | (body, Entries_done w2 d todo2 counter2) =>
                let '(cstatus, w3) := apr_dir_close w2 d in
                let close := [Call_dir_close cstatus] in
                if negb (cstatus =? APR_SUCCESS) then
                  (here ++ body ++ close, Walk_abort cstatus w3 None)
                else
                  let '(ok, w4) := apr_array_alloc w3 in
                  let push := [Call_array_push stack_done filepath ok] in
                  if ok then
                    emit (here ++ body ++ close ++ push)
                      (walk fuel' w4 todo2 (filepath :: done) counter2)
                  else
                    (here ++ body ++ close ++ push,
                     Walk_abort APR_ENOMEM w4 None)
            end
      end
  end.

(** The second [while] loop, over [done] with its top at the head: the
    status the function is left with, and the world. *)
Fixpoint remove_dirs (w : world) (done : list string) (allocation_counter : Z)
    {struct done} : list action * (apr_status_t * world) :=
  match done with
  | [] => ([], (APR_SUCCESS, w))
  | filepath :: done' =>
      let clear := clear_every 100 middle_pool allocation_counter in
      let allocation_counter := int_of (allocation_counter + 1) in
      let '(status, w1) := apr_dir_remove w filepath in
      let here := clear ++ [Call_dir_remove filepath status] in
      if negb (status =? APR_SUCCESS) then (here, (status, w1))
      else emit here (remove_dirs w1 done' allocation_counter)
  end.

(** The three [apr_pool_create] calls: the status, the pools that exist
    afterwards and the world. *)
Definition create_pools (w : world)
    : list action * (apr_status_t * list pool * world) :=
  let '(s1, w1) := apr_pool_create w in
  if s1 =? APR_SUCCESS then
    let '(s2, w2) := apr_pool_create w1 in
    if s2 =? APR_SUCCESS then
      let '(s3, w3) := apr_pool_create w2 in
      ([Call_pool_create outer_pool s1; Call_pool_create middle_pool s2;
        Call_pool_create inner_pool s3],
       (s3, if s3 =? APR_SUCCESS then [inner_pool; middle_pool; outer_pool]
            else [middle_pool; outer_pool], w3))
    else
      ([Call_pool_create outer_pool s1; Call_pool_create middle_pool s2],
       (s2, [outer_pool], w2))
  else ([Call_pool_create outer_pool s1], (s1, [], w1)).

(** The [cleanup:] label. *)
Definition cleanup (w : world) (directory : option apr_dir_t)
    (pools : list pool) : list action * world :=
  let '(close, w') :=
    match directory with
    | Some d => let '(s, w') := apr_dir_close w d in ([Call_dir_close s], w')
    | None => ([], w)
    end in
  (close ++ map Call_pool_destroy pools, w').

(** The whole function on the path that [luaL_checkstring] read: the calls
    made, the status and the world afterwards.  The status is [None] when
    the fuel did not suffice for the first loop; otherwise it is the
    [status] given to [push_status].  A pool is taken to be non-NULL exactly
    when its [apr_pool_create] succeeded. *)
Definition remove_recursive_status (fuel : nat) (w : world) (filepath : string)
    : list action * option apr_status_t * world :=
  let '(t0, (status, pools, w0)) := create_pools w in
  if negb (status =? APR_SUCCESS) then
    let '(t9, w9) := cleanup w0 None pools in
    (t0 ++ t9, Some status, w9)
  else
    let '(ok1, w1) := apr_array_alloc w0 in
    let '(ok2, w2) := apr_array_alloc w1 in
    let t1 := [Call_array_make stack_todo ok1; Call_array_make stack_done ok2] in
    if negb ok1 || negb ok2 then
      let '(t9, w9) := cleanup w2 None pools in
      (t0 ++ t1 ++ t9, Some APR_ENOMEM, w9)
    else
      let '(ok3, w3) := apr_array_alloc w2 in
      let t2 := [Call_array_push stack_todo filepath ok3] in
      if negb ok3 then
        let '(t9, w9) := cleanup w3 None pools in
        (t0 ++ t1 ++ t2 ++ t9, Some APR_ENOMEM, w9)
      else
        match walk fuel w3 [filepath] [] 0 with
        | (t3, Walk_out_of_fuel w4 _ _ _) => (t0 ++ t1 ++ t2 ++ t3, None, w4)
        | (t3, Walk_abort status w4 directory) =>
            let '(t9, w9) := cleanup w4 directory pools in
            (t0 ++ t1 ++ t2 ++ t3 ++ t9, Some status, w9)
        | (t3, Walk_done w4 done counter) =>
            let '(t4, (status, w5)) := remove_dirs w4 done counter in
            let '(t9, w9) := cleanup w5 None pools in
            (t0 ++ t1 ++ t2 ++ t3 ++ t4 ++ t9, Some status, w9)
        end.

Definition lua_apr_dir_remove_recursive (fuel : nat) (w : world)
    (filepath : string) : list action * option (lua_return bool) * world :=
  let '(t, status, w') := remove_recursive_status fuel w filepath in
  (t, option_map push_status status, w').

End RemoveRecursive.

Functional Scheme read_entries_ind := Induction for read_entries Sort Prop.
Functional Scheme walk_ind := Induction for walk Sort Prop.
Functional Scheme remove_dirs_ind := Induction for remove_dirs Sort Prop.

(** ** Reading a trace of calls *)

(** The directories pushed on [done], in the order they were pushed. *)
Definition completed (tr : list action) : list string :=
  flat_map (fun a => match a with
                     | Call_array_push stack_done p true => [p]
                     | _ => []
                     end) tr.

(** The directories handed to [apr_dir_remove], in the order of the calls. *)
Definition removals (tr : list action) : list string :=
  flat_map (fun a => match a with
                     | Call_dir_remove p _ => [p]
                     | _ => []
                     end) tr.

(** The subdirectories met: each time the function joined a directory [D]
    with the name of an entry, in the outer pool, and got [P], the pair
    [(D, P)]. *)
Definition subdirectories_met (tr : list action) : list (string * string) :=
  flat_map (fun a => match a with
                     | Call_filepath_merge D _ outer_pool status P =>
                         if status =? APR_SUCCESS then [(D, P)] else []
                     | _ => []
                     end) tr.

(** [P] was met as a subdirectory of [D]. *)
Definition child_of (tr : list action) (P D : string) : Prop :=
  In (D, P) (subdirectories_met tr).

Inductive descendant_of (tr : list action) : string -> string -> Prop :=
| descendant_child P D : child_of tr P D -> descendant_of tr P D
| descendant_step P Q D :
    child_of tr P Q -> descendant_of tr Q D -> descendant_of tr P D.

(** [x] occurs in [l] at a position before an occurrence of [y]. *)
Definition before (l : list string) (x y : string) : Prop :=
  exists l1 l2 l3, l = l1 ++ x :: l2 ++ y :: l3.

Definition entry_ok (status : apr_status_t) : Prop :=
  status = APR_SUCCESS \/ status = APR_INCOMPLETE.

(** The calls of one complete pass over the entries of directory [D]: every
    entry read before "no more entries" is a marker that is skipped, a
    subdirectory that is joined to [D] and pushed on [todo], or another entry
    that is joined to [D] and removed; every call succeeded. *)
Inductive emptying (D : string) : list action -> Prop :=
| emptying_end status info :
    APR_STATUS_IS_ENOENT status = true ->
    emptying D [Call_dir_read status info]
| emptying_clear body :
    emptying D body -> emptying D (Call_pool_clear inner_pool :: body)
| emptying_marker status info body :
    entry_ok status -> filename_symbolic (name info) = true ->
    emptying D body -> emptying D (Call_dir_read status info :: body)
| emptying_subdirectory status info P body :
    entry_ok status -> filename_symbolic (name info) = false ->
    filetype info = APR_DIR -> emptying D body ->
    emptying D (Call_dir_read status info
                :: Call_filepath_merge D (name info) outer_pool APR_SUCCESS P
                :: Call_array_push stack_todo P true :: body)
| emptying_other status info P body :
    entry_ok status -> filename_symbolic (name info) = false ->
    filetype info <> APR_DIR -> emptying D body ->
    emptying D (Call_dir_read status info
                :: Call_filepath_merge D (name info) inner_pool APR_SUCCESS P
                :: Call_file_remove P APR_SUCCESS :: body).

(** A status of [apr_dir_read] that is neither "no more entries" nor
    success nor "incomplete". *)
Definition read_failed (status : apr_status_t) : Prop :=
  APR_STATUS_IS_ENOENT status = false
  /\ status <> APR_SUCCESS /\ status <> APR_INCOMPLETE.

Definition is_failed_read (a : action) : bool :=
  match a with
  | Call_dir_read status _ =>
      negb (APR_STATUS_IS_ENOENT status)
      && negb (status =? APR_SUCCESS) && negb (status =? APR_INCOMPLETE)
  | _ => false
  end.

(** The calls made at the [cleanup:] label. *)
Definition is_cleanup_call (a : action) : bool :=
  match a with
  | Call_dir_close _ | Call_pool_destroy _ => true
  | _ => false
  end.

(** The calls of the first loop for one directory [D] that was opened,
    passed over by [body] and closed, up to the push on [done]. *)
Definition pass (D : string) (body : list action) : list action :=
  [Call_pool_clear middle_pool; Call_dir_open D APR_SUCCESS]
    ++ body ++ [Call_dir_close APR_SUCCESS].

(** The calls of the first loop for a sequence of directories, each with
    the calls of its pass, each pushed on [done] at the end. *)
Definition passes (ds : list (string * list action)) : list action :=
  flat_map (fun db => pass (fst db) (snd db)
                      ++ [Call_array_push stack_done (fst db) true]) ds.

(** A stretch of calls with no push on [done], no directory removal, no
    subdirectory met and no failed read. *)
Definition quiet (tr : list action) : Prop :=
  completed tr = [] /\ removals tr = [] /\ subdirectories_met tr = []
  /\ filter is_failed_read tr = [].

(** The reading of "a directory is pushed on [done] only once its
    subdirectories have been emptied and recorded": at every push of a
    directory [D] on [done], each directory met below [D] is on [done]
    already and none of its entries is dealt with afterwards. *)
Definition subdirectories_emptied_first (tr : list action) : Prop :=
  forall pre post D,
    tr = pre ++ Call_array_push stack_done D true :: post ->
    forall P,
      descendant_of tr P D ->
      In P (completed pre)
      /\ forall add status f,
          ~ In (Call_filepath_merge P add inner_pool status f) post.

Definition is_dir_remove (a : action) : bool :=
  match a with Call_dir_remove _ _ => true | _ => false end.

Definition is_middle_clear (a : action) : bool :=
  match a with Call_pool_clear middle_pool => true | _ => false end.

Definition count (f : action -> bool) (tr : list action) : Z :=
  Z.of_nat (List.length (filter f tr)).

(** The segment ends with a call of [apr_dir_remove]. *)
Definition ends_with_removal (tr : list action) : Prop :=
  exists tr' p s, tr = tr' ++ [Call_dir_remove p s].

(** ** A small file system for running the function *)

(** An object of the file system: the directory it lives in, its name and
    its type.  Its path is the two joined by a slash. *)
Record sim_node : Type := mk_node {
  node_parent : string;
  node_name : string;
  node_type : apr_filetype_e
}.

Definition sim_join (root add : string) : string :=
  (root ++ "/" ++ add)%string.

Definition node_path (n : sim_node) : string :=
  sim_join (node_parent n) (node_name n).

Definition sim_is_dir (w : list sim_node) (p : string) : bool :=
  existsb (fun n => String.eqb (node_path n) p
                    && apr_filetype_eqb (node_type n) APR_DIR) w.

Definition sim_entry (n : sim_node) : apr_status_t * apr_finfo_t :=
  (APR_SUCCESS,
   mk_finfo (APR_FINFO_NAME + APR_FINFO_TYPE + APR_FINFO_LINK)
     (node_type n) (node_name n)).

Definition sim_marker (nm : string) : apr_status_t * apr_finfo_t :=
  (APR_SUCCESS,
   mk_finfo (APR_FINFO_NAME + APR_FINFO_TYPE + APR_FINFO_LINK) APR_DIR nm).

Definition sim_dir_open (w : list sim_node) (p : string)
    : apr_status_t * apr_dir_t * list sim_node :=
  if sim_is_dir w p then
    (APR_SUCCESS,
     sim_marker "." :: sim_marker ".."
       :: map sim_entry (filter (fun n => String.eqb (node_parent n) p) w),
     w)
  else (APR_ENOENT, [], w).

Definition sim_file_remove (w : list sim_node) (p : string)
    : apr_status_t * list sim_node :=
  let hit n := String.eqb (node_path n) p
               && negb (apr_filetype_eqb (node_type n) APR_DIR) in
  if existsb hit w then (APR_SUCCESS, filter (fun n => negb (hit n)) w)
  else (APR_ENOENT, w).

Definition sim_dir_remove (w : list sim_node) (p : string)
    : apr_status_t * list sim_node :=
  if sim_is_dir w p then
    if existsb (fun n => String.eqb (node_parent n) p) w then (APR_ENOTEMPTY, w)
    else (APR_SUCCESS, filter (fun n => negb (String.eqb (node_path n) p)) w)
  else (APR_ENOENT, w).

Definition sim_runtime : DirRuntime :=
  {| world := list sim_node;
     apr_pool_create := fun w => (APR_SUCCESS, w);
     apr_array_alloc := fun w => (true, w);
     apr_dir_open := sim_dir_open;
     apr_dir_close := fun w _ => (APR_SUCCESS, w);
     apr_filepath_merge := fun root add => (APR_SUCCESS, sim_join root add);
     apr_file_remove := sim_file_remove;
     apr_dir_remove := sim_dir_remove |}.

(** /tmp/t holds a file [a] and a directory [sub]; [sub] holds a file [f]. *)
Definition sample_tree : list sim_node :=
  [ mk_node "/tmp" "t" APR_DIR;
    mk_node "/tmp/t" "a" APR_REG;
    mk_node "/tmp/t" "sub" APR_DIR;
    mk_node "/tmp/t/sub" "f" APR_REG ].

Definition sample_run : list action * option apr_status_t * list sim_node :=
  Eval vm_compute in
    @remove_recursive_status sim_runtime 10 sample_tree "/tmp/t".

(** A file read from its start: 4096 bytes were fetched into the buffer, so
    the descriptor sits at 4096, and the application has taken 10 of them. *)
Definition sample_descriptor : posix_file := mk_posix 4096 10000.

Definition sample_file : @lua_apr_file posix_runtime :=
  @mk_file posix_runtime (Some sample_descriptor) 1 (mk_buffer 10 4096).

(** A file read past its first block: the second block of 4096 bytes is in
    the buffer, so the descriptor sits at 8192, and the application has
    taken 10 bytes of that block, 4106 bytes in all. *)
Definition second_block_file : @lua_apr_file posix_runtime :=
  @mk_file posix_runtime (Some (mk_posix 8192 10000)) 1 (mk_buffer 10 4096).

(** ** Sequences of close and finalizer calls on one object *)

Inductive close_op : Type := Op_close | Op_gc.

Section CloseSequences.

Context {RT : FileRuntime} {DR : DirRuntime}.

(** The release calls made by a sequence of [file:close()] and finalizer
    calls on one file object; a raised error ends that call only. *)
Fixpoint run_file_ops (file : lua_apr_file) (ops : list close_op)
    : list release_call :=
  match ops with
  | [] => []
  | Op_close :: rest =>
      let '(_, file', calls) := file_close file in
      calls ++ run_file_ops file' rest
  | Op_gc :: rest =>
      let '(_, file', calls) := file_gc file in
      calls ++ run_file_ops file' rest
  end.

Fixpoint run_dir_ops (w : world) (directory : lua_apr_dir)
    (ops : list close_op) : list release_call :=
  match ops with
  | [] => []
  | Op_close :: rest =>
      let '(_, directory', w', calls) := dir_close w directory in
      calls ++ run_dir_ops w' directory' rest
  | Op_gc :: rest =>
      let '(_, directory', w', calls) := dir_gc w directory in
      calls ++ run_dir_ops w' directory' rest
  end.

End CloseSequences.

Definition is_pool_destroy (c : release_call) : bool :=
  match c with Call_pool_destroy_of _ => true | _ => false end.

Definition is_handle_close (c : release_call) : bool :=
  match c with Call_file_close | Call_dir_close_handle => true | _ => false end.

(** ** Well-formed small file systems, and more samples *)

(** An open directory object over the small file system. *)
Definition sample_dir : lua_apr_dir :=
  mk_dir (Some [sim_marker "."; sim_marker ".."]) 2 "/tmp/t/sub".

(** A name with a slash in it is not the name of a directory entry. *)
Fixpoint has_slash (s : string) : bool :=
  match s with
  | EmptyString => false
  | String c s' => Ascii.eqb c "/"%char || has_slash s'
  end.

(** A well-formed small file system: no two objects share directory and
    name, and no name holds a slash. *)
Definition sim_wf (w : list sim_node) : Prop :=
  NoDup (map (fun n => (node_parent n, node_name n)) w)
  /\ Forall (fun n => has_slash (node_name n) = false) w.

(** The names of the subdirectories a handle will deliver. *)
Definition subdir_names (directory : apr_dir_t) : list string :=
  map name
    (filter (fun i => negb (filename_symbolic (name i))
                      && apr_filetype_eqb (filetype i) APR_DIR)
       (map snd directory)).

(** What the first loop keeps true of [todo] and [done] over the small file
    system: no path twice, none shorter than the root, and each one the
    root or a name joined to a directory on [done]. *)
Definition walk_inv (root : string) (todo done : list string) : Prop :=
  NoDup (todo ++ done)
  /\ forall x,
      In x (todo ++ done) ->
      (String.length root <= String.length x)%nat
      /\ (x = root
          \/ exists D n, x = sim_join D n /\ In D done /\ has_slash n = false).

Definition sample_trace : list action := fst (fst sample_run).

(** A runtime whose directories all open and then fail to be read, with
    EACCES, after the first marker. *)
Definition APR_EACCES : apr_status_t := 13.

Definition faulty_runtime : DirRuntime :=
  {| world := list sim_node;
     apr_pool_create := fun w => (APR_SUCCESS, w);
     apr_array_alloc := fun w => (true, w);
     apr_dir_open := fun w _ =>
       (APR_SUCCESS, [sim_marker "."; (APR_EACCES, finfo_none)], w);
     apr_dir_close := fun w _ => (APR_SUCCESS, w);
     apr_filepath_merge := fun root add => (APR_SUCCESS, sim_join root add);
     apr_file_remove := sim_file_remove;
     apr_dir_remove := sim_dir_remove |}.

(** ** apr.file_open (io_file.c) *)

(** Flags of [apr_file_open] and the default protection (apr_file_io.h,
    apr_file_info.h). *)
Definition APR_FOPEN_READ : Z := 1.
Definition APR_FOPEN_WRITE : Z := 2.
Definition APR_FOPEN_CREATE : Z := 4.
Definition APR_FOPEN_APPEND : Z := 8.
Definition APR_FOPEN_TRUNCATE : Z := 16.
Definition APR_FOPEN_BINARY : Z := 32.
Definition APR_FPROT_OS_DEFAULT : Z := 4095.

(** [*mode == c] on a C string: at its end stands the NUL, which is none of
    the characters asked for. *)
Definition mode_is (c : ascii) (mode : string) : bool :=
  match mode with
  | String d _ => Ascii.eqb d c
  | EmptyString => false
  end.

(** [mode++], done only after a character was matched. *)
Definition mode_next (mode : string) : string :=
  match mode with
  | String _ rest => rest
  | EmptyString => EmptyString
  end.

(** The three lines that follow the first character in each branch:
    [+] adds [extra], [b] adds the binary flag, a second [+] adds [extra]. *)
Definition mode_modifiers (extra flags : Z) (mode : string) : Z :=
  let '(flags, mode) :=
    if mode_is "+" mode then (Z.lor flags extra, mode_next mode)
    else (flags, mode) in
  let '(flags, mode) :=
    if mode_is "b" mode then (Z.lor flags APR_FOPEN_BINARY, mode_next mode)
    else (flags, mode) in
  if mode_is "+" mode then Z.lor flags extra else flags.

(** "Parse the mode string" and "Default to read mode just like Lua". *)
Definition mode_flags (mode : string) : Z :=
  let flags := 0 in
  let flags :=
    if mode_is "r" mode then
      mode_modifiers APR_FOPEN_WRITE (Z.lor flags APR_FOPEN_READ)
        (mode_next mode)
    else if mode_is "w" mode then
      mode_modifiers APR_FOPEN_READ
        (Z.lor flags
           (Z.lor (Z.lor APR_FOPEN_WRITE APR_FOPEN_CREATE) APR_FOPEN_TRUNCATE))
        (mode_next mode)
    else if mode_is "a" mode then
      mode_modifiers APR_FOPEN_READ
        (Z.lor flags
           (Z.lor (Z.lor APR_FOPEN_WRITE APR_FOPEN_CREATE) APR_FOPEN_APPEND))
        (mode_next mode)
    else flags in
  if Z.land flags APR_FOPEN_WRITE =? 0 then Z.lor flags APR_FOPEN_READ
  else flags.

(** ** file:lock, apr.file_attrs_set (io_file.c) *)

Definition APR_FLOCK_SHARED : Z := 1.
Definition APR_FLOCK_EXCLUSIVE : Z := 2.
Definition APR_FLOCK_NONBLOCK : Z := 16.

Definition APR_FILE_ATTR_READONLY : Z := 1.
Definition APR_FILE_ATTR_EXECUTABLE : Z := 2.
Definition APR_FILE_ATTR_HIDDEN : Z := 4.

Definition lock_options : list string := ["shared"; "exclusive"].
Definition lock_flags : list Z := [APR_FLOCK_SHARED; APR_FLOCK_EXCLUSIVE].

(** The runtime behind the remaining file functions.  [apr_file_open] gives
    the status and what it left in [file->handle]; [init_buffer] is the
    binding's own, defined outside src/. *)
Class FileServices (RT : FileRuntime) : Type := {
  apr_file_open : string -> Z -> Z -> apr_status_t * apr_file_t;
  init_buffer : apr_file_t -> lua_apr_buffer;
  apr_file_flush : apr_file_t -> apr_status_t;
  apr_file_lock : apr_file_t -> Z -> apr_status_t;
  apr_file_unlock : apr_file_t -> apr_status_t;
  apr_file_attrs_set : string -> Z -> Z -> apr_status_t
}.

(** The runtime call made, with the arguments passed. *)
Inductive service_call : Type :=
| Call_file_open (path : string) (flags perm : Z)
| Call_file_flush
| Call_file_lock (type : Z)
| Call_file_unlock
| Call_file_attrs_set (path : string) (attributes valid : Z).

(** What a stretch of C code comes to: it returns (or raises a Lua error),
    or it leaves defined behaviour.  In [apr.file_attrs_set] the latter is
    [strcmp] handed a NULL pointer. *)
Inductive c_outcome (A : Type) : Type :=
| Returns (r : A)
| Undefined.

Arguments Returns {A} r.
Arguments Undefined {A}.

(** A key of the attribute table as [lua_tostring (L, -2)] gives it: the
    string of a string key or of a number key, and NULL, here [None], for a
    key of any other type (a boolean, a table, a function, ...). *)
Definition table_key : Type := option string.

(** The loop of [apr.file_attrs_set] over the pairs that [lua_next] hands
    out, in that order, the keys as [lua_tostring] gives them, the values as
    [lua_toboolean] does.  The key goes to [strcmp] unchecked, so a NULL key
    is undefined behaviour; [luaL_argerror] does not return. *)
Fixpoint attrs_loop (entries : list (table_key * bool)) (attributes valid : Z)
    : c_outcome (lua_return (Z * Z)) :=
  match entries with
  | [] => Returns (Pushed (attributes, valid))
  | (None, _) :: _ => Undefined
  | (Some key, value) :: rest =>
      if String.eqb key "readonly" then
        attrs_loop rest
          (if value then Z.lor attributes APR_FILE_ATTR_READONLY else attributes)
          (Z.lor valid APR_FILE_ATTR_READONLY)
      else if String.eqb key "hidden" then
        attrs_loop rest
          (if value then Z.lor attributes APR_FILE_ATTR_HIDDEN else attributes)
          (Z.lor valid APR_FILE_ATTR_HIDDEN)
      else if String.eqb key "executable" then
        attrs_loop rest
          (if value then Z.lor attributes APR_FILE_ATTR_EXECUTABLE
           else attributes)
          (Z.lor valid APR_FILE_ATTR_EXECUTABLE)
      else Returns (Raised (ErrorMessage ("invalid key '" ++ key ++ "'")%string))
  end.

Section FileServicesFunctions.

Context {RT : FileRuntime} {FS : FileServices RT}.

(** [apr.file_open (path [, mode])] on the path [luaL_checkstring] read and
    the mode string, if one was given.  [pool] is what [apr_pool_create]
    answered: its status and the pool.  When the open fails the new userdata
    is left to the collector and [nil, message] is returned. *)
Definition lua_apr_file_open (path : string) (mode : option string)
    (pool : apr_status_t * nat) : lua_return lua_apr_file * list service_call :=
  let mode := match mode with Some m => m | None => "r" end in
  let flags := mode_flags mode in
  (* Create file object and memory pool, open file. *)
  if negb (APR_SUCCESS =? fst pool) then (Raised (ErrorStatus (fst pool)), [])
  else
    let '(status, h) := apr_file_open path flags APR_FPROT_OS_DEFAULT in
    let calls := [Call_file_open path flags APR_FPROT_OS_DEFAULT] in
    if negb (status =? APR_SUCCESS) then (push_error_status status, calls)
    else (Pushed (mk_file (Some h) (snd pool) (init_buffer h)), calls).

(** [file:flush()]. *)
Definition file_flush (file : lua_apr_file)
    : lua_return bool * list service_call :=
  match file_check file true with
  | Pushed (Some h) => (push_status (apr_file_flush h), [Call_file_flush])
  | Pushed None => (Raised (ErrorMessage "attempt to use a closed file"), [])
  | Raised msg => (Raised msg, [])
  | PushedError status => (PushedError status, [])
  end.

(** [file:unlock()]. *)
Definition file_unlock (file : lua_apr_file)
    : lua_return bool * list service_call :=
  match file_check file true with
  | Pushed (Some h) => (push_status (apr_file_unlock h), [Call_file_unlock])
  | Pushed None => (Raised (ErrorMessage "attempt to use a closed file"), [])
  | Raised msg => (Raised msg, [])
  | PushedError status => (PushedError status, [])
  end.

(** [file:lock (type [, nonblocking])]: [type] is the second argument as a
    string, if given ([luaL_checkoption] without a default insists on one),
    [nonblocking] the third stack slot, if any. *)
Definition file_lock {N : Type} (file : lua_apr_file) (type : option string)
    (nonblocking : option (lua_value N))
    : lua_return bool * list service_call :=
  match file_check file true with
  | Pushed (Some h) =>
      match type with
      | None => (Raised (ErrorMessage "string expected"), [])
      | Some name =>
          match option_index name lock_options with
          | None => (Raised (ErrorMessage "invalid option"), [])
          | Some i =>
              let type := nth i lock_flags 0 in
              match nonblocking with
              | None | Some LNil =>
                  (push_status (apr_file_lock h type), [Call_file_lock type])
              | Some (LString s) =>
                  if negb (String.eqb s "non-blocking") then
                    (Raised (ErrorMessage "invalid option"), [])
                  else
                    let type := Z.lor type APR_FLOCK_NONBLOCK in
                    (push_status (apr_file_lock h type), [Call_file_lock type])
              | Some _ => (Raised (ErrorMessage "string expected"), [])
              end
          end
      end
  | Pushed None => (Raised (ErrorMessage "attempt to use a closed file"), [])
  | Raised msg => (Raised msg, [])
  | PushedError status => (PushedError status, [])
  end.

(** [apr.file_attrs_set (path, attributes)] on the path [luaL_checkstring]
    read; [table] is [None] when the second argument is not a table. *)
Definition lua_apr_file_attrs_set (path : string)
    (table : option (list (table_key * bool)))
    : c_outcome (lua_return bool) * list service_call :=
  match table with
  | None => (Returns (Raised (ErrorMessage "table expected")), [])
  | Some entries =>
      match attrs_loop entries 0 0 with
      | Returns (Pushed (attributes, valid)) =>
          (Returns (push_status (apr_file_attrs_set path attributes valid)),
           [Call_file_attrs_set path attributes valid])
      | Returns (Raised msg) => (Returns (Raised msg), [])
      | Returns (PushedError status) => (Returns (PushedError status), [])
      | Undefined => (Undefined, [])
      end
  end.

End FileServicesFunctions.

(** A host for running these: every call succeeds and a file opens at its
    start, with nothing buffered. *)
Definition sample_services : FileServices posix_runtime :=
  {| apr_file_open := fun _ _ _ =>
       (APR_SUCCESS, mk_posix 0 10000 : @apr_file_t posix_runtime);
     init_buffer := fun _ => mk_buffer 0 0;
     apr_file_flush := fun _ => APR_SUCCESS;
     apr_file_lock := fun _ _ => APR_SUCCESS;
     apr_file_unlock := fun _ => APR_SUCCESS;
     apr_file_attrs_set := fun _ _ _ => APR_SUCCESS |}.

(** Reading an attribute table: whether it holds [key], and whether it
    holds [key] with a value that counts as true. *)
Definition key_is (key : string) (k : table_key) : bool :=
  match k with
  | Some s => String.eqb s key
  | None => false
  end.

Definition has_key (key : string) (entries : list (table_key * bool)) : bool :=
  existsb (fun e => key_is key (fst e)) entries.

Definition is_set (key : string) (entries : list (table_key * bool)) : bool :=
  existsb (fun e => key_is key (fst e) && snd e) entries.

Definition attribute_key (key : string) : bool :=
  String.eqb key "readonly" || String.eqb key "hidden"
  || String.eqb key "executable".

(** A key that is a string, or the string of a number, and names one of the
    three attributes. *)
Definition known_key (k : table_key) : bool :=
  match k with
  | Some s => attribute_key s
  | None => false
  end.

(** The bit mask of the three attributes. *)
Definition attribute_bits (readonly executable hidden : bool) : Z :=
  (if readonly then APR_FILE_ATTR_READONLY else 0)
  + (if executable then APR_FILE_ATTR_EXECUTABLE else 0)
  + (if hidden then APR_FILE_ATTR_HIDDEN else 0).

(** ** apr.dir_open, directory:rewind, tostring (io_dir.c) *)

Section DirectoryObjects.

Context {DR : DirRuntime}.

(** [apr_dir_rewind]: the status and the handle afterwards. *)
Variable apr_dir_rewind : apr_dir_t -> apr_status_t * apr_dir_t.

(** [apr.dir_open (path)] on the path [luaL_checkstring] read; [pool] names
    the pool that [apr_pool_create] hands out.  Besides the result and the
    world, the pool created, if any, and the release calls made. *)
Definition lua_apr_dir_open (w : world) (filepath : string) (pool : nat)
    : lua_return lua_apr_dir * world * option nat * list release_call :=
  (* Create a memory pool for the lifetime of the directory object. *)
  let '(status, w1) := apr_pool_create w in
  if negb (APR_SUCCESS =? status) then (push_error_status status, w1, None, [])
  else
    (* Try to open a handle to the directory. *)
    let '(status, handle, w2) := apr_dir_open w1 filepath in
    if negb (APR_SUCCESS =? status) then
      (push_error_status status, w2, Some pool, [Call_pool_destroy_of pool])
    else
      (* Initialize and return the directory object. *)
      (Pushed (mk_dir (Some handle) pool filepath), w2, Some pool, []).

(** [directory:rewind()]. *)
Definition dir_rewind (directory : lua_apr_dir)
    : lua_return bool * lua_apr_dir :=
  match checkdir directory true with
  | Pushed (Some h) =>
      let '(status, h') := apr_dir_rewind h in
      (push_status status, set_dir_handle directory (Some h'))
  | Pushed None =>
      (Raised (ErrorMessage "attempt to use a closed directory"), directory)
  | Raised msg => (Raised msg, directory)
  | PushedError status => (PushedError status, directory)
  end.

(** [tostring (directory)]. *)
Definition dir_tostring (directory : lua_apr_dir) : lua_return string :=
  match checkdir directory false with
  | Pushed h =>
      let prefix :=
        match h with None => "closed " | Some _ => EmptyString end in
      Pushed (prefix ++ "directory (" ++ dir_filepath directory ++ ")")%string
  | Raised msg => Raised msg
  | PushedError status => PushedError status
  end.

(** A [for] loop over [directory:entries()]: the iterator is called until it
    returns nothing or raises.  The result holds the entries it returned,
    how the loop ended ([Pushed tt] stands for the end of the directory) and
    the directory afterwards; it is [None] when [fuel] calls did not end the
    loop. *)
Fixpoint for_entries (fuel : nat) (directory : lua_apr_dir)
    : option (list apr_finfo_t * lua_return unit * lua_apr_dir) :=
  match fuel with
  | O => None
  | S fuel' =>
      match dir_read directory with
      | (Pushed (Some info), directory') =>
          match for_entries fuel' directory' with
          | Some (infos, r, d) => Some (info :: infos, r, d)
          | None => None
          end
      | (Pushed None, directory') => Some ([], Pushed tt, directory')
      | (Raised msg, directory') => Some ([], Raised msg, directory')
      | (PushedError status, directory') =>
          Some ([], PushedError status, directory')
      end
  end.

End DirectoryObjects.

(** An entry that [directory:read()] passes over. *)
Definition is_marker (info : apr_finfo_t) : bool :=
  negb (Z.land (valid info) APR_FINFO_NAME =? 0)
  && filename_symbolic (name info).

(** A read result that delivers an entry. *)
Definition entry_readable (r : apr_status_t * apr_finfo_t) : Prop :=
  fst r = APR_SUCCESS \/ fst r = APR_INCOMPLETE.

(** ** More readings of a trace of apr.dir_remove_recursive *)

(** The status a call left the function with when it failed: a status other
    than success, for a read one that is not "no more entries" or
    "incomplete" either, and [APR_ENOMEM] for an array that got no memory. *)
Definition failure_of (a : action) : option apr_status_t :=
  match a with
  | Call_pool_create _ s | Call_dir_open _ s | Call_dir_close s
  | Call_filepath_merge _ _ _ s _ | Call_file_remove _ s
  | Call_dir_remove _ s =>
      if s =? APR_SUCCESS then None else Some s
  | Call_dir_read s _ => if is_failed_read a then Some s else None
  | Call_array_make _ ok | Call_array_push _ _ ok =>
      if ok then None else Some APR_ENOMEM
  | Call_pool_clear _ | Call_pool_destroy _ => None
  end.

(** The status of the first call that failed, if one did. *)
Fixpoint first_failure (tr : list action) : option apr_status_t :=
  match tr with
  | [] => None
  | a :: rest =>
      match failure_of a with
      | Some s => Some s
      | None => first_failure rest
      end
  end.

(** The calls made after the first call that failed. *)
Fixpoint after_first_failure (tr : list action) : list action :=
  match tr with
  | [] => []
  | a :: rest =>
      match failure_of a with
      | Some _ => rest
      | None => after_first_failure rest
      end
  end.

(** The calls of the [cleanup:] label, and the second [apr_array_make],
    which is made before the result of the first is looked at. *)
Definition is_winding_down (a : action) : bool :=
  is_cleanup_call a
  || match a with Call_array_make stack_done _ => true | _ => false end.

(** Whether a directory handle is open after a call, given whether one was
    open before it. *)
Definition handle_step (open : bool) (a : action) : bool :=
  match a with
  | Call_dir_open _ s => if s =? APR_SUCCESS then true else open
  | Call_dir_close _ => false
  | _ => open
  end.

(** Whether a directory handle is open after the calls [tr]. *)
Definition handle_open (tr : list action) : bool :=
  fold_left handle_step tr false.

(** What a call requires of the handle: a directory is opened only when
    none is open, read and closed only when one is open, and the middle
    pool, in which the handle lives, is cleared or destroyed only when none
    is open. *)
Definition handle_use_ok (open : bool) (a : action) : bool :=
  match a with
  | Call_dir_open _ _ => negb open
  | Call_dir_read _ _ | Call_dir_close _ => open
  | Call_pool_clear middle_pool | Call_pool_destroy middle_pool => negb open
  | _ => true
  end.

Fixpoint handles_ok (open : bool) (tr : list action) : bool :=
  match tr with
  | [] => true
  | a :: rest => handle_use_ok open a && handles_ok (handle_step open a) rest
  end.

(** The pools created with success, and the pools destroyed, in the order
    of the calls. *)
Definition pools_created (tr : list action) : list pool :=
  flat_map (fun a => match a with
                     | Call_pool_create p s =>
                         if s =? APR_SUCCESS then [p] else []
                     | _ => []
                     end) tr.

Definition pools_destroyed (tr : list action) : list pool :=
  flat_map (fun a => match a with
                     | Call_pool_destroy p => [p]
                     | _ => []
                     end) tr.

(** The paths handed to [apr_file_remove], the paths built in the inner
    pool with success, and the paths handed to [apr_dir_open]. *)
Definition files_removed (tr : list action) : list string :=
  flat_map (fun a => match a with
                     | Call_file_remove p _ => [p]
                     | _ => []
                     end) tr.

Definition files_met (tr : list action) : list string :=
  flat_map (fun a => match a with
                     | Call_filepath_merge _ _ inner_pool s p =>
                         if s =? APR_SUCCESS then [p] else []
                     | _ => []
                     end) tr.

Definition opened (tr : list action) : list string :=
  flat_map (fun a => match a with
                     | Call_dir_open p _ => [p]
                     | _ => []
                     end) tr.

(** The calls the two loops are made of.  A path is built from the name of
    an entry that is no marker, in the outer or in the inner pool; of the
    pools only the inner and the middle one are cleared; no pool is created
    or destroyed and no array made. *)
Definition is_loop_call (a : action) : bool :=
  match a with
  | Call_pool_clear inner_pool | Call_pool_clear middle_pool => true
  | Call_dir_open _ _ | Call_dir_read _ _ | Call_dir_close _ => true
  | Call_filepath_merge _ add outer_pool _ _
  | Call_filepath_merge _ add inner_pool _ _ => negb (filename_symbolic add)
  | Call_array_push _ _ _ => true
  | Call_file_remove _ _ | Call_dir_remove _ _ => true
  | _ => false
  end.

(** The calls made before the first loop. *)
Definition is_setup_call (a : action) : bool :=
  match a with
  | Call_pool_create _ _ | Call_array_make _ _
  | Call_array_push stack_todo _ _ => true
  | _ => false
  end.

(** A path is built by joining [D] with a name that is no marker. *)
Definition joins (D : string) (a : action) : bool :=
  match a with
  | Call_filepath_merge D' add _ _ _ =>
      String.eqb D' D && negb (filename_symbolic add)
  | _ => true
  end.

(** The directory whose entries are being dealt with: the one opened last,
    with success. *)
Definition current_step (cur : option string) (a : action) : option string :=
  match a with
  | Call_dir_open D s => if s =? APR_SUCCESS then Some D else cur
  | _ => cur
  end.

Definition current (tr : list action) : option string :=
  fold_left current_step tr None.

(** Every path is built by joining the directory opened last with a name
    that is no marker. *)
Fixpoint joins_current (cur : option string) (tr : list action) : bool :=
  match tr with
  | [] => true
  | a :: rest =>
      match cur with
      | Some D => joins D a
      | None =>
          match a with
          | Call_filepath_merge _ _ _ _ _ => false
          | _ => true
          end
      end && joins_current (current_step cur a) rest
  end.

Definition is_open_or_merge (a : action) : bool :=
  match a with
  | Call_filepath_merge _ _ _ _ _ | Call_dir_open _ _ => true
  | _ => false
  end.

(** The run on the file system whose directories cannot be read. *)
Definition faulty_run
    : list action * option (lua_return bool) * list sim_node :=
  Eval vm_compute in
    @lua_apr_dir_remove_recursive faulty_runtime 10 sample_tree "/tmp/t".

Definition faulty_trace : list action := fst (fst faulty_run).

(** A path handed to [apr_file_remove] is the one built, with success and in
    the inner pool, by the call just before; [prev] is the call before the
    first of [tr]. *)
Definition removes_fresh_path (prev : option action) (a : action) : bool :=
  match a with
  | Call_file_remove P _ =>
      match prev with
      | Some (Call_filepath_merge _ _ inner_pool s P') =>
          (s =? APR_SUCCESS) && String.eqb P' P
      | _ => false
      end
  | _ => true
  end.

Fixpoint fresh_paths (prev : option action) (tr : list action) : bool :=
  match tr with
  | [] => true
  | a :: rest => removes_fresh_path prev a && fresh_paths (Some a) rest
  end.

Definition is_file_remove (a : action) : bool :=
  match a with Call_file_remove _ _ => true | _ => false end.

(** The calls of the second loop while every removal succeeds. *)
Definition is_removal_step (a : action) : bool :=
  match a with
  | Call_pool_clear middle_pool => true
  | Call_dir_remove _ s => s =? APR_SUCCESS
  | _ => false
  end.

(** The calls made before the first loop when none of them fails, and the
    calls of the cleanup that follows them when no directory is open. *)
Definition setup_calls (root : string) : list action :=
  [Call_pool_create outer_pool APR_SUCCESS;
   Call_pool_create middle_pool APR_SUCCESS;
   Call_pool_create inner_pool APR_SUCCESS;
   Call_array_make stack_todo true; Call_array_make stack_done true;
   Call_array_push stack_todo root true].

Definition destroy_calls : list action :=
  [Call_pool_destroy inner_pool; Call_pool_destroy middle_pool;
   Call_pool_destroy outer_pool].

(** ** The tree below a directory of the small file system *)

Definition is_dir_node (n : sim_node) : bool :=
  apr_filetype_eqb (node_type n) APR_DIR.

(** No object is named like a marker. *)
Definition sim_names_ok (w : list sim_node) : Prop :=
  Forall (fun n => filename_symbolic (node_name n) = false) w.

(** The objects of the tree at [root]: the directory at [root] itself and
    whatever lives in a directory of the tree. *)
Inductive in_tree (w : list sim_node) (root : string) : sim_node -> Prop :=
| tree_root n :
    In n w -> node_path n = root -> is_dir_node n = true -> in_tree w root n
| tree_child n m :
    in_tree w root m -> is_dir_node m = true ->
    In n w -> node_parent n = node_path m -> in_tree w root n.

(** The objects left of [w] once the directories [done] have been passed
    over: those that are directories or live in none of them. *)
Definition files_gone (w : list sim_node) (done : list string)
    (u : list sim_node) : Prop :=
  forall n,
    In n u <->
    In n w /\ ~ (is_dir_node n = false /\ In (node_parent n) done).

(** Every path of [paths] is that of a directory of the tree. *)
Definition tree_dirs (w : list sim_node) (root : string)
    (paths : list string) : Prop :=
  forall x,
    In x paths ->
    exists m,
      In m w /\ node_path m = x /\ is_dir_node m = true /\ in_tree w root m.

(** ** Paths held by the inner pool *)

Definition is_inner_merge (a : action) : bool :=
  match a with
  | Call_filepath_merge _ _ inner_pool _ _ => true
  | _ => false
  end.

Definition is_inner_call (a : action) : bool :=
  match a with
  | Call_filepath_merge _ _ inner_pool _ _ | Call_pool_clear inner_pool => true
  | _ => false
  end.

(** The number of paths built in the inner pool since it was last cleared,
    after a call, given the number before it. *)
Definition alive_step (k : Z) (a : action) : Z :=
  match a with
  | Call_pool_clear inner_pool => 0
  | Call_filepath_merge _ _ inner_pool _ _ => k + 1
  | _ => k
  end.

Definition inner_alive (tr : list action) : Z := fold_left alive_step tr 0.

(** The inner pool holds at most 1000 paths after every call of [tr]. *)
Fixpoint alive_ok (k : Z) (tr : list action) : bool :=
  match tr with
  | [] => true
  | a :: rest =>
      (alive_step k a <=? 1000) && alive_ok (alive_step k a) rest
  end.

(** How many paths the inner pool may hold when the counter is [c]. *)
Definition alive_cap (c : Z) : Z :=
  if c mod 1000 =? 0 then 1000 else c mod 1000.

(** * Properties *)

(** ** Integer conversions *)

Lemma apr_off_t_of_id (x : Z) : apr_off_t_range x -> apr_off_t_of x = x.
Proof.
  unfold apr_off_t_range, apr_off_t_of, two63, two64. intros H.
  rewrite Z.mod_small; lia.
Qed.

Lemma apr_off_t_of_range (x : Z) : apr_off_t_range (apr_off_t_of x).
Proof.
  unfold apr_off_t_range, apr_off_t_of, two63, two64.
  pose proof (Z.mod_pos_bound (x + 2 ^ 63) (2 ^ 64)). lia.
Qed.

Lemma apr_off_t_of_congr (x y : Z) :
  x mod two64 = y mod two64 -> apr_off_t_of x = apr_off_t_of y.
Proof.
  unfold apr_off_t_of. intros H.
  rewrite (Z.add_mod x), (Z.add_mod y), H by (unfold two64; lia).
  reflexivity.
Qed.

Lemma size_t_of_apr_off_t_of (x : Z) : size_t_of (apr_off_t_of x) = size_t_of x.
Proof.
  unfold size_t_of, apr_off_t_of.
  rewrite Zminus_mod, Zmod_mod, <- Zminus_mod.
  f_equal. lia.
Qed.

Lemma int_of_id (x : Z) : int_range x -> int_of x = x.
Proof.
  unfold int_range, int_of. intros H. rewrite Z.mod_small; lia.
Qed.

Lemma start_of_buf_exact (end_of_buf limit : Z) :
  apr_off_t_range (end_of_buf - limit) ->
  start_of_buf end_of_buf limit = end_of_buf - limit.
Proof.
  intros H. unfold start_of_buf.
  rewrite <- (apr_off_t_of_id _ H). apply apr_off_t_of_congr.
  unfold size_t_of. rewrite Zmod_mod. apply Zminus_mod_idemp_l.
Qed.

Lemma cur_offset_congr (offset start index start' : Z) :
  start mod two64 = start' mod two64 ->
  cur_offset offset start index = apr_off_t_of (offset + (start' + index)).
Proof.
  intros H. unfold cur_offset. apply apr_off_t_of_congr.
  unfold size_t_of. rewrite Zmod_mod, <- Zplus_mod, H.
  rewrite <- (Zplus_mod_idemp_r (start' mod two64 + index)).
  rewrite (Zplus_mod_idemp_l start'), Zplus_mod_idemp_r. reflexivity.
Qed.

Lemma start_of_buf_mod (end_of_buf limit : Z) :
  start_of_buf end_of_buf limit mod two64 = (end_of_buf - limit) mod two64.
Proof.
  unfold start_of_buf. fold (size_t_of (apr_off_t_of (size_t_of (size_t_of end_of_buf - limit)))).
  rewrite size_t_of_apr_off_t_of. unfold size_t_of.
  rewrite Zmod_mod. apply Zminus_mod_idemp_l.
Qed.

(** ** file:seek *)

Section FileTheory.

Context {RT : FileRuntime}.

Lemma file_check_open (file : lua_apr_file) (h : apr_file_t) :
  handle file = Some h -> file_check file true = Pushed (Some h).
Proof. unfold file_check. intros ->. reflexivity. Qed.

Lemma buffer_set_handle (file : lua_apr_file) (h : option apr_file_t) :
  buffer (set_handle file h) = buffer file.
Proof. reflexivity. Qed.

(** The shape of [file_seek] on an open file once the position query has
    succeeded. *)
Lemma file_seek_after_query (file : lua_apr_file) (whence : option string)
    (offset : Z) (h h1 : apr_file_t) (i : nat) (end_of_buf : Z) :
  handle file = Some h ->
  luaL_checkoption whence "cur" modenames = Some i ->
  apr_file_seek h APR_CUR 0 = (APR_SUCCESS, end_of_buf, h1) ->
  file_seek file whence offset =
    let start := start_of_buf end_of_buf (limit (buffer file)) in
    let request :=
      seek_request (nth i modes APR_SET) offset start (index (buffer file)) in
    let '(status, p, h2) := apr_file_seek h1 (fst request) (snd request) in
    if negb (status =? APR_SUCCESS)
    then (push_error_status status, set_handle file (Some h2))
    else (Pushed p,
          mk_file (Some h2) (memory_pool file)
            (adjust_buffer (buffer file) p start end_of_buf)).
Proof.
  intros Hh Ho Hq. unfold file_seek.
  rewrite (file_check_open _ _ Hh), Ho, Hq. cbn [negb Z.eqb APR_SUCCESS].
  destruct (seek_request _ _ _ _) as [mode' offset']. reflexivity.
Qed.

(** The translation of a seek relative to the current position.  On an
    open buffered file whose descriptor sits at [end_of_buf], such a seek
    issues the absolute seek to the requested offset plus
    [end_of_buf - limit + index]: what that raw seek answers is what the call
    returns, and the descriptor it leaves is the one the file keeps.  Leaving
    the mode out means "cur". *)
Lemma file_seek_cur_issues_absolute_seek
    (file : lua_apr_file) (h h1 : apr_file_t) (offset end_of_buf : Z) :
  handle file = Some h ->
  apr_file_seek h APR_CUR 0 = (APR_SUCCESS, end_of_buf, h1) ->
  let start := end_of_buf - limit (buffer file) in
  let position := start + index (buffer file) in
  apr_off_t_range (offset + position) ->
  file_seek file (Some "cur") offset
  = (let '(status, p, h2) := apr_file_seek h1 APR_SET (offset + position) in
     if negb (status =? APR_SUCCESS)
     then (push_error_status status, set_handle file (Some h2))
     else (Pushed p,
           mk_file (Some h2) (memory_pool file)
             (adjust_buffer (buffer file) p
                (start_of_buf end_of_buf (limit (buffer file))) end_of_buf)))
  /\ file_seek file (Some "cur") offset
     = file_seek file (Some "set") (offset + position)
  /\ file_seek file None offset = file_seek file (Some "cur") offset.
Proof.
  intros Hh Hq start position Hr.
  assert (Hc : cur_offset offset
                 (start_of_buf end_of_buf (limit (buffer file)))
                 (index (buffer file)) = offset + position).
  { rewrite (cur_offset_congr _ _ _ start) by apply start_of_buf_mod.
    apply apr_off_t_of_id, Hr. }
  split; [|split; [|reflexivity]].
  - rewrite (file_seek_after_query file (Some "cur") offset h h1 1 end_of_buf
               Hh eq_refl Hq).
    cbn [nth modes seek_request apr_seek_where_eqb fst snd].
    rewrite Hc. reflexivity.
  - rewrite (file_seek_after_query file (Some "cur") offset h h1 1 end_of_buf
               Hh eq_refl Hq).
    rewrite (file_seek_after_query file (Some "set") _ h h1 0 end_of_buf
               Hh eq_refl Hq).
    cbn [nth modes seek_request apr_seek_where_eqb fst snd].
    rewrite Hc. reflexivity.
Qed.

(** C2.  After a successful seek that ended at position [p], with the
    descriptor previously at [end_of_buf] and
    [start = end_of_buf - limit]: when [start <= p <= end_of_buf] the
    buffer keeps its limit and its index becomes [p - start]; otherwise
    index and limit are both 0. *)
Theorem file_seek_buffer_window
    (file : lua_apr_file) (whence : option string) (offset : Z)
    (h h1 h2 : apr_file_t) (i : nat) (end_of_buf p : Z) :
  handle file = Some h ->
  luaL_checkoption whence "cur" modenames = Some i ->
  apr_file_seek h APR_CUR 0 = (APR_SUCCESS, end_of_buf, h1) ->
  let start := end_of_buf - limit (buffer file) in
  let request :=
    seek_request (nth i modes APR_SET) offset start (index (buffer file)) in
  apr_file_seek h1 (fst request) (snd request) = (APR_SUCCESS, p, h2) ->
  apr_off_t_range start -> apr_off_t_range p ->
  fst (file_seek file whence offset) = Pushed p
  /\ buffer (snd (file_seek file whence offset))
     = if (start <=? p) && (p <=? end_of_buf)
       then mk_buffer (p - start) (limit (buffer file))
       else mk_buffer 0 0.
Proof.
  intros Hh Ho Hq start request Hs Hrs Hrp.
  rewrite (file_seek_after_query file whence offset h h1 i end_of_buf Hh Ho Hq).
  rewrite (start_of_buf_exact _ _ Hrs). fold start. cbv zeta. fold request.
  rewrite Hs. cbn [negb Z.eqb APR_SUCCESS fst snd buffer].
  split; [reflexivity|].
  unfold adjust_buffer. rewrite Z.geb_leb.
  destruct ((start <=? p) && (p <=? end_of_buf)) eqn:E; [|reflexivity].
  apply andb_prop in E. destruct E as [E1 E2].
  apply Z.leb_le in E1.
  rewrite size_t_of_apr_off_t_of. unfold size_t_of.
  rewrite Z.mod_small; [reflexivity|].
  unfold apr_off_t_range, two63, two64 in *. lia.
Qed.

(** C5.  When a raw seek fails - the position query or the translated
    seek - [file_seek] returns that status as its error and the buffer is
    as it was; no error return of [file_seek] changes the buffer. *)
Theorem file_seek_failure_keeps_buffer
    (file : lua_apr_file) (whence : option string) (offset : Z)
    (h : apr_file_t) (i : nat) :
  handle file = Some h ->
  luaL_checkoption whence "cur" modenames = Some i ->
  (forall status v h1,
      apr_file_seek h APR_CUR 0 = (status, v, h1) ->
      status <> APR_SUCCESS ->
      fst (file_seek file whence offset) = PushedError status
      /\ buffer (snd (file_seek file whence offset)) = buffer file)
  /\ (forall end_of_buf h1 status v h2,
        apr_file_seek h APR_CUR 0 = (APR_SUCCESS, end_of_buf, h1) ->
        let request :=
          seek_request (nth i modes APR_SET) offset
            (start_of_buf end_of_buf (limit (buffer file)))
            (index (buffer file)) in
        apr_file_seek h1 (fst request) (snd request) = (status, v, h2) ->
        status <> APR_SUCCESS ->
        fst (file_seek file whence offset) = PushedError status
        /\ buffer (snd (file_seek file whence offset)) = buffer file)
  /\ (forall status,
        fst (file_seek file whence offset) = PushedError status ->
        buffer (snd (file_seek file whence offset)) = buffer file).
Proof.
  intros Hh Ho. split; [|split].
  - intros status v h1 Hq Hne. unfold file_seek.
    rewrite (file_check_open _ _ Hh), Ho, Hq.
    destruct (status =? APR_SUCCESS) eqn:E;
      [apply Z.eqb_eq in E; contradiction|].
    split; reflexivity.
  - intros end_of_buf h1 status v h2 Hq request Hs Hne.
    rewrite (file_seek_after_query file whence offset h h1 i end_of_buf Hh Ho Hq).
    cbv zeta. fold request. rewrite Hs.
    destruct (status =? APR_SUCCESS) eqn:E;
      [apply Z.eqb_eq in E; contradiction|].
    split; reflexivity.
  - intros status. unfold file_seek.
    rewrite (file_check_open _ _ Hh), Ho.
    destruct (apr_file_seek h APR_CUR 0) as [[s1 e] h1].
    destruct (negb (s1 =? APR_SUCCESS)); [reflexivity|].
    destruct (seek_request _ _ _ _) as [m o].
    destruct (apr_file_seek h1 m o) as [[s2 p] h2].
    destruct (negb (s2 =? APR_SUCCESS)); [reflexivity|].
    cbn [fst]. discriminate.
Qed.

End FileTheory.

(** C1, where the code departs from it.  The file has been read up to byte
    4106, its second block in the buffer.  [file:seek("cur", 0)] returns
    4106, the bytes consumed, but it leaves the descriptor at 4106 and the
    buffer as it was, although the buffered block ends at 8192.  A second
    [file:seek("cur", 0)] right after it, with nothing read in between,
    takes 4106 for the end of the buffered input and returns 20. *)
Theorem file_seek_cur_forgets_position :
  let first := @file_seek posix_runtime second_block_file (Some "cur") 0 in
  let second := @file_seek posix_runtime (snd first) (Some "cur") 0 in
  first
  = (Pushed 4106,
     @mk_file posix_runtime (Some (mk_posix 4106 10000)) 1 (mk_buffer 10 4096))
  /\ second
     = (Pushed 20,
        @mk_file posix_runtime (Some (mk_posix 20 10000)) 1 (mk_buffer 10 4096))
  /\ fst second <> fst first.
Proof.
  cbv zeta.
  assert (H1 : @file_seek posix_runtime second_block_file (Some "cur") 0
               = (Pushed 4106,
                  @mk_file posix_runtime (Some (mk_posix 4106 10000)) 1
                    (mk_buffer 10 4096)))
    by (vm_compute; reflexivity).
  rewrite H1. cbn [fst snd].
  split; [reflexivity|]. split; [vm_compute; reflexivity|].
  vm_compute. discriminate.
Qed.

(** On the sample file, [seek("cur", 0)] is [seek("set", 10)]: the raw seek
    to 10 is issued and the descriptor, which sat at 4096, is left at 10. *)
Lemma file_seek_cur_issues_absolute_seek_sample :
  @file_seek posix_runtime sample_file (Some "cur") 0
  = (Pushed 10,
     @mk_file posix_runtime (Some (mk_posix 10 10000)) 1 (mk_buffer 10 4096)).
Proof.
  destruct (@file_seek_cur_issues_absolute_seek posix_runtime
              sample_file sample_descriptor sample_descriptor 0 4096
              eq_refl eq_refl) as [H1 _].
  - unfold apr_off_t_range, two63. simpl. lia.
  - rewrite H1. vm_compute. reflexivity.
Defined.

(** On the sample file, a seek to 100 stays in the window [0, 4096]. *)
Lemma file_seek_buffer_window_witness :
  fst (@file_seek posix_runtime sample_file (Some "set") 100) = Pushed 100
  /\ buffer (snd (@file_seek posix_runtime sample_file (Some "set") 100))
     = mk_buffer 100 4096.
Proof.
  apply (@file_seek_buffer_window posix_runtime sample_file (Some "set") 100
           sample_descriptor sample_descriptor (mk_posix 100 10000) 0 4096 100
           eq_refl eq_refl eq_refl eq_refl).
  - unfold apr_off_t_range, two63. simpl. lia.
  - unfold apr_off_t_range, two63. lia.
Defined.

(** On the sample file, a seek to -5 fails with EINVAL and the buffer
    stays at index 10, limit 4096. *)
Lemma file_seek_failure_keeps_buffer_witness :
  fst (@file_seek posix_runtime sample_file (Some "set") (-5))
    = PushedError APR_EINVAL
  /\ buffer (snd (@file_seek posix_runtime sample_file (Some "set") (-5)))
     = mk_buffer 10 4096.
Proof.
  destruct (@file_seek_failure_keeps_buffer posix_runtime sample_file
              (Some "set") (-5) sample_descriptor 0 eq_refl eq_refl)
    as [_ [H2 _]].
  apply (H2 4096 sample_descriptor APR_EINVAL (-1) sample_descriptor);
    [reflexivity | reflexivity | discriminate].
Defined.

(** ** apr.file_copy, apr.file_append, apr.file_rename *)

Section FileOperationsTheory.

Context {CR : CopyRuntime}.

Lemma copy_calls (L : lua_State) (c : file_call) :
  In c (snd (lua_apr_file_copy L)) ->
  luaL_checkstring L 1 = Pushed (call_source c)
  /\ call_target c = call_source c.
Proof.
  unfold lua_apr_file_copy.
  destruct (luaL_checkstring L 1) as [e|st|s]; cbn [snd In]; try tauto.
  destruct (check_permissions (lua_arg L 3) true) as [e|st|perm]; cbn [snd In]; try tauto.
  intros [<-|[]]. split; reflexivity.
Qed.

Lemma append_calls (L : lua_State) (c : file_call) :
  In c (snd (lua_apr_file_append L)) ->
  luaL_checkstring L 1 = Pushed (call_source c)
  /\ call_target c = call_source c.
Proof.
  unfold lua_apr_file_append.
  destruct (luaL_checkstring L 1) as [e|st|s]; cbn [snd In]; try tauto.
  destruct (check_permissions (lua_arg L 3) true) as [e|st|perm]; cbn [snd In]; try tauto.
  intros [<-|[]]. split; reflexivity.
Qed.

Lemma rename_calls (L : lua_State) (c : file_call) :
  In c (snd (lua_apr_file_rename L)) ->
  luaL_checkstring L 1 = Pushed (call_source c)
  /\ call_target c = call_source c.
Proof.
  unfold lua_apr_file_rename.
  destruct (luaL_checkstring L 1) as [e|st|s]; cbn [snd In]; try tauto.
  intros [<-|[]]. split; reflexivity.
Qed.

(** C9.  Whenever the first argument of [apr.file_copy], [apr.file_append]
    or [apr.file_rename] is a string or a number (and, for the first two, the
    permissions parse), the runtime operation is invoked, once, with that
    argument as its source and as its target, and its status is what the
    wrapper returns; when the first argument is anything else the wrapper
    raises and invokes nothing.  So whatever the Lua arguments, every runtime
    call made has the first argument as source and target, and the result
    and the call do not depend on the second argument, be it changed or left
    out. *)
Theorem wrappers_take_source_and_target_from_first_argument :
  (forall (L : lua_State) (s : string),
      luaL_checkstring L 1 = Pushed s ->
      (forall permissions,
          check_permissions (lua_arg L 3) true = Pushed permissions ->
          lua_apr_file_copy L
          = (push_status (apr_file_copy s s permissions),
             [Call_file_copy s s permissions])
          /\ lua_apr_file_append L
             = (push_status (apr_file_append s s permissions),
                [Call_file_append s s permissions]))
      /\ lua_apr_file_rename L
         = (push_status (apr_file_rename s s), [Call_file_rename s s]))
  /\ (forall (L : lua_State) (msg : lua_error),
        luaL_checkstring L 1 = Raised msg ->
        lua_apr_file_copy L = (Raised msg, [])
        /\ lua_apr_file_append L = (Raised msg, [])
        /\ lua_apr_file_rename L = (Raised msg, []))
  /\ (forall (L : lua_State) (c : file_call),
        In c (snd (lua_apr_file_copy L) ++ snd (lua_apr_file_append L)
              ++ snd (lua_apr_file_rename L)) ->
        luaL_checkstring L 1 = Pushed (call_source c)
        /\ call_target c = call_source c)
  /\ (forall (a1 a2 a2' : lua_value lua_Number) (rest : lua_State),
        lua_apr_file_copy (a1 :: a2 :: rest)
          = lua_apr_file_copy (a1 :: a2' :: rest)
        /\ lua_apr_file_append (a1 :: a2 :: rest)
           = lua_apr_file_append (a1 :: a2' :: rest)
        /\ lua_apr_file_rename (a1 :: a2 :: rest)
           = lua_apr_file_rename (a1 :: a2' :: rest))
  /\ (forall (a1 a2 : lua_value lua_Number),
        lua_apr_file_copy [a1; a2] = lua_apr_file_copy [a1]
        /\ lua_apr_file_append [a1; a2] = lua_apr_file_append [a1]
        /\ lua_apr_file_rename [a1; a2] = lua_apr_file_rename [a1]).
Proof.
  split; [|split; [|split; [|split]]].
  - intros L s Hs. split.
    + intros permissions Hp.
      unfold lua_apr_file_copy, lua_apr_file_append. rewrite Hs, Hp.
      split; reflexivity.
    + unfold lua_apr_file_rename. rewrite Hs. reflexivity.
  - intros L msg Hs.
    unfold lua_apr_file_copy, lua_apr_file_append, lua_apr_file_rename.
    rewrite Hs. repeat split.
  - intros L c H. apply in_app_or in H. destruct H as [H|H].
    + apply copy_calls, H.
    + apply in_app_or in H. destruct H as [H|H].
      * apply append_calls, H.
      * apply rename_calls, H.
  - intros a1 a2 a2' rest. repeat split; reflexivity.
  - intros a1 a2. repeat split; reflexivity.
Qed.

End FileOperationsTheory.

(** [apr.file_copy ("a", "b")], [apr.file_append ("a", "b")] and
    [apr.file_rename ("a", "b")] each invoke the runtime once, on "a" and
    "a". *)
Lemma wrappers_take_source_and_target_from_first_argument_witness :
  @lua_apr_file_copy sample_copy_runtime [LString "a"; LString "b"]
  = (Pushed true, [@Call_file_copy sample_copy_runtime "a" "a" 0])
  /\ @lua_apr_file_append sample_copy_runtime [LString "a"; LString "b"]
     = (Pushed true, [@Call_file_append sample_copy_runtime "a" "a" 0])
  /\ @lua_apr_file_rename sample_copy_runtime [LString "a"; LString "b"]
     = (Pushed true, [@Call_file_rename sample_copy_runtime "a" "a"]).
Proof.
  destruct (proj1 (@wrappers_take_source_and_target_from_first_argument
                     sample_copy_runtime)
              [LString "a"; LString "b"] "a" eq_refl) as [Hperm Hrename].
  destruct (Hperm 0 eq_refl) as [Hcopy Happend].
  split; [exact Hcopy|]. split; [exact Happend | exact Hrename].
Defined.

(** ** directory:read and the close paths *)

Lemma filename_symbolic_spec (nm : string) :
  filename_symbolic nm = true <-> nm = "." \/ nm = "..".
Proof.
  unfold filename_symbolic. rewrite orb_true_iff, !String.eqb_eq. tauto.
Qed.

Section DirectoryTheory.

Context {DR : DirRuntime}.

Lemma dir_read_loop_entry (h h' : apr_dir_t) (info : apr_finfo_t) :
  dir_read_loop h = (Pushed (Some info), h') ->
  Z.land (valid info) APR_FINFO_NAME <> 0 ->
  filename_symbolic (name info) = false.
Proof.
  induction h as [|[status i] rest IH]; cbn [dir_read_loop].
  - discriminate.
  - destruct ((status =? APR_SUCCESS) || APR_STATUS_IS_INCOMPLETE status).
    + destruct (negb (negb (Z.land (valid i) APR_FINFO_NAME =? 0)
                      && filename_symbolic (name i))) eqn:E.
      * intros H Hv. injection H as -> _.
        apply Z.eqb_neq in Hv. rewrite Hv in E. cbn in E.
        apply negb_true_iff in E. exact E.
      * exact IH.
    + destruct (APR_STATUS_IS_ENOENT status); discriminate.
Qed.

(** C10.  An entry returned by [directory:read()] on an open directory,
    when its name is valid, is named neither [.] nor [..]; an entry so
    named is passed over and the call goes on with the next one; and the
    iterator of [directory:entries()] is that very function. *)
Theorem dir_read_skips_self_and_parent (directory : lua_apr_dir) :
  (forall info,
      fst (dir_read directory) = Pushed (Some info) ->
      Z.land (valid info) APR_FINFO_NAME <> 0 ->
      name info <> "." /\ name info <> "..")
  /\ (forall status info rest,
        dir_handle directory = Some ((status, info) :: rest) ->
        status = APR_SUCCESS \/ status = APR_INCOMPLETE ->
        Z.land (valid info) APR_FINFO_NAME <> 0 ->
        name info = "." \/ name info = ".." ->
        dir_read directory = dir_read (set_dir_handle directory (Some rest)))
  /\ (forall it d,
        dir_entries directory = Pushed (it, d) ->
        it = dir_read /\ d = directory).
Proof.
  split; [|split].
  - intros info H Hv. unfold dir_read, checkdir in H.
    destruct (dir_handle directory) as [h|]; cbn in H; [|discriminate].
    destruct (dir_read_loop h) as [r h'] eqn:E. cbn in H. subst r.
    pose proof (dir_read_loop_entry _ _ _ E Hv) as Hs.
    split; intros Hn;
      assert (filename_symbolic (name info) = true)
        by (apply filename_symbolic_spec; auto); congruence.
  - intros status info rest Hh Hs Hv Hn.
    apply filename_symbolic_spec in Hn. apply Z.eqb_neq in Hv.
    unfold dir_read, checkdir. rewrite Hh. cbn [dir_handle set_dir_handle andb].
    cbn [dir_read_loop]. rewrite Hv, Hn. cbn [negb andb].
    replace ((status =? APR_SUCCESS) || APR_STATUS_IS_INCOMPLETE status)
      with true.
    + destruct (dir_read_loop rest). reflexivity.
    + symmetry. apply orb_true_iff. unfold APR_STATUS_IS_INCOMPLETE.
      rewrite !Z.eqb_eq. exact Hs.
  - intros it d. unfold dir_entries.
    destruct (checkdir directory true); try discriminate.
    intros H. injection H as <- <-. split; reflexivity.
Qed.

End DirectoryTheory.

(** A handle that delivers [.], [..] and [f]: the first read returns [f]. *)
Lemma dir_read_skips_self_and_parent_witness :
  @dir_read
    (mk_dir (Some [sim_marker "."; sim_marker ".."; sim_entry (mk_node "/tmp/t/sub" "f" APR_REG)])
       2 "/tmp/t/sub")
  = (Pushed (Some (snd (sim_entry (mk_node "/tmp/t/sub" "f" APR_REG)))),
     mk_dir (Some []) 2 "/tmp/t/sub")
  /\ "f" <> "." /\ "f" <> "..".
Proof.
  split; [reflexivity|].
  apply (proj1 (dir_read_skips_self_and_parent
                  (mk_dir (Some [sim_marker "."; sim_marker "..";
                                 sim_entry (mk_node "/tmp/t/sub" "f" APR_REG)])
                     2 "/tmp/t/sub"))
           (snd (sim_entry (mk_node "/tmp/t/sub" "f" APR_REG)))).
  - reflexivity.
  - vm_compute. discriminate.
Defined.

Section CloseTheory.

Context {RT : FileRuntime} {DR : DirRuntime}.

Lemma file_closed_paths (file : lua_apr_file) :
  handle file = None ->
  file_close_real file = (APR_SUCCESS, file, [])
  /\ file_gc file = (Pushed tt, file, [])
  /\ file_close file
     = (Raised (ErrorMessage "attempt to use a closed file"), file, []).
Proof.
  intros H. unfold file_gc, file_close, file_close_real, file_check.
  rewrite H. repeat split; reflexivity.
Qed.

Lemma run_file_ops_closed (file : lua_apr_file) (ops : list close_op) :
  handle file = None -> run_file_ops file ops = [].
Proof.
  intros H. induction ops as [|[|] ops IH]; cbn [run_file_ops].
  - reflexivity.
  - destruct (file_closed_paths file H) as (_ & _ & ->). exact IH.
  - destruct (file_closed_paths file H) as (_ & -> & _). exact IH.
Qed.

Lemma dir_closed_paths (w : world) (directory : lua_apr_dir) :
  dir_handle directory = None ->
  dir_gc w directory = (Pushed tt, directory, w, [])
  /\ dir_close w directory
     = (Raised (ErrorMessage "attempt to use a closed directory"),
        directory, w, []).
Proof.
  intros H. unfold dir_gc, dir_close, checkdir.
  rewrite H. split; reflexivity.
Qed.

Lemma run_dir_ops_closed (w : world) (directory : lua_apr_dir)
    (ops : list close_op) :
  dir_handle directory = None -> run_dir_ops w directory ops = [].
Proof.
  intros H. induction ops as [|[|] ops IH]; cbn [run_dir_ops].
  - reflexivity.
  - destruct (dir_closed_paths w directory H) as (_ & ->). exact IH.
  - destruct (dir_closed_paths w directory H) as (-> & _). exact IH.
Qed.

(** C8, as the code has it.  On an open file [file_close_real] closes the
    handle, destroys the pool and frees the buffer, once each; on a closed
    file it and the finalizer do nothing and succeed, while [file:close()]
    raises; so any sequence of [file:close()] and finalizer calls on an
    open file releases handle and pool exactly once.  On a closed
    directory the finalizer does nothing and succeeds, while
    [directory:close()] raises; any sequence of [directory:close()] and
    finalizer calls on an open directory closes the handle exactly once
    and destroys the pool at most once. *)
Theorem release_paths_are_guarded :
  (forall (file : lua_apr_file) (h : apr_file_t),
      handle file = Some h ->
      file_close_real file
      = (apr_file_close h, set_handle file None,
         [Call_file_close; Call_pool_destroy_of (memory_pool file);
          Call_free_buffer]))
  /\ (forall file : lua_apr_file,
        handle file = None ->
        file_close_real file = (APR_SUCCESS, file, [])
        /\ file_gc file = (Pushed tt, file, [])
        /\ file_close file
           = (Raised (ErrorMessage "attempt to use a closed file"), file, []))
  /\ (forall (file : lua_apr_file) (h : apr_file_t) (ops : list close_op),
        handle file = Some h -> ops <> [] ->
        run_file_ops file ops
        = [Call_file_close; Call_pool_destroy_of (memory_pool file);
           Call_free_buffer])
  /\ (forall (w : world) (directory : lua_apr_dir),
        dir_handle directory = None ->
        dir_gc w directory = (Pushed tt, directory, w, [])
        /\ dir_close w directory
           = (Raised (ErrorMessage "attempt to use a closed directory"),
              directory, w, []))
  /\ (forall (w : world) (directory : lua_apr_dir) (h : apr_dir_t)
             (ops : list close_op),
        dir_handle directory = Some h -> ops <> [] ->
        List.length (filter is_handle_close (run_dir_ops w directory ops)) = 1%nat
        /\ (List.length (filter is_pool_destroy (run_dir_ops w directory ops)) <= 1)%nat).
Proof.
  split; [|split; [|split; [|split]]].
  - intros file h H. unfold file_close_real. rewrite H. reflexivity.
  - exact file_closed_paths.
  - intros file h ops H Hne. destruct ops as [|op ops]; [contradiction|].
    destruct op; cbn [run_file_ops];
      unfold file_close, file_gc, file_close_real, file_check;
      rewrite H; cbn [andb];
      rewrite run_file_ops_closed by reflexivity; reflexivity.
  - exact dir_closed_paths.
  - intros w directory h ops H Hne. destruct ops as [|op ops]; [contradiction|].
    destruct op; cbn [run_dir_ops];
      unfold dir_close, dir_gc, checkdir; rewrite H; cbn [andb];
      destruct (apr_dir_close w h) as [s w'];
      rewrite run_dir_ops_closed by reflexivity; cbn; auto.
Qed.

End CloseTheory.

(** Closing the sample file twice and finalizing it releases it once. *)
Lemma release_paths_are_guarded_witness :
  @run_file_ops posix_runtime sample_file [Op_close; Op_close; Op_gc]
  = [Call_file_close; Call_pool_destroy_of 1; Call_free_buffer].
Proof.
  apply (proj1 (proj2 (proj2
           (@release_paths_are_guarded posix_runtime sim_runtime)))
           sample_file sample_descriptor [Op_close; Op_close; Op_gc]).
  - reflexivity.
  - discriminate.
Defined.

(** C8 as stated does not hold: the second [directory:close()] on an object
    raises an error, and so does the second [file:close()]. *)
Lemma second_close_raises :
  (let '(r1, d1, w1, _) := @dir_close sim_runtime sample_tree sample_dir in
   r1 = Pushed true /\ dir_handle d1 = None
   /\ fst (fst (fst (@dir_close sim_runtime w1 d1)))
      = Raised (ErrorMessage "attempt to use a closed directory"))
  /\ (let '(r1, f1, _) := @file_close posix_runtime sample_file in
      r1 = Pushed true /\ handle f1 = None
      /\ fst (fst (@file_close posix_runtime f1))
         = Raised (ErrorMessage "attempt to use a closed file")).
Proof. vm_compute. repeat split. Qed.

(** ** Lists and traces *)

Lemma split_at_app {A : Type} (l1 l2 pre post : list A) (x : A) :
  l1 ++ l2 = pre ++ x :: post ->
  (exists m, l1 = pre ++ x :: m /\ post = m ++ l2)
  \/ (exists m, pre = l1 ++ m /\ l2 = m ++ x :: post).
Proof.
  revert pre. induction l1 as [|a l1 IH]; intros pre H.
  - right. exists pre. split; [reflexivity | exact H].
  - destruct pre as [|b pre]; cbn in H.
    + injection H as <- <-. left. exists l1. split; reflexivity.
    + injection H as <- H. destruct (IH _ H) as [[m [-> ->]]|[m [-> ->]]].
      * left. exists m. split; reflexivity.
      * right. exists m. split; reflexivity.
Qed.

Lemma nodup_split_unique {A : Type} (x : A) (p q p' q' : list A) :
  NoDup (p ++ x :: q) -> p ++ x :: q = p' ++ x :: q' -> p = p' /\ q = q'.
Proof.
  revert p'. induction p as [|a p IH]; intros p' Hn H.
  - destruct p' as [|b p']; cbn in H.
    + injection H as <-. split; reflexivity.
    + injection H as <- H. cbn in Hn. apply NoDup_cons_iff in Hn.
      destruct Hn as [Hn _]. exfalso. apply Hn. rewrite H.
      apply in_elt.
  - destruct p' as [|b p']; cbn in H.
    + injection H as -> H. cbn in Hn. apply NoDup_cons_iff in Hn.
      destruct Hn as [Hn _]. exfalso. apply Hn. apply in_elt.
    + injection H as <- H. cbn in Hn. apply NoDup_cons_iff in Hn.
      destruct Hn as [_ Hn]. destruct (IH _ Hn H) as [-> ->].
      split; reflexivity.
Qed.

Lemma before_trans (l : list string) (x y z : string) :
  NoDup l -> before l x y -> before l y z -> before l x z.
Proof.
  intros Hn (a1 & a2 & a3 & Ha) (b1 & b2 & b3 & Hb).
  assert (H : (a1 ++ x :: a2) ++ y :: a3 = b1 ++ y :: b2 ++ z :: b3).
  { rewrite <- Hb, Ha, <- app_assoc. reflexivity. }
  assert (Hn' : NoDup ((a1 ++ x :: a2) ++ y :: a3)).
  { rewrite <- app_assoc. cbn. rewrite <- Ha. exact Hn. }
  destruct (nodup_split_unique _ _ _ _ _ Hn' H) as [<- ->].
  exists a1, (a2 ++ y :: b2), b3.
  rewrite Ha, <- !app_assoc. reflexivity.
Qed.

Lemma before_rev (l : list string) (x y : string) :
  before l x y -> before (rev l) y x.
Proof.
  intros (l1 & l2 & l3 & ->).
  exists (rev l3), (rev l2), (rev l1).
  rewrite rev_app_distr. cbn. rewrite rev_app_distr. cbn.
  rewrite <- !app_assoc. reflexivity.
Qed.

Lemma before_prefix (l rest : list string) (x y : string) :
  NoDup (l ++ rest) -> before (l ++ rest) x y -> In y l -> before l x y.
Proof.
  intros Hn (a1 & a2 & a3 & Ha) Hy.
  apply in_split in Hy. destruct Hy as (r1 & r2 & ->).
  assert (H : (a1 ++ x :: a2) ++ y :: a3 = r1 ++ y :: (r2 ++ rest)).
  { rewrite <- app_assoc. cbn. rewrite <- Ha, <- app_assoc. reflexivity. }
  assert (Hn' : NoDup ((a1 ++ x :: a2) ++ y :: a3)).
  { rewrite <- app_assoc. cbn. rewrite <- Ha. exact Hn. }
  destruct (nodup_split_unique _ _ _ _ _ Hn' H) as [<- _].
  exists a1, a2, r2. rewrite <- app_assoc. reflexivity.
Qed.

Lemma before_not_sym (l : list string) (x y : string) :
  NoDup l -> before l x y -> ~ before l y x.
Proof.
  intros Hn Hxy Hyx.
  destruct (before_trans l x y x Hn Hxy Hyx) as (a1 & a2 & a3 & ->).
  apply NoDup_remove_2 in Hn. apply Hn.
  apply in_or_app. right. apply in_or_app. right. left. reflexivity.
Qed.

Lemma completed_app (a b : list action) :
  completed (a ++ b) = completed a ++ completed b.
Proof. apply flat_map_app. Qed.

Lemma removals_app (a b : list action) :
  removals (a ++ b) = removals a ++ removals b.
Proof. apply flat_map_app. Qed.

Lemma subdirectories_met_app (a b : list action) :
  subdirectories_met (a ++ b) = subdirectories_met a ++ subdirectories_met b.
Proof. apply flat_map_app. Qed.

Lemma subdirectories_met_clear (n : Z) (p : pool) (c : Z) :
  subdirectories_met (clear_every n p c) = [].
Proof. unfold clear_every. destruct (Z.rem c n =? 0); reflexivity. Qed.

Lemma completed_clear (n : Z) (p : pool) (c : Z) :
  completed (clear_every n p c) = [].
Proof. unfold clear_every. destruct (Z.rem c n =? 0); reflexivity. Qed.

Lemma removals_clear (n : Z) (p : pool) (c : Z) :
  removals (clear_every n p c) = [].
Proof. unfold clear_every. destruct (Z.rem c n =? 0); reflexivity. Qed.

Lemma failed_reads_clear (n : Z) (p : pool) (c : Z) :
  filter is_failed_read (clear_every n p c) = [].
Proof. unfold clear_every. destruct (Z.rem c n =? 0); reflexivity. Qed.

Lemma emptying_after_clear (D : string) (c : Z) (body : list action) :
  emptying D body -> emptying D (clear_every 1000 inner_pool c ++ body).
Proof.
  unfold clear_every. destruct (Z.rem c 1000 =? 0); cbn;
    [apply emptying_clear | trivial].
Qed.

Lemma entry_ok_of_test (status : apr_status_t) :
  negb (status =? APR_SUCCESS) && negb (status =? APR_INCOMPLETE) = false ->
  entry_ok status.
Proof.
  unfold entry_ok. intros H. apply andb_false_iff in H.
  destruct H as [H|H]; apply negb_false_iff, Z.eqb_eq in H; auto.
Qed.

Lemma apr_filetype_eqb_eq (a b : apr_filetype_e) :
  apr_filetype_eqb a b = true <-> a = b.
Proof. destruct a, b; cbn; split; congruence. Qed.

(** ** apr.dir_remove_recursive: the loop over one directory *)

Ltac trace_known :=
  repeat match goal with
    | H : completed ?b = [] |- context [completed ?b] => rewrite H
    | H : removals ?b = [] |- context [removals ?b] => rewrite H
    | H : subdirectories_met ?b = [] |- context [subdirectories_met ?b] =>
        rewrite H
    | H : filter is_failed_read ?b = []
      |- context [filter is_failed_read ?b] => rewrite H
    end.

(** Write [a :: l] as [[a] ++ l] in traces, so that the lemmas on [++]
    apply. *)
Ltac trace_uncons :=
  repeat match goal with
    | |- context [@cons action ?a ?l] =>
        lazymatch l with
        | [] => fail
        | _ => change (@cons action a l) with ([a] ++ l)
        end
    end.

Ltac trace_simpl :=
  cbn [fst snd emit];
  trace_uncons;
  rewrite ?completed_app, ?removals_app, ?subdirectories_met_app,
    ?filter_app, ?completed_clear, ?removals_clear,
    ?subdirectories_met_clear, ?failed_reads_clear;
  trace_known;
  cbn [completed removals subdirectories_met flat_map filter app
       is_failed_read];
  rewrite ?app_nil_r;
  trace_known.

(** Turn the tests recorded on a path through a loop into equations. *)
Ltac tests :=
  repeat match goal with
    | H : negb (?s =? APR_SUCCESS) = false |- _ =>
        apply negb_false_iff, Z.eqb_eq in H; subst s
    | H : (?s =? APR_SUCCESS) = true |- _ => apply Z.eqb_eq in H; subst s
    | H : negb (?s =? APR_SUCCESS) && negb (?s =? APR_INCOMPLETE) = false |- _ =>
        apply entry_ok_of_test in H
    | H : apr_filetype_eqb _ _ = true |- _ => apply apr_filetype_eqb_eq in H
    | H : apr_filetype_eqb ?a ?b = false |- _ =>
        assert (a <> b)
          by (let E := fresh in
              intros E; apply apr_filetype_eqb_eq in E; congruence);
        clear H
    end.

Ltac failed_read_is_false :=
  match goal with
  | H : negb (?s =? APR_SUCCESS) && negb (?s =? APR_INCOMPLETE) = false |- _ =>
      rewrite <- ?andb_assoc, ?H, ?andb_false_r
  end.

Section ReadEntriesTheory.

Context {DR : DirRuntime}.

(** The loop pushes nothing on [done] and removes no directory. *)
Lemma read_entries_quiet (w : world) (D : string) (directory : apr_dir_t)
    (todo : list string) (c : Z) :
  completed (fst (read_entries w D directory todo c)) = []
  /\ removals (fst (read_entries w D directory todo c)) = [].
Proof.
  functional induction (read_entries w D directory todo c);
    trace_simpl; try (split; reflexivity); assumption.
Qed.

(** Leaving the loop by [break]: the calls are a complete pass over the
    directory, and [todo] has grown by the subdirectories met, all of them
    met in [D]. *)
Lemma read_entries_done (w : world) (D : string) (directory : apr_dir_t)
    (todo : list string) (c : Z) :
  forall w' d' todo' c',
    snd (read_entries w D directory todo c) = Entries_done w' d' todo' c' ->
    let body := fst (read_entries w D directory todo c) in
    emptying D body
    /\ todo' = rev (map snd (subdirectories_met body)) ++ todo
    /\ Forall (fun dp => fst dp = D) (subdirectories_met body).
Proof.
  functional induction (read_entries w D directory todo c);
    intros w' d' todo' c' H; cbn [snd emit] in H; try discriminate;
    cbv zeta; trace_simpl.
  - injection H as <- <- <- <-. repeat split.
    + apply emptying_after_clear, emptying_end. reflexivity.
    + constructor.
  - injection H as <- <- <- <-. repeat split.
    + apply emptying_after_clear, emptying_end. assumption.
    + constructor.
  - destruct (IHp _ _ _ _ H) as (He & Ht & Hf). tests. repeat split; trivial.
    rewrite <- app_assoc. apply emptying_after_clear. cbn.
    apply emptying_marker; auto.
  - tests. destruct (IHp _ _ _ _ H) as (He & Ht & Hf).
    cbn [Z.eqb APR_SUCCESS app map rev]. repeat split.
    + rewrite <- !app_assoc. apply emptying_after_clear. cbn.
      apply emptying_subdirectory; auto.
    + rewrite Ht, <- app_assoc. reflexivity.
    + constructor; [reflexivity | exact Hf].
  - tests. destruct (IHp _ _ _ _ H) as (He & Ht & Hf). repeat split; trivial.
    rewrite <- !app_assoc. apply emptying_after_clear. cbn.
    apply emptying_other; auto.
Qed.

(** A read that failed is the last call of the loop, and the loop was left
    by [goto cleanup] with its status. *)
Lemma read_entries_reads (w : world) (D : string) (directory : apr_dir_t)
    (todo : list string) (c : Z) :
  let body := fst (read_entries w D directory todo c) in
  filter is_failed_read body = []
  \/ exists b0 status info w' d',
      body = b0 ++ [Call_dir_read status info]
      /\ filter is_failed_read b0 = []
      /\ read_failed status
      /\ snd (read_entries w D directory todo c) = Entries_abort status w' d'.
Proof.
  functional induction (read_entries w D directory todo c);
    cbv zeta; trace_simpl.
  - left. reflexivity.
  - left. match goal with H : APR_STATUS_IS_ENOENT _ = true |- _ => rewrite H end.
    reflexivity.
  - right. exists (clear_every 1000 inner_pool allocation_counter),
             status, info, w, rest.
    match goal with H : _ && _ = true |- _ =>
      apply andb_prop in H; destruct H as [H1 H2] end.
    apply negb_true_iff, Z.eqb_neq in H1.
    apply negb_true_iff, Z.eqb_neq in H2.
    repeat split; auto using failed_reads_clear.
  - failed_read_is_false. cbn [app].
    destruct IHp as [IH|(b0 & st & i & w' & d' & Hb & Hf & Hr & Ho)].
    + left. exact IH.
    + right. exists ((clear_every 1000 inner_pool allocation_counter
                      ++ [Call_dir_read status info]) ++ b0), st, i, w', d'.
      rewrite Hb, <- !app_assoc.
      split; [reflexivity | split; [| split; assumption]].
      trace_simpl. failed_read_is_false. reflexivity.
  - left. failed_read_is_false. reflexivity.
  - failed_read_is_false. cbn [app].
    destruct IHp as [IH|(b0 & st & i & w' & d' & Hb & Hf & Hr & Ho)].
    + left. exact IH.
    + right. exists ((clear_every 1000 inner_pool allocation_counter
                      ++ [Call_dir_read status info])
                     ++ [Call_filepath_merge filepath (name info) outer_pool
                           mstatus tmp]
                     ++ [Call_array_push stack_todo tmp true] ++ b0),
             st, i, w', d'.
      rewrite Hb, <- !app_assoc.
      split; [reflexivity | split; [| split; assumption]].
      trace_simpl. failed_read_is_false. reflexivity.
  - left. failed_read_is_false. reflexivity.
  - failed_read_is_false. cbn [app].
    destruct IHp as [IH|(b0 & st & i & w' & d' & Hb & Hf & Hr & Ho)].
    + left. exact IH.
    + right. exists ((clear_every 1000 inner_pool allocation_counter
                      ++ [Call_dir_read status info])
                     ++ [Call_filepath_merge filepath (name info) inner_pool
                           mstatus tmp]
                     ++ [Call_file_remove tmp rstatus] ++ b0),
             st, i, w', d'.
      rewrite Hb, <- !app_assoc.
      split; [reflexivity | split; [| split; assumption]].
      trace_simpl. failed_read_is_false. reflexivity.
  - left. failed_read_is_false. reflexivity.
  - left. failed_read_is_false. reflexivity.
Qed.

End ReadEntriesTheory.

(** ** apr.dir_remove_recursive: the first loop *)

(** Bring in what is known of the pass over the directory at hand. *)
Ltac use_read_entries :=
  match goal with
  | H : read_entries ?w ?D ?d ?t ?c = (?body, ?r) |- _ =>
      let Hq := fresh "Hquiet" in
      let Hr := fresh "Hreads" in
      pose proof (read_entries_quiet w D d t c) as Hq;
      pose proof (read_entries_reads w D d t c) as Hr;
      cbv zeta in Hr; rewrite H in Hq, Hr; cbn [fst snd] in Hq, Hr;
      destruct Hq as [? ?]
  end.

Ltac use_read_done :=
  match goal with
  | H : read_entries ?w ?D ?d ?t ?c = (?body, Entries_done ?w2 ?d2 ?t2 ?c2) |- _ =>
      let Hd := fresh "Hd" in
      pose proof (read_entries_done w D d t c w2 d2 t2 c2) as Hd;
      rewrite H in Hd; cbn [fst snd] in Hd; specialize (Hd eq_refl);
      cbv zeta in Hd;
      destruct Hd as (Hempty & Htodo & Hmet)
  end.

Section WalkTheory.

Context {DR : DirRuntime}.

Lemma walk_removes_nothing (fuel : nat) (w : world) (todo done : list string)
    (c : Z) :
  removals (fst (walk fuel w todo done c)) = [].
Proof.
  functional induction (walk fuel w todo done c);
    try use_read_entries; trace_simpl; trivial.
Qed.

(** A read that failed is the last call of the loop, which was left by
    [goto cleanup] with that status. *)
Lemma walk_reads (fuel : nat) (w : world) (todo done : list string) (c : Z) :
  let t := fst (walk fuel w todo done c) in
  filter is_failed_read t = []
  \/ exists t0 status info w' d',
      t = t0 ++ [Call_dir_read status info]
      /\ filter is_failed_read t0 = []
      /\ read_failed status
      /\ snd (walk fuel w todo done c) = Walk_abort status w' d'.
Proof.
  functional induction (walk fuel w todo done c);
    cbv zeta; try use_read_entries; trace_simpl.
  - left. reflexivity.
  - left. reflexivity.
  - left. reflexivity.
  - left. destruct Hreads as [->|(b0 & st & i & w' & d' & _ & _ & _ & Ho)];
      [reflexivity | discriminate].
  - destruct Hreads as [Hb|(b0 & st & i & w' & d' & _ & _ & _ & Ho)];
      [|discriminate].
    rewrite Hb. cbn [app].
    destruct IHp as [IH|(t0 & st & i & w' & d' & Ht & Hf & Hr & Ho)].
    + left. exact IH.
    + right. exists (([Call_pool_clear middle_pool;
                       Call_dir_open filepath ostatus]
                      ++ body ++ [Call_dir_close cstatus]
                      ++ [Call_array_push stack_done filepath true]) ++ t0),
             st, i, w', d'.
      rewrite Ht, <- !app_assoc.
      split; [reflexivity | split; [| split; assumption]].
      trace_simpl. reflexivity.
  - left. destruct Hreads as [->|(b0 & st & i & w' & d' & _ & _ & _ & Ho)];
      [reflexivity | discriminate].
  - destruct Hreads as [Hb|(b0 & st & i & w' & d' & Hb & Hf & Hr & Ho)].
    + left. rewrite Hb. reflexivity.
    + right. injection Ho as <- <- <-.
      exists (Call_pool_clear middle_pool :: Call_dir_open filepath ostatus
              :: b0), status, i.
      eexists _, _. rewrite Hb.
      split; [reflexivity | split; [| split; [assumption | reflexivity]]].
      trace_simpl. reflexivity.
Qed.

(** The calls of the loop are the passes over the directories it
    finished, each followed by its push on [done], and then calls that
    push nothing on [done]. *)
Lemma walk_passes (fuel : nat) (w : world) (todo done : list string) (c : Z) :
  exists ds tail,
    fst (walk fuel w todo done c) = passes ds ++ tail
    /\ completed tail = []
    /\ Forall (fun db => emptying (fst db) (snd db)) ds.
Proof.
  functional induction (walk fuel w todo done c);
    try use_read_entries; cbn [fst snd emit].
  - exists [], []. repeat split; constructor.
  - exists [], []. repeat split; constructor.
  - eexists [], _. split; [reflexivity|].
    split; [reflexivity | constructor].
  - eexists [], _. split; [reflexivity|].
    split; [| constructor]. trace_simpl. reflexivity.
  - use_read_done. tests.
    destruct IHp as (ds & tail & Ht & Hc & Hf).
    exists ((filepath, body) :: ds), tail. rewrite Ht.
    split; [| split; [exact Hc | constructor; assumption]].
    cbn [passes flat_map fst snd]. unfold pass.
    rewrite <- !app_assoc. reflexivity.
  - eexists [], _. split; [reflexivity|].
    split; [| constructor]. trace_simpl. reflexivity.
  - eexists [], _. split; [reflexivity|].
    split; [| constructor]. trace_simpl. reflexivity.
Qed.

(** When the loop ends with [todo] empty: [done] has grown by the
    directories pushed, every directory that was on [todo] has been
    pushed, and every subdirectory met was pushed after the directory it
    was met in. *)
Lemma walk_order (fuel : nat) (w : world) (todo done : list string) (c : Z) :
  forall w' done' c',
    snd (walk fuel w todo done c) = Walk_done w' done' c' ->
    let t := fst (walk fuel w todo done c) in
    done' = rev (completed t) ++ done
    /\ (forall x, In x todo -> In x (completed t))
    /\ (forall D P,
          In (D, P) (subdirectories_met t) ->
          exists l1 l2, completed t = l1 ++ D :: l2 /\ In P l2).
Proof.
  functional induction (walk fuel w todo done c);
    intros w' done' c' H; cbn [snd emit] in H; try discriminate;
    cbv zeta; try use_read_entries; trace_simpl.
  - injection H as <- <- <-. repeat split; intros; contradiction.
  - use_read_done.
    destruct (IHp _ _ _ H) as (Hdone & Htd & Hsub).
    cbn [app rev]. split; [|split].
    + rewrite Hdone, <- app_assoc. reflexivity.
    + intros x [<-|Hx]; [left; reflexivity|].
      right. apply Htd. rewrite Htodo. apply in_or_app. right. exact Hx.
    + intros D P Hin. apply in_app_or in Hin. destruct Hin as [Hin|Hin].
      * exists [], (completed
                      (fst (walk fuel' w4 todo2 (filepath :: done) counter2))).
        rewrite Forall_forall in Hmet.
        pose proof (Hmet _ Hin) as HD. cbn [fst] in HD. subst D.
        split; [reflexivity|].
        apply Htd. rewrite Htodo. apply in_or_app. left.
        rewrite <- in_rev. apply (in_map snd) in Hin. exact Hin.
      * destruct (Hsub _ _ Hin) as (l1 & l2 & Hl & HP).
        exists (filepath :: l1), l2. rewrite Hl. split; [reflexivity|exact HP].
Qed.

End WalkTheory.

(** ** apr.dir_remove_recursive: the second loop *)

Lemma count_app (f : action -> bool) (a b : list action) :
  count f (a ++ b) = count f a + count f b.
Proof.
  unfold count. rewrite filter_app, length_app, Nat2Z.inj_add. reflexivity.
Qed.

Lemma count_clear_every (c : Z) :
  count is_middle_clear (clear_every 100 middle_pool c)
  = (if Z.rem c 100 =? 0 then 1 else 0)
  /\ count is_dir_remove (clear_every 100 middle_pool c) = 0.
Proof. unfold clear_every. destruct (Z.rem c 100 =? 0); split; reflexivity. Qed.

Lemma ends_with_removal_cons (a : action) (l : list action) :
  ends_with_removal (a :: l) ->
  (l = [] /\ is_dir_remove a = true) \/ ends_with_removal l.
Proof.
  intros (l' & p & s & H). destruct l' as [|b l']; cbn in H.
  - injection H as -> ->. left. split; reflexivity.
  - injection H as -> ->. right. exists l', p, s. reflexivity.
Qed.

Lemma ends_with_removal_app (a b : list action) :
  ends_with_removal b -> ends_with_removal (a ++ b).
Proof.
  intros (l' & p & s & ->). exists (a ++ l'), p, s. apply app_assoc.
Qed.

(** Multiples of 100 from [c] to [c + 1]. *)
Lemma multiples_step (c : Z) :
  (c + 1 + 99) / 100 - (c + 99) / 100 = if Z.rem c 100 =? 0 then 1 else 0.
Proof.
  destruct (Z.rem c 100 =? 0) eqn:E.
  - apply Z.eqb_eq in E. apply Z.rem_divide in E; [|lia].
    destruct E as [k ->].
    replace (k * 100 + 1 + 99) with (1 * 100 + k * 100) by lia.
    replace (k * 100 + 99) with (99 + k * 100) by lia.
    rewrite !Z.div_add by lia.
    change (1 * 100 / 100) with 1. change (99 / 100) with 0. lia.
  - apply Z.eqb_neq in E.
    assert (Hm : c mod 100 <> 0).
    { intros Hm. apply E. apply Z.rem_divide; [lia|].
      apply Z.mod_divide; [lia | exact Hm]. }
    pose proof (Z.div_mod c 100 ltac:(lia)) as Hc.
    pose proof (Z.mod_pos_bound c 100 ltac:(lia)) as Hb.
    assert (H1 : (c + 1 + 99) / 100 = c / 100 + 1).
    { symmetry. apply Z.div_unique with (r := c mod 100); lia. }
    assert (H2 : (c + 99) / 100 = c / 100 + 1).
    { symmetry. apply Z.div_unique with (r := c mod 100 - 1); lia. }
    lia.
Qed.

Section RemoveDirsTheory.

Context {DR : DirRuntime}.

(** The loop removes a prefix of [done], top first, and makes no other
    call than removals and clears of the middle pool. *)
Lemma remove_dirs_trace (w : world) (done : list string) (c : Z) :
  let t := fst (remove_dirs w done c) in
  (exists rest, done = removals t ++ rest)
  /\ completed t = [] /\ subdirectories_met t = []
  /\ filter is_failed_read t = [].
Proof.
  functional induction (remove_dirs w done c); cbv zeta; trace_simpl.
  - split; [exists []; reflexivity | auto].
  - split; [exists done'; reflexivity | auto].
  - cbv zeta in IHp. destruct IHp as ([rest Hr] & Hc & Hm & Hf).
    trace_simpl. split; [|auto].
    exists rest. rewrite Hr at 1. reflexivity.
Qed.

Lemma remove_dirs_clears (done : list string) :
  forall (w : world) (c : Z) (p q : list action),
    int_range c -> c + Z.of_nat (List.length done) < 2 ^ 31 ->
    fst (remove_dirs w done c) = p ++ q ->
    p = [] \/ ends_with_removal p ->
    count is_middle_clear p
    = (c + count is_dir_remove p + 99) / 100 - (c + 99) / 100.
Proof.
  induction done as [|d done IH]; intros w c p q Hc Hn Ht Hp.
  - cbn in Ht. symmetry in Ht. apply app_eq_nil in Ht. destruct Ht as [-> _].
    cbn. rewrite Z.add_0_r. lia.
  - destruct Hp as [->|Hp]; [cbn; rewrite Z.add_0_r; lia|].
    cbn [remove_dirs] in Ht.
    rewrite int_of_id in Ht by (unfold int_range in *; cbn [List.length] in Hn; lia).
    destruct (apr_dir_remove w d) as [st w1].
    assert (Hrest : exists rest,
               p ++ q = clear_every 100 middle_pool c
                          ++ Call_dir_remove d st :: rest
               /\ (rest = [] \/ exists w', rest = fst (remove_dirs w' done (c + 1)))).
    { destruct (negb (st =? APR_SUCCESS)); cbn [fst emit] in Ht.
      - exists []. rewrite <- Ht. split; [reflexivity | left; reflexivity].
      - eexists. rewrite <- Ht, <- app_assoc. split; [reflexivity|].
        right. exists w1. reflexivity. }
    clear Ht. destruct Hrest as (rest & Ht & Hrest).
    assert (Hsplit : exists p',
               p = clear_every 100 middle_pool c ++ Call_dir_remove d st :: p'
               /\ rest = p' ++ q /\ (p' = [] \/ ends_with_removal p')).
    { unfold clear_every in *. destruct (Z.rem c 100 =? 0); cbn [app] in *.
      - destruct p as [|a p]; [destruct Hp as ([|] & ? & ? & ?); discriminate|].
        injection Ht as -> Ht.
        apply ends_with_removal_cons in Hp.
        destruct Hp as [[_ Hp]|Hp]; [discriminate|].
        destruct p as [|a p]; [destruct Hp as ([|] & ? & ? & ?); discriminate|].
        injection Ht as -> Ht. exists p. split; [reflexivity|].
        split; [symmetry; exact Ht|].
        apply ends_with_removal_cons in Hp. tauto.
      - destruct p as [|a p]; [destruct Hp as ([|] & ? & ? & ?); discriminate|].
        injection Ht as -> Ht. exists p. split; [reflexivity|].
        split; [symmetry; exact Ht|].
        apply ends_with_removal_cons in Hp. tauto. }
    destruct Hsplit as (p' & -> & Hq & Hp').
    assert (IH' : count is_middle_clear p'
                  = (c + 1 + count is_dir_remove p' + 99) / 100
                    - (c + 1 + 99) / 100).
    { destruct Hrest as [->|[w' ->]].
      - symmetry in Hq. apply app_eq_nil in Hq. destruct Hq as [-> _].
        cbn. rewrite Z.add_0_r. lia.
      - apply (IH w' (c + 1) p' q); trivial.
        + unfold int_range in *. cbn [List.length] in Hn. lia.
        + cbn [List.length] in Hn. lia. }
    change (Call_dir_remove d st :: p') with ([Call_dir_remove d st] ++ p').
    rewrite !count_app.
    destruct (count_clear_every c) as [-> ->].
    change (count is_middle_clear [Call_dir_remove d st]) with 0.
    change (count is_dir_remove [Call_dir_remove d st]) with 1.
    rewrite IH'. pose proof (multiples_step c) as Hs.
    replace (c + (0 + (1 + count is_dir_remove p')) + 99)
      with (c + 1 + count is_dir_remove p' + 99) by lia.
    lia.
Qed.

(** C7.  In the second loop, as long as the counter does not leave the
    range of [int]: after any number of removals, the middle pool has been
    cleared once for every multiple of 100 the counter has passed; hence
    any stretch of the loop that spans 100 removals holds exactly one
    clear of the middle pool. *)
Theorem middle_pool_cleared_once_per_100_removals
    (w : world) (done : list string) (c : Z) :
  int_range c -> c + Z.of_nat (List.length done) < 2 ^ 31 ->
  let t := fst (remove_dirs w done c) in
  (forall p q,
      t = p ++ q -> p = [] \/ ends_with_removal p ->
      count is_middle_clear p
      = (c + count is_dir_remove p + 99) / 100 - (c + 99) / 100)
  /\ (forall pre win post,
        t = pre ++ win ++ post ->
        pre = [] \/ ends_with_removal pre ->
        ends_with_removal win ->
        count is_dir_remove win = 100 ->
        count is_middle_clear win = 1).
Proof.
  intros Hc Hn t. split.
  - intros p q Ht Hp. apply (remove_dirs_clears done w c p q); trivial.
  - intros pre win post Ht Hpre Hwin H100.
    pose proof (remove_dirs_clears done w c pre (win ++ post) Hc Hn Ht Hpre)
      as H1.
    rewrite app_assoc in Ht.
    pose proof (remove_dirs_clears done w c (pre ++ win) post Hc Hn Ht
                  (or_intror (ends_with_removal_app _ _ Hwin))) as H2.
    rewrite !count_app, H100 in H2.
    replace (c + (count is_dir_remove pre + 100) + 99)
      with (1 * 100 + (c + count is_dir_remove pre + 99)) in H2 by lia.
    rewrite Z.div_add_l in H2 by lia. lia.
Qed.

End RemoveDirsTheory.

(** ** apr.dir_remove_recursive: the whole function *)

Lemma quiet_app (a b : list action) : quiet a -> quiet b -> quiet (a ++ b).
Proof.
  unfold quiet. intros (A1 & A2 & A3 & A4) (B1 & B2 & B3 & B4).
  rewrite completed_app, removals_app, subdirectories_met_app, filter_app,
    A1, A2, A3, A4, B1, B2, B3, B4.
  repeat split; reflexivity.
Qed.

Lemma quiet_destroys (pools : list pool) :
  quiet (map Call_pool_destroy pools)
  /\ forallb is_cleanup_call (map Call_pool_destroy pools) = true.
Proof.
  induction pools as [|p pools [IH1 IH2]].
  - repeat split; reflexivity.
  - split; [|exact IH2].
    apply (quiet_app [Call_pool_destroy p]); [repeat split; reflexivity | exact IH1].
Qed.

Lemma before_nil (x y : string) : ~ before [] x y.
Proof. intros ([|] & ? & ? & H); discriminate. Qed.

Lemma emptying_completed (D : string) (body : list action) :
  emptying D body -> completed body = [].
Proof. induction 1; cbn; trivial. Qed.

(** The one element on which [f] holds is found at one place only. *)
Lemma unique_hit {A : Type} (f : A -> bool) (X Y pre post : list A) (a b : A) :
  X ++ a :: Y = pre ++ b :: post ->
  filter f X = [] -> filter f Y = [] -> f b = true ->
  pre = X /\ a = b /\ post = Y.
Proof.
  revert pre. induction X as [|x X IH]; intros pre H HX HY Hb.
  - destruct pre as [|c pre]; cbn in H.
    + injection H as -> ->. repeat split; reflexivity.
    + injection H as -> H. subst Y. rewrite filter_app in HY. cbn in HY.
      rewrite Hb in HY. apply app_eq_nil in HY. destruct HY; discriminate.
  - cbn in HX. destruct (f x) eqn:Hx; [discriminate|].
    destruct pre as [|c pre]; cbn in H.
    + injection H as -> _. congruence.
    + injection H as -> H. destruct (IH _ H HX HY Hb) as (-> & -> & ->).
      repeat split; reflexivity.
Qed.

Section WholeFunctionTheory.

Context {DR : DirRuntime}.

Lemma create_pools_quiet (w : world) : quiet (fst (create_pools w)).
Proof.
  unfold create_pools.
  destruct (apr_pool_create w) as [s1 w1].
  destruct (s1 =? APR_SUCCESS); [|repeat split; reflexivity].
  destruct (apr_pool_create w1) as [s2 w2].
  destruct (s2 =? APR_SUCCESS); [|repeat split; reflexivity].
  destruct (apr_pool_create w2) as [s3 w3]. repeat split; reflexivity.
Qed.

Lemma cleanup_trace (w : world) (directory : option apr_dir_t)
    (pools : list pool) :
  quiet (fst (cleanup w directory pools))
  /\ forallb is_cleanup_call (fst (cleanup w directory pools)) = true.
Proof.
  unfold cleanup. destruct (quiet_destroys pools) as [Hq Hc].
  destruct directory as [d|].
  - destruct (apr_dir_close w d) as [s w']. cbn [fst]. split.
    + apply quiet_app; [repeat split; reflexivity | exact Hq].
    + cbn. exact Hc.
  - cbn [fst app]. split; assumption.
Qed.

(** The calls of the function: a quiet header, the first loop, the second
    loop, and the cleanup. *)
Lemma remove_recursive_shape (fuel : nat) (w : world) (root : string)
    (tr : list action) (status : option apr_status_t) (w' : world) :
  remove_recursive_status fuel w root = (tr, status, w') ->
  exists hdr t3 t4 ftr,
    tr = hdr ++ t3 ++ t4 ++ ftr
    /\ quiet hdr /\ quiet ftr /\ forallb is_cleanup_call ftr = true
    /\ ((t3 = [] /\ t4 = [])
        \/ exists w3,
            t3 = fst (walk fuel w3 [root] [] 0)
            /\ match snd (walk fuel w3 [root] [] 0) with
               | Walk_done w4 done c =>
                   t4 = fst (remove_dirs w4 done c)
                   /\ status = Some (fst (snd (remove_dirs w4 done c)))
               | Walk_abort st _ _ => t4 = [] /\ status = Some st
               | Walk_out_of_fuel _ _ _ _ => t4 = [] /\ status = None
               end).
Proof.
  unfold remove_recursive_status. intros H.
  pose proof (create_pools_quiet w) as Hq0.
  destruct (create_pools w) as [t0 [[st pools] w0]]. cbn [fst] in Hq0.
  destruct (negb (st =? APR_SUCCESS)).
  { pose proof (cleanup_trace w0 None pools) as [Hq9 Hc9].
    destruct (cleanup w0 None pools) as [t9 w9]. cbn [fst] in *.
    injection H as <- <- <-. exists t0, [], [], t9. cbn [app].
    repeat split; try apply Hq0; try apply Hq9; trivial. left. auto. }
  destruct (apr_array_alloc w0) as [ok1 w1].
  destruct (apr_array_alloc w1) as [ok2 w2].
  assert (Hq1 : quiet (t0 ++ [Call_array_make stack_todo ok1;
                              Call_array_make stack_done ok2]))
    by (apply quiet_app; [exact Hq0 | repeat split; reflexivity]).
  destruct (negb ok1 || negb ok2).
  { pose proof (cleanup_trace w2 None pools) as [Hq9 Hc9].
    destruct (cleanup w2 None pools) as [t9 w9]. cbn [fst] in *.
    injection H as <- <- <-.
    exists (t0 ++ [Call_array_make stack_todo ok1;
                   Call_array_make stack_done ok2]), [], [], t9.
    split; [rewrite <- !app_assoc; reflexivity|].
    repeat split; try apply Hq1; try apply Hq9; trivial.
    left. auto. }
  destruct (apr_array_alloc w2) as [ok3 w3].
  assert (Hq2 : quiet ((t0 ++ [Call_array_make stack_todo ok1;
                               Call_array_make stack_done ok2])
                       ++ [Call_array_push stack_todo root ok3]))
    by (apply quiet_app; [exact Hq1 | repeat split; reflexivity]).
  destruct (negb ok3).
  { pose proof (cleanup_trace w3 None pools) as [Hq9 Hc9].
    destruct (cleanup w3 None pools) as [t9 w9]. cbn [fst] in *.
    injection H as <- <- <-.
    exists ((t0 ++ [Call_array_make stack_todo ok1;
                    Call_array_make stack_done ok2])
            ++ [Call_array_push stack_todo root ok3]), [], [], t9.
    split; [rewrite <- !app_assoc; reflexivity|].
    repeat split; try apply Hq2; try apply Hq9; trivial.
    left. auto. }
  destruct (walk fuel w3 [root] [] 0) as [t3 out] eqn:Ew.
  destruct out as [w4 done c | st' w4 directory | w4 td dn c].
  - destruct (remove_dirs w4 done c) as [t4 [st' w5]] eqn:Er.
    pose proof (cleanup_trace w5 None pools) as [Hq9 Hc9].
    destruct (cleanup w5 None pools) as [t9 w9]. cbn [fst] in *.
    injection H as <- <- <-.
    exists ((t0 ++ [Call_array_make stack_todo ok1;
                    Call_array_make stack_done ok2])
            ++ [Call_array_push stack_todo root ok3]), t3, t4, t9.
    split; [|split; [exact Hq2|]].
    { rewrite <- !app_assoc. reflexivity. }
    split; [exact Hq9|]. split; [exact Hc9|].
    right. exists w3. rewrite Ew. cbn [fst snd]. rewrite Er. auto.
  - pose proof (cleanup_trace w4 directory pools) as [Hq9 Hc9].
    destruct (cleanup w4 directory pools) as [t9 w9]. cbn [fst] in *.
    injection H as <- <- <-.
    exists ((t0 ++ [Call_array_make stack_todo ok1;
                    Call_array_make stack_done ok2])
            ++ [Call_array_push stack_todo root ok3]), t3, [], t9.
    split; [|split; [exact Hq2|]].
    { rewrite <- !app_assoc. reflexivity. }
    split; [exact Hq9|]. split; [exact Hc9|].
    right. exists w3. rewrite Ew. cbn [fst snd]. auto.
  - injection H as <- <- <-.
    exists ((t0 ++ [Call_array_make stack_todo ok1;
                    Call_array_make stack_done ok2])
            ++ [Call_array_push stack_todo root ok3]), t3, [], [].
    split; [|split; [exact Hq2|]].
    { rewrite <- !app_assoc, app_nil_r. reflexivity. }
    split; [repeat split; reflexivity|]. split; [reflexivity|].
    right. exists w3. rewrite Ew. cbn [fst snd]. auto.
Qed.

Lemma lua_remove_recursive_status (fuel : nat) (w : world) (root : string)
    (tr : list action) (result : option (lua_return bool)) (w' : world) :
  lua_apr_dir_remove_recursive fuel w root = (tr, result, w') ->
  exists status,
    remove_recursive_status fuel w root = (tr, status, w')
    /\ result = option_map push_status status.
Proof.
  unfold lua_apr_dir_remove_recursive.
  destruct (remove_recursive_status fuel w root) as [[tr0 st0] w0].
  intros H. injection H as <- <- <-. exists st0. split; reflexivity.
Qed.

(** What the shape says of the lists read off the trace. *)
Lemma remove_recursive_lists (fuel : nat) (w : world) (root : string)
    (tr : list action) (status : option apr_status_t) (w' : world) :
  remove_recursive_status fuel w root = (tr, status, w') ->
  removals tr = []
  \/ ((exists earlier, completed tr = earlier ++ rev (removals tr))
      /\ forall D P,
          child_of tr P D ->
          exists l1 l2, completed tr = l1 ++ D :: l2 /\ In P l2).
Proof.
  intros H. apply remove_recursive_shape in H.
  destruct H as (hdr & t3 & t4 & ftr & -> & Hh & Hf & _ & H).
  destruct Hh as (Hh1 & Hh2 & Hh3 & _). destruct Hf as (Hf1 & Hf2 & Hf3 & _).
  destruct H as [[-> ->]|(w3 & -> & H)].
  { left. trace_simpl. reflexivity. }
  pose proof (walk_removes_nothing fuel w3 [root] [] 0) as Hw.
  destruct (snd (walk fuel w3 [root] [] 0)) as [w4 done c|st ? ?|? ? ? ?] eqn:E.
  - right. destruct H as [-> _].
    destruct (walk_order fuel w3 [root] [] 0 _ _ _ E) as (Hdone & _ & Hsub).
    destruct (remove_dirs_trace w4 done c) as ([rest Hr] & Hc & Hm & _).
    unfold child_of. trace_simpl. split.
    + exists (rev rest). rewrite app_nil_r in Hdone.
      rewrite <- (rev_involutive (completed _)), <- Hdone, Hr at 1.
      apply rev_app_distr.
    + exact Hsub.
  - left. destruct H as [-> _]. trace_simpl. reflexivity.
  - left. destruct H as [-> _]. trace_simpl. reflexivity.
Qed.

Lemma descendant_completed_later (tr : list action) (D P : string) :
  NoDup (completed tr) ->
  (forall D P,
      child_of tr P D ->
      exists l1 l2, completed tr = l1 ++ D :: l2 /\ In P l2) ->
  descendant_of tr P D -> before (completed tr) D P.
Proof.
  intros Hn Hc Hd. induction Hd as [P D H|P Q D H _ IH].
  - destruct (Hc _ _ H) as (l1 & l2 & Hl & HP).
    apply in_split in HP. destruct HP as (m1 & m2 & ->).
    exists l1, m1, m2. exact Hl.
  - apply (before_trans _ D Q P Hn IH).
    destruct (Hc _ _ H) as (l1 & l2 & Hl & HP).
    apply in_split in HP. destruct HP as (m1 & m2 & ->).
    exists l1, m1, m2. exact Hl.
Qed.

(** C3.  The removals are issued in the reverse of the order in which the
    directories were pushed on [done], and once a removal has been issued
    every subdirectory met is on [done], pushed after the directory it was
    met in.  Hence, when no directory was pushed twice: if the removal of a
    directory [D] has been issued, the removal of every directory met below
    [D] was issued before it, and no removal of [D] comes before that of a
    directory met below it. *)
Theorem directories_removed_after_their_descendants
    (fuel : nat) (w : world) (root : string)
    (tr : list action) (result : option (lua_return bool)) (w' : world) :
  lua_apr_dir_remove_recursive fuel w root = (tr, result, w') ->
  (exists earlier, completed tr = earlier ++ rev (removals tr))
  /\ (forall D P,
        child_of tr P D -> removals tr <> [] ->
        exists l1 l2, completed tr = l1 ++ D :: l2 /\ In P l2)
  /\ (NoDup (completed tr) ->
      forall D P,
        descendant_of tr P D ->
        (In D (removals tr) -> before (removals tr) P D)
        /\ ~ before (removals tr) D P).
Proof.
  intros H. apply lua_remove_recursive_status in H.
  destruct H as (status & H & _).
  destruct (remove_recursive_lists _ _ _ _ _ _ H)
    as [Hr|[[earlier He] Hc]].
  { rewrite Hr. split; [exists (completed tr); cbn; rewrite app_nil_r; reflexivity|].
    split; [intros D P _ Hne; contradiction|].
    intros _ D P _. split; [intros []|]. intros Hb. exact (before_nil _ _ Hb). }
  split; [exists earlier; exact He|].
  split; [intros D P HP _; apply Hc, HP|].
  intros Hn.
  assert (Hrev : rev (completed tr) = removals tr ++ rev earlier).
  { rewrite He, rev_app_distr, rev_involutive. reflexivity. }
  assert (Hn' : NoDup (removals tr ++ rev earlier)).
  { rewrite <- Hrev. apply NoDup_rev, Hn. }
  assert (Hb : forall D P,
             descendant_of tr P D ->
             before (removals tr ++ rev earlier) P D).
  { intros D P Hd. rewrite <- Hrev. apply before_rev.
    apply descendant_completed_later; assumption. }
  intros D P Hd. split.
  - intros HD. apply (before_prefix _ (rev earlier)); auto.
  - intros (l1 & l2 & l3 & Hl).
    apply (before_not_sym _ P D Hn' (Hb _ _ Hd)).
    exists l1, l2, (l3 ++ rev earlier). rewrite Hl, <- !app_assoc.
    cbn. rewrite <- app_assoc. reflexivity.
Qed.

Lemma pass_completed (D : string) (body : list action) :
  emptying D body -> completed (pass D body) = [].
Proof.
  intros H. unfold pass. trace_simpl.
  rewrite (emptying_completed _ _ H). reflexivity.
Qed.

(** A push on [done] found among passes is the push that ends one of
    them. *)
Lemma passes_split (ds : list (string * list action)) :
  forall tl pre post D,
    Forall (fun db => emptying (fst db) (snd db)) ds ->
    completed tl = [] ->
    passes ds ++ tl = pre ++ Call_array_push stack_done D true :: post ->
    exists earlier body, pre = earlier ++ pass D body /\ emptying D body.
Proof.
  induction ds as [|[D0 body0] ds IH]; intros tl pre post D Hf Htl H.
  - cbn in H. rewrite H in Htl. rewrite completed_app in Htl.
    apply app_eq_nil in Htl. destruct Htl as [_ Htl]. discriminate.
  - apply Forall_cons_iff in Hf. destruct Hf as [He Hf]. cbn [fst snd] in He.
    cbn [passes flat_map fst snd] in H. fold (passes ds) in H.
    rewrite <- !app_assoc in H. cbn [app] in H.
    apply split_at_app in H.
    destruct H as [(m & Hm & _)|(m & -> & Hm)].
    + pose proof (pass_completed _ _ He) as Hc. rewrite Hm in Hc.
      rewrite completed_app in Hc. apply app_eq_nil in Hc.
      destruct Hc as [_ Hc]. discriminate.
    + destruct m as [|a m]; cbn [app] in Hm.
      * injection Hm as <- _. exists [], body0. rewrite app_nil_r.
        split; [reflexivity | exact He].
      * injection Hm as <- Hm.
        destruct (IH _ _ _ _ Hf Htl Hm) as (earlier & body & -> & Hb).
        exists (pass D0 body0 ++ Call_array_push stack_done D0 true :: earlier),
          body.
        split; [|exact Hb]. rewrite <- !app_assoc. reflexivity.
Qed.

(** C4, as the code has it.  Before a directory [D] is pushed on [done],
    [D] was opened, passed over up to "no more entries" - each entry a
    marker skipped, a subdirectory pushed on [todo] or another entry
    removed - and closed.  The subdirectories met are emptied later: once
    a removal has been issued, each of them is on [done], pushed after the
    directory it was met in, and nothing is pushed on [done] after a
    removal. *)
Theorem directory_emptied_before_recorded
    (fuel : nat) (w : world) (root : string)
    (tr : list action) (result : option (lua_return bool)) (w' : world) :
  lua_apr_dir_remove_recursive fuel w root = (tr, result, w') ->
  (forall pre post D,
      tr = pre ++ Call_array_push stack_done D true :: post ->
      exists earlier body, pre = earlier ++ pass D body /\ emptying D body)
  /\ (forall D P,
        child_of tr P D -> removals tr <> [] ->
        exists l1 l2, completed tr = l1 ++ D :: l2 /\ In P l2)
  /\ (forall pre post D s,
        tr = pre ++ Call_dir_remove D s :: post -> completed post = []).
Proof.
  intros H. apply lua_remove_recursive_status in H.
  destruct H as (status & H & _).
  pose proof (remove_recursive_lists _ _ _ _ _ _ H) as Hl.
  apply remove_recursive_shape in H.
  destruct H as (hdr & t3 & t4 & ftr & -> & Hh & Hf & _ & H).
  destruct Hh as (Hh1 & Hh2 & _). destruct Hf as (Hf1 & Hf2 & _).
  assert (Ht3 : exists ds tail,
             t3 = passes ds ++ tail /\ completed tail = []
             /\ Forall (fun db => emptying (fst db) (snd db)) ds
             /\ removals t3 = []).
  { destruct H as [[-> _]|(w3 & -> & _)].
    - exists [], []. repeat split; constructor.
    - destruct (walk_passes fuel w3 [root] [] 0) as (ds & tail & ? & ? & ?).
      exists ds, tail. auto using walk_removes_nothing. }
  assert (Ht4 : completed t4 = []).
  { destruct H as [[_ ->]|(w3 & _ & H)]; [reflexivity|].
    destruct (snd (walk fuel w3 [root] [] 0)) as [w4 done c|? ? ?|? ? ? ?];
      destruct H as [-> _]; try reflexivity.
    apply remove_dirs_trace. }
  destruct Ht3 as (ds & tail & -> & Htail & Hds & Hr3).
  split; [|split].
  - intros pre post D Hs. apply split_at_app in Hs.
    destruct Hs as [(m & Hm & _)|(m & -> & Hm)].
    + rewrite Hm, completed_app in Hh1. apply app_eq_nil in Hh1.
      destruct Hh1 as [_ Hh1]. discriminate.
    + rewrite <- app_assoc in Hm.
      apply passes_split in Hm; trivial.
      * destruct Hm as (earlier & body & -> & Hb).
        exists (hdr ++ earlier), body. rewrite app_assoc. auto.
      * trace_simpl. reflexivity.
  - intros D P Hc Hne. destruct Hl as [Hl|[_ Hl]]; [contradiction|].
    apply Hl, Hc.
  - intros pre post D s Hs. rewrite app_assoc in Hs.
    apply split_at_app in Hs.
    destruct Hs as [(m & Hm & _)|(m & _ & Hm)].
    + exfalso. assert (Hx : removals (hdr ++ passes ds ++ tail) = [])
        by (rewrite removals_app, Hh2, Hr3; reflexivity).
      rewrite Hm, removals_app in Hx. apply app_eq_nil in Hx.
      destruct Hx as [_ Hx]. discriminate.
    + assert (Hx : completed (t4 ++ ftr) = [])
        by (rewrite completed_app, Ht4, Hf1; reflexivity).
      rewrite Hm, completed_app in Hx. apply app_eq_nil in Hx.
      destruct Hx as [_ Hx]. exact Hx.
Qed.

Lemma failed_read_test (status : apr_status_t) (info : apr_finfo_t) :
  read_failed status -> is_failed_read (Call_dir_read status info) = true.
Proof.
  intros (H1 & H2 & H3). cbn. rewrite H1.
  apply Z.eqb_neq in H2. apply Z.eqb_neq in H3. rewrite H2, H3. reflexivity.
Qed.

(** C6.  In the loop over a directory: a "no more entries" status ends the
    loop by [break], with [todo], the counter and the world as they are; an
    "incomplete" status is handled as success is, with the same calls and
    outcome; any other status leaves the loop by [goto cleanup] with that
    status.  And for the whole function: once [apr_dir_read] has returned
    such a status, only cleanup calls follow and that status is the error
    the function returns. *)
Theorem enumeration_statuses :
  (forall w D status info rest todo c,
      APR_STATUS_IS_ENOENT status = true ->
      read_entries w D ((status, info) :: rest) todo c
      = (clear_every 1000 inner_pool c ++ [Call_dir_read status info],
         Entries_done w rest todo c))
  /\ (forall w D info rest todo c,
        snd (read_entries w D ((APR_INCOMPLETE, info) :: rest) todo c)
        = snd (read_entries w D ((APR_SUCCESS, info) :: rest) todo c)
        /\ exists t,
            fst (read_entries w D ((APR_INCOMPLETE, info) :: rest) todo c)
            = clear_every 1000 inner_pool c
                ++ Call_dir_read APR_INCOMPLETE info :: t
            /\ fst (read_entries w D ((APR_SUCCESS, info) :: rest) todo c)
               = clear_every 1000 inner_pool c
                   ++ Call_dir_read APR_SUCCESS info :: t)
  /\ (forall w D status info rest todo c,
        read_failed status ->
        read_entries w D ((status, info) :: rest) todo c
        = (clear_every 1000 inner_pool c ++ [Call_dir_read status info],
           Entries_abort status w rest))
  /\ (forall fuel w root tr result w' pre status info post,
        lua_apr_dir_remove_recursive fuel w root = (tr, result, w') ->
        tr = pre ++ Call_dir_read status info :: post ->
        read_failed status ->
        result = Some (PushedError status)
        /\ forallb is_cleanup_call post = true).
Proof.
  split; [|split; [|split]].
  - intros w D status info rest todo c H. cbn [read_entries].
    rewrite H. reflexivity.
  - intros w D info rest todo c. cbn [read_entries].
    change (APR_STATUS_IS_ENOENT APR_INCOMPLETE) with false.
    change (APR_STATUS_IS_ENOENT APR_SUCCESS) with false.
    cbn [negb Z.eqb APR_INCOMPLETE APR_SUCCESS andb Pos.eqb].
    destruct (filename_symbolic (name info)).
    { cbn [emit fst snd]. split; [reflexivity|].
      eexists. rewrite <- !app_assoc. split; reflexivity. }
    destruct (apr_filetype_eqb (filetype info) APR_DIR).
    + destruct (apr_filepath_merge D (name info)) as [ms tmp].
      destruct (negb (ms =? APR_SUCCESS)).
      { cbn [fst snd]. split; [reflexivity|].
        eexists. rewrite <- !app_assoc. split; reflexivity. }
      destruct (apr_array_alloc w) as [[|] w1]; cbn [emit fst snd];
        (split; [reflexivity|]);
        eexists; rewrite <- !app_assoc; split; reflexivity.
    + destruct (apr_filepath_merge D (name info)) as [ms tmp].
      destruct (ms =? APR_SUCCESS).
      * destruct (apr_file_remove w tmp) as [rs w1].
        destruct (rs =? APR_SUCCESS); cbn [emit fst snd];
          (split; [reflexivity|]);
          eexists; rewrite <- !app_assoc; split; reflexivity.
      * cbn [fst snd]. split; [reflexivity|].
        eexists. rewrite <- !app_assoc. split; reflexivity.
  - intros w D status info rest todo c (H1 & H2 & H3). cbn [read_entries].
    rewrite H1. apply Z.eqb_neq in H2. apply Z.eqb_neq in H3.
    rewrite H2, H3. reflexivity.
  - intros fuel w root tr result w' pre status info post H Hs Hfail.
    unfold lua_apr_dir_remove_recursive in H.
    destruct (remove_recursive_status fuel w root) as [[tr0 st0] w0] eqn:E.
    injection H as <- <- <-.
    apply remove_recursive_shape in E.
    destruct E as (hdr & t3 & t4 & ftr & -> & Hh & Hf & Hcl & H).
    destruct Hh as (_ & _ & _ & Hh). destruct Hf as (_ & _ & _ & Hf).
    pose proof (failed_read_test status info Hfail) as Hhit.
    assert (Hin : In (Call_dir_read status info)
                    (filter is_failed_read (hdr ++ t3 ++ t4 ++ ftr))).
    { apply filter_In. split; [|exact Hhit].
      rewrite Hs. apply in_elt. }
    rewrite !filter_app, Hh, Hf in Hin. cbn [app] in Hin.
    rewrite app_nil_r in Hin.
    destruct H as [[-> ->]|(w3 & -> & H)]; [destruct Hin|].
    destruct (walk_reads fuel w3 [root] [] 0)
      as [Hw|(t0 & st & i & w4 & d & Ht & Ht0 & Hst & Ho)].
    + rewrite Hw in Hin. cbn [app] in Hin.
      destruct (snd (walk fuel w3 [root] [] 0)) as [w4 done c|? ? ?|? ? ? ?];
        destruct H as [-> _]; try destruct Hin.
      destruct (remove_dirs_trace w4 done c) as (_ & _ & _ & Hr).
      rewrite Hr in Hin. destruct Hin.
    + rewrite Ho in H. destruct H as [-> ->].
      rewrite Ht in Hs. cbn [app] in Hs.
      rewrite <- app_assoc in Hs. cbn [app] in Hs. rewrite app_assoc in Hs.
      apply unique_hit with (f := is_failed_read) in Hs; trivial.
      * destruct Hs as (_ & Heq & ->). injection Heq as <- _.
        split; [|exact Hcl]. cbn [option_map]. unfold push_status.
        destruct Hfail as (_ & Hne & _). apply Z.eqb_neq in Hne.
        rewrite Hne. reflexivity.
      * rewrite filter_app, Hh, Ht0. reflexivity.
Qed.

End WholeFunctionTheory.

(** The run of the function over the sample tree. *)
Lemma sample_run_is_run :
  @lua_apr_dir_remove_recursive sim_runtime 10 sample_tree "/tmp/t"
  = (sample_trace, Some (Pushed true), []).
Proof. vm_compute. reflexivity. Defined.

Lemma sample_child : child_of sample_trace "/tmp/t/sub" "/tmp/t".
Proof. unfold child_of. vm_compute. left. reflexivity. Defined.

(** On the sample tree, [/tmp/t/sub] is removed before [/tmp/t]. *)
Lemma directories_removed_after_their_descendants_witness :
  before (removals sample_trace) "/tmp/t/sub" "/tmp/t".
Proof.
  assert (Hn : NoDup (completed sample_trace)).
  { change (completed sample_trace) with ["/tmp/t"; "/tmp/t/sub"].
    constructor.
    - cbn. intros [H|[]]. discriminate.
    - constructor; [intros [] | constructor]. }
  apply (proj2 (proj2 (@directories_removed_after_their_descendants
                         sim_runtime 10 sample_tree "/tmp/t" sample_trace
                         (Some (Pushed true)) [] sample_run_is_run))
           Hn "/tmp/t" "/tmp/t/sub").
  - apply descendant_child, sample_child.
  - vm_compute. right. left. reflexivity.
Defined.

(** C4 as stated does not hold.  On the sample tree, [/tmp/t] is pushed on
    [done] while its subdirectory [/tmp/t/sub] is neither on [done] nor
    emptied: the file [/tmp/t/sub/f] is joined and removed afterwards. *)
Lemma subdirectory_emptied_after_parent_recorded :
  @lua_apr_dir_remove_recursive sim_runtime 10 sample_tree "/tmp/t"
  = (sample_trace, Some (Pushed true), [])
  /\ sample_trace
     = firstn 21 sample_trace
         ++ Call_array_push stack_done "/tmp/t" true :: skipn 22 sample_trace
  /\ child_of sample_trace "/tmp/t/sub" "/tmp/t"
  /\ ~ In "/tmp/t/sub" (completed (firstn 21 sample_trace))
  /\ In (Call_file_remove "/tmp/t/sub/f" APR_SUCCESS) (skipn 22 sample_trace)
  /\ ~ subdirectories_emptied_first sample_trace.
Proof.
  split; [exact sample_run_is_run|].
  split; [reflexivity|].
  split; [exact sample_child|].
  split; [vm_compute; tauto|].
  split; [vm_compute; tauto|].
  intros H.
  destruct (H (firstn 21 sample_trace) (skipn 22 sample_trace) "/tmp/t"
              eq_refl "/tmp/t/sub" (descendant_child _ _ _ sample_child))
    as [Hin _].
  vm_compute in Hin. exact Hin.
Qed.

(** On the sample tree, the push of [/tmp/t] on [done] comes right after
    the pass over [/tmp/t]. *)
Lemma directory_emptied_before_recorded_witness :
  exists earlier body,
    firstn 21 sample_trace = earlier ++ pass "/tmp/t" body
    /\ emptying "/tmp/t" body.
Proof.
  apply (proj1 (@directory_emptied_before_recorded sim_runtime 10 sample_tree
                  "/tmp/t" sample_trace (Some (Pushed true)) []
                  sample_run_is_run)
           (firstn 21 sample_trace) (skipn 22 sample_trace) "/tmp/t").
  reflexivity.
Defined.

(** When reading a directory fails with EACCES, that is the error
    returned. *)
Lemma enumeration_statuses_witness :
  snd (fst (@lua_apr_dir_remove_recursive faulty_runtime 10 sample_tree "/tmp/t"))
  = Some (PushedError APR_EACCES).
Proof.
  destruct (@lua_apr_dir_remove_recursive faulty_runtime 10 sample_tree "/tmp/t")
    as [[tr result] w'] eqn:E.
  cbn [fst snd].
  apply (proj2 (proj2 (proj2 (@enumeration_statuses faulty_runtime)))
           10%nat sample_tree "/tmp/t" tr result w'
           (firstn 11 tr) APR_EACCES finfo_none (skipn 12 tr) E).
  - vm_compute in E. injection E as <- _ _. reflexivity.
  - repeat split; discriminate.
Defined.

(** With the counter at 0 and two directories on [done], the second loop
    clears the middle pool once, before the first removal. *)
Lemma middle_pool_cleared_once_per_100_removals_witness :
  count is_middle_clear
    (fst (@remove_dirs sim_runtime sample_tree ["/tmp/t/sub"; "/tmp/t"] 0))
  = 1.
Proof.
  destruct (@middle_pool_cleared_once_per_100_removals sim_runtime sample_tree
              ["/tmp/t/sub"; "/tmp/t"] 0) as [H _].
  - unfold int_range. lia.
  - cbn. lia.
  - rewrite (H (fst (@remove_dirs sim_runtime sample_tree
                       ["/tmp/t/sub"; "/tmp/t"] 0)) []).
    + reflexivity.
    + symmetry. apply app_nil_r.
    + right. vm_compute. eexists [_], _, _. reflexivity.
Defined.

(** ** The small file system records no directory twice

    The theorem on the order of removals asks that no directory be pushed
    on [done] twice.  Over the small file system that holds for every
    well-formed tree, every root and every amount of fuel. *)

Lemma has_slash_join (a b : string) :
  has_slash (a ++ String "/"%char b)%string = true.
Proof.
  induction a as [|c a IH]; cbn.
  - reflexivity.
  - rewrite IH. apply orb_true_r.
Qed.

Lemma string_length_append (a b : string) :
  String.length (a ++ b)%string = (String.length a + String.length b)%nat.
Proof. induction a as [|c a IH]; cbn; [reflexivity | rewrite IH; reflexivity]. Qed.

Lemma length_sim_join (D n : string) :
  String.length (sim_join D n) = S (String.length D + String.length n).
Proof.
  unfold sim_join. rewrite !string_length_append. cbn. lia.
Qed.

Lemma sim_join_inj (D n D' n' : string) :
  sim_join D n = sim_join D' n' ->
  has_slash n = false -> has_slash n' = false -> D = D' /\ n = n'.
Proof.
  unfold sim_join. revert D'.
  induction D as [|c D IH]; intros [|c' D'] H Hn Hn'; cbn in H.
  - injection H as ->. split; reflexivity.
  - injection H as <- ->. rewrite has_slash_join in Hn. discriminate.
  - injection H as -> <-. rewrite has_slash_join in Hn'. discriminate.
  - injection H as <- H. destruct (IH _ H Hn Hn') as [-> ->].
    split; reflexivity.
Qed.

Lemma filter_map_commute {A B : Type} (f : A -> B) (p : B -> bool) (l : list A) :
  filter p (map f l) = map f (filter (fun a => p (f a)) l).
Proof.
  induction l as [|a l IH]; cbn; [reflexivity|].
  destruct (p (f a)); cbn; rewrite IH; reflexivity.
Qed.

(** Keeping part of a list keeps the images of its elements apart. *)
Lemma nodup_map_filter :
  forall (A B : Type) (image : A -> B) (keep : A -> bool) (xs : list A),
    NoDup (map image xs) -> NoDup (map image (filter keep xs)).
Proof.
  intros A B image keep xs. induction xs as [|x xs IH]; cbn; intros H.
  - constructor.
  - apply NoDup_cons_iff in H. destruct H as [Hx H].
    destruct (keep x); cbn; [|auto].
    constructor; [|auto]. intros Hin. apply Hx.
    apply in_map_iff in Hin. destruct Hin as (y & Hy & Hin).
    apply filter_In in Hin. apply in_map_iff. exists y. tauto.
Qed.

Lemma sim_wf_filter (p : sim_node -> bool) (w : list sim_node) :
  sim_wf w -> sim_wf (filter p w).
Proof.
  intros [Hn Hs]. split.
  - apply nodup_map_filter, Hn.
  - rewrite Forall_forall in *. intros n Hin. apply filter_In in Hin.
    apply Hs. tauto.
Qed.

Lemma sim_file_remove_wf (w : list sim_node) (p : string) :
  sim_wf w -> sim_wf (snd (sim_file_remove w p)).
Proof.
  intros H. unfold sim_file_remove.
  destruct (existsb _ w); cbn [snd]; [apply sim_wf_filter|]; exact H.
Qed.

(** The names of the entries of one directory are all different. *)
Lemma sim_names_nodup (w : list sim_node) (D : string) :
  NoDup (map (fun n => (node_parent n, node_name n)) w) ->
  NoDup (map node_name (filter (fun n => String.eqb (node_parent n) D) w)).
Proof.
  induction w as [|a w IH]; cbn; intros H; [constructor|].
  apply NoDup_cons_iff in H. destruct H as [Ha H].
  destruct (String.eqb (node_parent a) D) eqn:E; cbn; [|auto].
  constructor; [|auto]. intros Hin. apply Ha.
  apply in_map_iff in Hin. destruct Hin as (x & Hx & Hin).
  apply filter_In in Hin. destruct Hin as [Hin Hp].
  apply String.eqb_eq in E, Hp.
  apply in_map_iff. exists x. split; [|exact Hin]. congruence.
Qed.

Lemma subdir_names_sim (l : list sim_node) :
  subdir_names (sim_marker "." :: sim_marker ".." :: map sim_entry l)
  = map node_name
      (filter (fun n => negb (filename_symbolic (node_name n))
                        && apr_filetype_eqb (node_type n) APR_DIR) l).
Proof.
  change (subdir_names (sim_marker "." :: sim_marker ".." :: map sim_entry l))
    with (subdir_names (map sim_entry l)).
  unfold subdir_names. rewrite map_map. cbn [snd sim_entry].
  rewrite filter_map_commute, map_map. reflexivity.
Qed.

(** The handle [sim_dir_open] gives: every read succeeds, the names of the
    subdirectories are all different and hold no slash. *)
Lemma sim_dir_open_stream (w : list sim_node) (D : string)
    (directory : apr_dir_t) (w1 : list sim_node) :
  sim_wf w ->
  sim_dir_open w D = (APR_SUCCESS, directory, w1) ->
  w1 = w
  /\ Forall (fun e => fst e = APR_SUCCESS) directory
  /\ NoDup (subdir_names directory)
  /\ Forall (fun n => has_slash n = false) (subdir_names directory).
Proof.
  intros [Hn Hs] H. unfold sim_dir_open in H.
  destruct (sim_is_dir w D); [|discriminate].
  injection H as <- <-. split; [reflexivity|]. split; [|split].
  - repeat constructor. apply Forall_forall. intros e He.
    apply in_map_iff in He. destruct He as (n & <- & _). reflexivity.
  - rewrite subdir_names_sim.
    apply nodup_map_filter, sim_names_nodup, Hn.
  - rewrite subdir_names_sim.
    apply Forall_forall. intros x Hx. apply in_map_iff in Hx.
    destruct Hx as (n & <- & Hin). apply filter_In in Hin.
    destruct Hin as [Hin _]. apply filter_In in Hin.
    rewrite Forall_forall in Hs. apply Hs. tauto.
Qed.

Lemma sim_join_cancel (D n n' : string) :
  sim_join D n = sim_join D n' -> n = n'.
Proof.
  unfold sim_join. induction D as [|c D IH]; cbn; intros H.
  - injection H as ->. reflexivity.
  - injection H as H. auto.
Qed.

Lemma nodup_map_sim_join (D : string) (names : list string) :
  NoDup names -> NoDup (map (sim_join D) names).
Proof.
  induction 1 as [|n names Hn _ IH]; cbn; constructor; [|exact IH].
  intros Hin. apply in_map_iff in Hin. destruct Hin as (n' & He & Hin).
  apply sim_join_cancel in He. subst n'. contradiction.
Qed.

(** Over the small file system, a pass that reads a handle to its end meets
    exactly the subdirectories the handle names, and leaves the file system
    well formed. *)
Lemma sim_read_entries (w : list sim_node) (D : string) (directory : apr_dir_t)
    (todo : list string) (c : Z) :
  Forall (fun e => fst e = APR_SUCCESS) directory ->
  sim_wf w ->
  forall w' d' todo' c',
    snd (@read_entries sim_runtime w D directory todo c)
    = Entries_done w' d' todo' c' ->
    map snd (subdirectories_met
               (fst (@read_entries sim_runtime w D directory todo c)))
    = map (sim_join D) (subdir_names directory)
    /\ sim_wf w'.
Proof.
  functional induction (@read_entries sim_runtime w D directory todo c);
    intros Hall Hwf w' d' todo' c' H; cbn [snd emit] in H; try discriminate;
    try (apply Forall_cons_iff in Hall; destruct Hall as [Hst Hall];
         cbn [fst] in Hst; subst status);
    trace_simpl.
  - injection H as <- _ _ _. split; [reflexivity | exact Hwf].
  - discriminate.
  - destruct (IHp Hall Hwf _ _ _ _ H) as [IH1 IH2]. split; [|exact IH2].
    rewrite IH1. unfold subdir_names. cbn [map snd filter].
    match goal with E : filename_symbolic _ = true |- _ => rewrite E end.
    reflexivity.
  - match goal with
    | E : apr_filepath_merge _ _ = _ |- _ => cbn in E; injection E as <- <-
    end.
    match goal with
    | E : apr_array_alloc _ = _ |- _ => cbn in E; injection E as <-
    end.
    destruct (IHp Hall Hwf _ _ _ _ H) as [IH1 IH2]. split; [|exact IH2].
    cbn [Z.eqb APR_SUCCESS app map snd]. rewrite IH1.
    unfold subdir_names. cbn [map snd filter].
    repeat match goal with
      | E : filename_symbolic _ = false |- _ => rewrite E; clear E
      | E : apr_filetype_eqb _ _ = true |- _ => rewrite E; clear E
      end.
    reflexivity.
  - match goal with
    | E : apr_file_remove _ _ = _ |- _ =>
        cbn in E; pose proof (sim_file_remove_wf w tmp Hwf) as Hwf1;
        rewrite E in Hwf1; cbn [snd] in Hwf1
    end.
    destruct (IHp Hall Hwf1 _ _ _ _ H) as [IH1 IH2]. split; [|exact IH2].
    rewrite IH1. unfold subdir_names. cbn [map snd filter].
    repeat match goal with
      | E : filename_symbolic _ = false |- _ => rewrite E; clear E
      | E : apr_filetype_eqb _ _ = false |- _ => rewrite E; clear E
      end.
    reflexivity.
Qed.

Lemma walk_inv_step (root D : string) (todo done names : list string) :
  walk_inv root (D :: todo) done ->
  NoDup names -> Forall (fun n => has_slash n = false) names ->
  walk_inv root (rev (map (sim_join D) names) ++ todo) (D :: done).
Proof.
  intros [Hnd Hall] Hn Hs. rewrite Forall_forall in Hs.
  assert (HD : (String.length root <= String.length D)%nat)
    by (apply Hall; left; reflexivity).
  assert (HDfresh : ~ In D (todo ++ done))
    by (cbn in Hnd; apply NoDup_cons_iff in Hnd; tauto).
  assert (Hold : forall x,
             In x (todo ++ D :: done) ->
             (String.length root <= String.length x)%nat
             /\ (x = root
                 \/ exists D' n,
                     x = sim_join D' n /\ In D' done /\ has_slash n = false)).
  { intros x Hx. apply Hall. apply in_app_or in Hx. cbn.
    destruct Hx as [Hx|[->|Hx]]; [right; apply in_or_app; auto | auto |].
    right. apply in_or_app. auto. }
  split.
  - rewrite <- app_assoc. apply NoDup_app.
    + apply NoDup_rev, nodup_map_sim_join, Hn.
    + apply (Permutation_NoDup (Permutation_middle todo done D)). exact Hnd.
    + intros x Hx Hx'. apply in_rev, in_map_iff in Hx.
      destruct Hx as (n & <- & Hin).
      destruct (Hold _ Hx') as [Hlen [Hroot|(D' & n' & He & HD' & Hn')]].
      * apply (f_equal String.length) in Hroot.
        rewrite length_sim_join in Hroot. lia.
      * apply sim_join_inj in He; auto. destruct He as [-> _].
        apply HDfresh. apply in_or_app. auto.
  - intros x Hx. rewrite <- app_assoc in Hx. apply in_app_or in Hx.
    destruct Hx as [Hx|Hx].
    + apply in_rev, in_map_iff in Hx. destruct Hx as (n & <- & Hin). split.
      * rewrite length_sim_join. lia.
      * right. exists D, n. split; [reflexivity|]. split; [left; reflexivity|].
        apply Hs, Hin.
    + destruct (Hold _ Hx) as [Hlen [Hroot|(D' & n' & He & HD' & Hn')]].
      * auto.
      * split; [exact Hlen|]. right. exists D', n'.
        split; [exact He|]. split; [right; exact HD' | exact Hn'].
Qed.

(** Over a well-formed small file system, the first loop pushes no
    directory on [done] twice. *)
Lemma sim_walk_nodup (root : string) (fuel : nat) (w : list sim_node)
    (todo done : list string) (c : Z) :
  sim_wf w -> walk_inv root todo done ->
  NoDup (completed (fst (@walk sim_runtime fuel w todo done c)) ++ done).
Proof.
  functional induction (@walk sim_runtime fuel w todo done c);
    intros Hwf Hinv; try use_read_entries; trace_simpl;
    try (destruct Hinv as [Hnd _]; apply NoDup_app_remove_l in Hnd;
         exact Hnd).
  use_read_done. tests.
  match goal with
  | E : apr_dir_open ?w0 ?p = (_, ?dir, ?w1) |- _ =>
      destruct (sim_dir_open_stream w0 p dir w1 Hwf E)
        as (-> & Hok & Hnames & Hslash)
  end.
  match goal with
  | E : read_entries ?w0 ?p ?dir ?td ?c0 = (_, Entries_done ?wa ?da ?ta ?ca)
    |- _ =>
      pose proof (sim_read_entries w0 p dir td c0 Hok Hwf wa da ta ca) as Hsim;
      rewrite E in Hsim; cbn [fst snd] in Hsim;
      destruct (Hsim eq_refl) as [Hmet' Hwf2]
  end.
  repeat match goal with
    | E : apr_dir_close _ _ = _ |- _ => cbn in E; injection E as <-
    | E : apr_array_alloc _ = _ |- _ => cbn in E; injection E as <-
    end.
  rewrite Hmet' in Htodo.
  assert (Hinv2 : walk_inv root todo2 (filepath :: done))
    by (rewrite Htodo; apply walk_inv_step; assumption).
  specialize (IHp Hwf2 Hinv2).
  apply (Permutation_NoDup (Permutation_sym (Permutation_middle _ done filepath))).
  exact IHp.
Qed.

(** Over a well-formed small file system, whatever the root and the fuel,
    the function pushes no directory on [done] twice. *)
Lemma sim_records_each_directory_once (fuel : nat) (w : list sim_node)
    (root : string) :
  sim_wf w ->
  NoDup (completed
           (fst (fst (@lua_apr_dir_remove_recursive sim_runtime fuel w root)))).
Proof.
  intros Hwf.
  assert (Hinv : walk_inv root [root] []).
  { split.
    - repeat constructor. intros [].
    - intros x [<-|[]]. split; [lia | left; reflexivity]. }
  pose proof (sim_walk_nodup root fuel w [root] [] 0 Hwf Hinv) as Hw.
  rewrite app_nil_r in Hw.
  unfold lua_apr_dir_remove_recursive, remove_recursive_status.
  cbn [create_pools apr_pool_create apr_array_alloc sim_runtime Z.eqb
       APR_SUCCESS negb orb].
  destruct (@walk sim_runtime fuel w [root] [] 0) as [t3 out].
  cbn [fst] in Hw.
  destruct out as [w4 done c|st w4 directory|w4 td dn c].
  - pose proof (@remove_dirs_trace sim_runtime w4 done c) as Hr.
    cbv zeta in Hr. destruct Hr as (_ & Hc & _).
    destruct (@remove_dirs sim_runtime w4 done c) as [t4 [st w5]].
    cbn [fst] in Hc.
    destruct (@cleanup sim_runtime w5 None
                [inner_pool; middle_pool; outer_pool]) as [t9 w9] eqn:E.
    cbn in E. injection E as <- <-. cbn [fst]. trace_simpl. exact Hw.
  - destruct (@cleanup sim_runtime w4 directory
                [inner_pool; middle_pool; outer_pool]) as [t9 w9] eqn:E.
    pose proof (@cleanup_trace sim_runtime w4 directory
                  [inner_pool; middle_pool; outer_pool]) as [[Hc _] _].
    rewrite E in Hc. cbn [fst] in Hc. cbn [fst]. trace_simpl. exact Hw.
  - cbn [fst]. trace_simpl. exact Hw.
Qed.

(** * Further properties of the two modules *)

(** ** apr.file_open: the mode string *)

Lemma mode_is_head (c : ascii) (mode : string) :
  mode_is c mode = true -> exists rest, mode = String c rest.
Proof.
  destruct mode as [|d rest]; cbn; [discriminate|].
  intros H. apply Ascii.eqb_eq in H. subst d. exists rest. reflexivity.
Qed.

(** Decide every test of the parser on the characters at hand. *)
Ltac mode_cases :=
  repeat match goal with
    | |- context [mode_is ?c ?m] =>
        let E := fresh "E" in
        destruct (mode_is c m) eqn:E;
        [apply mode_is_head in E; destruct E as [? ->]|];
        cbn [mode_next mode_is Ascii.eqb Bool.eqb] in *
    end.

Lemma mode_flags_cases (mode : string) :
  let flags := mode_flags mode in
  (Z.land flags APR_FOPEN_CREATE =? 0)
  = negb (mode_is "w" mode || mode_is "a" mode)
  /\ (Z.land flags APR_FOPEN_TRUNCATE =? 0) = negb (mode_is "w" mode)
  /\ (Z.land flags APR_FOPEN_APPEND =? 0) = negb (mode_is "a" mode)
  /\ (Z.land flags (Z.lor APR_FOPEN_READ APR_FOPEN_WRITE) =? 0) = false
  /\ 0 <= flags < 64.
Proof.
  cbv zeta. unfold mode_flags, mode_modifiers.
  destruct (mode_is "r" mode) eqn:Er.
  { apply mode_is_head in Er. destruct Er as [rest ->].
    cbn [mode_next mode_is Ascii.eqb Bool.eqb orb negb].
    mode_cases; repeat split; try reflexivity; cbv; congruence. }
  destruct (mode_is "w" mode) eqn:Ew.
  { apply mode_is_head in Ew. destruct Ew as [rest ->].
    cbn [mode_next mode_is Ascii.eqb Bool.eqb orb negb].
    mode_cases; repeat split; try reflexivity; cbv; congruence. }
  destruct (mode_is "a" mode) eqn:Ea.
  { apply mode_is_head in Ea. destruct Ea as [rest ->].
    cbn [mode_next mode_is Ascii.eqb Bool.eqb orb negb].
    mode_cases; repeat split; try reflexivity; cbv; congruence. }
  repeat split; try reflexivity; cbv; congruence.
Qed.

Section FileOpenTheory.

Context {RT : FileRuntime} {FS : FileServices RT}.

Lemma file_open_calls (path : string) (mode : option string)
    (pool : apr_status_t * nat) (c : service_call) :
  In c (snd (lua_apr_file_open path mode pool)) ->
  c = Call_file_open path
        (mode_flags match mode with Some m => m | None => "r" end)
        APR_FPROT_OS_DEFAULT.
Proof.
  unfold lua_apr_file_open.
  destruct (negb (APR_SUCCESS =? fst pool)); [intros []|].
  destruct (apr_file_open _ _ _) as [status h].
  destruct (negb (status =? APR_SUCCESS)); cbn [snd In];
    intros [<-|[]]; reflexivity.
Qed.

(** X1.  A mode string that begins with none of [r], [w] and [a], the
    empty string included, is not refused: the call behaves in every respect
    as if no mode had been given, and a file it opens is opened for reading
    only. *)
Theorem file_open_unknown_mode_is_read_mode (path mode : string)
    (pool : apr_status_t * nat) :
  mode_is "r" mode = false -> mode_is "w" mode = false ->
  mode_is "a" mode = false ->
  lua_apr_file_open path (Some mode) pool = lua_apr_file_open path None pool
  /\ forall c,
      In c (snd (lua_apr_file_open path (Some mode) pool)) ->
      c = Call_file_open path APR_FOPEN_READ APR_FPROT_OS_DEFAULT.
Proof.
  intros Hr Hw Ha.
  assert (Hflags : mode_flags mode = APR_FOPEN_READ).
  { unfold mode_flags. rewrite Hr, Hw, Ha. reflexivity. }
  split.
  - unfold lua_apr_file_open. rewrite Hflags. reflexivity.
  - intros c Hc. apply file_open_calls in Hc. rewrite Hc, Hflags. reflexivity.
Qed.

(** X2.  After the first character of the mode, [+] and [b] are taken in
    either order, and what follows them is not looked at: the modes
    [c+b...] and [cb+...] open the file in the same way, whatever [c] is and
    whatever follows. *)
Theorem file_open_update_and_binary_commute (path : string) (c : ascii)
    (rest rest' : string) (pool : apr_status_t * nat) :
  lua_apr_file_open path (Some (String c ("+b" ++ rest))) pool
  = lua_apr_file_open path (Some (String c ("b+" ++ rest'))) pool.
Proof.
  assert (Hflags : mode_flags (String c ("+b" ++ rest))
                   = mode_flags (String c ("b+" ++ rest'))).
  { unfold mode_flags, mode_modifiers.
    cbn [mode_is mode_next String.append Ascii.eqb Bool.eqb].
    destruct (Ascii.eqb c "r"); [mode_cases; reflexivity|].
    destruct (Ascii.eqb c "w"); [mode_cases; reflexivity|].
    destruct (Ascii.eqb c "a"); [mode_cases; reflexivity|].
    reflexivity. }
  unfold lua_apr_file_open. rewrite Hflags. reflexivity.
Qed.

(** X3.  Whatever the mode string, the flags handed to [apr_file_open] ask
    for reading or for writing; they ask to create the file exactly when the
    mode begins with [w] or [a], to truncate it exactly when it begins with
    [w], and to append exactly when it begins with [a]; no other bit than
    the six of the module is ever set, and the protection is the default
    one. *)
Theorem file_open_flag_bits (path mode : string) (pool : apr_status_t * nat)
    (path' : string) (flags perm : Z) :
  In (Call_file_open path' flags perm)
     (snd (lua_apr_file_open path (Some mode) pool)) ->
  path' = path /\ perm = APR_FPROT_OS_DEFAULT
  /\ (Z.land flags APR_FOPEN_CREATE =? 0)
     = negb (mode_is "w" mode || mode_is "a" mode)
  /\ (Z.land flags APR_FOPEN_TRUNCATE =? 0) = negb (mode_is "w" mode)
  /\ (Z.land flags APR_FOPEN_APPEND =? 0) = negb (mode_is "a" mode)
  /\ (Z.land flags (Z.lor APR_FOPEN_READ APR_FOPEN_WRITE) =? 0) = false
  /\ 0 <= flags < 64.
Proof.
  intros Hc. apply file_open_calls in Hc. injection Hc as -> -> ->.
  split; [reflexivity|]. split; [reflexivity|].
  exact (mode_flags_cases mode).
Qed.

End FileOpenTheory.

Lemma file_open_unknown_mode_is_read_mode_witness :
  @lua_apr_file_open _ sample_services "/tmp/f" (Some "x+") (APR_SUCCESS, 7%nat)
  = @lua_apr_file_open _ sample_services "/tmp/f" None (APR_SUCCESS, 7%nat)
  /\ forall c,
      In c (snd (@lua_apr_file_open _ sample_services "/tmp/f" (Some "x+")
                   (APR_SUCCESS, 7%nat))) ->
      c = Call_file_open "/tmp/f" APR_FOPEN_READ APR_FPROT_OS_DEFAULT.
Proof.
  apply (@file_open_unknown_mode_is_read_mode _ sample_services
           "/tmp/f" "x+" (APR_SUCCESS, 7%nat)); reflexivity.
Defined.

Lemma file_open_flag_bits_witness :
  In (Call_file_open "/tmp/f" 22 4095)
     (snd (@lua_apr_file_open _ sample_services "/tmp/f" (Some "w")
             (APR_SUCCESS, 7%nat)))
  /\ (Z.land 22 APR_FOPEN_TRUNCATE =? 0) = negb (mode_is "w" "w").
Proof.
  split; [left; reflexivity|].
  apply (@file_open_flag_bits _ sample_services "/tmp/f" "w"
           (APR_SUCCESS, 7%nat) "/tmp/f" 22 4095).
  left. reflexivity.
Defined.

(** ** apr.file_attrs_set *)

Lemma attribute_bits_readonly (r e h : bool) :
  Z.lor (attribute_bits r e h) APR_FILE_ATTR_READONLY = attribute_bits true e h.
Proof. destruct r, e, h; reflexivity. Qed.

Lemma attribute_bits_executable (r e h : bool) :
  Z.lor (attribute_bits r e h) APR_FILE_ATTR_EXECUTABLE
  = attribute_bits r true h.
Proof. destruct r, e, h; reflexivity. Qed.

Lemma attribute_bits_hidden (r e h : bool) :
  Z.lor (attribute_bits r e h) APR_FILE_ATTR_HIDDEN = attribute_bits r e true.
Proof. destruct r, e, h; reflexivity. Qed.

(** The loop started on any masks: it adds the bits of the keys met. *)
Lemma attrs_loop_masks (entries : list (table_key * bool)) :
  forall ra ea ha rv ev hv attributes valid,
    attrs_loop entries (attribute_bits ra ea ha) (attribute_bits rv ev hv)
    = Returns (Pushed (attributes, valid)) ->
    attributes
    = attribute_bits (ra || is_set "readonly" entries)
        (ea || is_set "executable" entries) (ha || is_set "hidden" entries)
    /\ valid
       = attribute_bits (rv || has_key "readonly" entries)
           (ev || has_key "executable" entries) (hv || has_key "hidden" entries).
Proof.
  induction entries as [|[[key|] value] rest IH];
    intros ra ea ha rv ev hv attributes valid H.
  - cbn in H. injection H as <- <-. cbn. rewrite !orb_false_r. auto.
  - cbn [attrs_loop] in H.
    destruct (String.eqb key "readonly") eqn:E1.
    { apply String.eqb_eq in E1. subst key.
      destruct value; rewrite !attribute_bits_readonly in H;
        apply IH in H; destruct H as [-> ->]; cbn;
        rewrite ?orb_true_r, ?orb_false_r; auto. }
    destruct (String.eqb key "hidden") eqn:E2.
    { apply String.eqb_eq in E2. subst key.
      destruct value; rewrite !attribute_bits_hidden in H;
        apply IH in H; destruct H as [-> ->]; cbn;
        rewrite ?orb_true_r, ?orb_false_r; auto. }
    destruct (String.eqb key "executable") eqn:E3; [|discriminate].
    apply String.eqb_eq in E3. subst key.
    destruct value; rewrite !attribute_bits_executable in H;
      apply IH in H; destruct H as [-> ->]; cbn;
      rewrite ?orb_true_r, ?orb_false_r; auto.
  - discriminate.
Qed.

Lemma is_set_has_key (key : string) (entries : list (table_key * bool)) :
  is_set key entries = true -> has_key key entries = true.
Proof.
  unfold is_set, has_key. rewrite !existsb_exists.
  intros (e & Hin & He). apply andb_prop in He. exists e. tauto.
Qed.

(** Over keys that all name attributes the loop goes on with the rest of the
    table, on masks of its own making. *)
Lemma attrs_loop_known (known rest : list (table_key * bool)) :
  forallb (fun e => known_key (fst e)) known = true ->
  forall attributes valid,
    exists attributes' valid',
      attrs_loop (known ++ rest) attributes valid
      = attrs_loop rest attributes' valid'.
Proof.
  induction known as [|[[key|] value] known IH]; intros Hk attributes valid.
  - exists attributes, valid. reflexivity.
  - cbn [forallb fst known_key] in Hk. apply andb_prop in Hk.
    destruct Hk as [Hkey Hk]. unfold attribute_key in Hkey.
    cbn [app attrs_loop].
    destruct (String.eqb key "readonly"); [apply (IH Hk)|].
    destruct (String.eqb key "hidden"); [apply (IH Hk)|].
    destruct (String.eqb key "executable"); [apply (IH Hk)|].
    discriminate.
  - discriminate.
Qed.

Section FileAttrsTheory.

Context {RT : FileRuntime} {FS : FileServices RT}.

(** X4.  When [apr.file_attrs_set] reaches the runtime, it names as valid
    exactly the attributes that are keys of the table, and sets exactly those
    whose value counts as true; so no attribute is set that is not named as
    valid, and an empty table gives two empty masks. *)
Theorem attrs_set_masks (path : string) (entries : list (table_key * bool))
    (path' : string) (attributes valid : Z) :
  In (Call_file_attrs_set path' attributes valid)
     (snd (lua_apr_file_attrs_set path (Some entries))) ->
  path' = path
  /\ valid = attribute_bits (has_key "readonly" entries)
               (has_key "executable" entries) (has_key "hidden" entries)
  /\ attributes = attribute_bits (is_set "readonly" entries)
                    (is_set "executable" entries) (is_set "hidden" entries)
  /\ Z.land attributes valid = attributes.
Proof.
  unfold lua_apr_file_attrs_set.
  destruct (attrs_loop entries 0 0) as [[msg|status|[a v]]|] eqn:E;
    cbn [snd In]; try tauto.
  intros [H|[]]. injection H as <- <- <-.
  apply (attrs_loop_masks entries false false false false false false) in E.
  cbn [orb] in E. destruct E as [Ea Ev].
  split; [reflexivity|]. split; [exact Ev|]. split; [exact Ea|].
  rewrite Ea, Ev.
  pose proof (is_set_has_key "readonly" entries) as H1.
  pose proof (is_set_has_key "executable" entries) as H2.
  pose proof (is_set_has_key "hidden" entries) as H3.
  destruct (is_set "readonly" entries); [rewrite H1 by reflexivity|];
    (destruct (is_set "executable" entries); [rewrite H2 by reflexivity|]);
    (destruct (is_set "hidden" entries); [rewrite H3 by reflexivity|]);
    repeat match goal with
      | |- context [has_key ?k entries] => destruct (has_key k entries)
      end; reflexivity.
Qed.

(** X5.  [apr.file_attrs_set] takes the pairs of the table in the order
    [lua_next] gives them, and the first key that is not [readonly],
    [hidden] or [executable] decides.  When that key is a string or a
    number, a Lua error is raised that names it, and the runtime is not
    called.  When it is of any other type, [lua_tostring] gives NULL and
    [strcmp] is handed it: the behaviour is undefined, no Lua error is
    raised, and the runtime has not been called by then.  A table whose
    keys all name attributes makes the function call the runtime exactly
    once and return what [push_status] makes of its answer. *)
Theorem attrs_set_rejects_unknown_keys (path : string)
    (known rest : list (table_key * bool)) (value : bool) :
  forallb (fun e => known_key (fst e)) known = true ->
  (forall key,
      attribute_key key = false ->
      lua_apr_file_attrs_set path (Some (known ++ (Some key, value) :: rest))
      = (Returns (Raised (ErrorMessage ("invalid key '" ++ key ++ "'")%string)),
         []))
  /\ lua_apr_file_attrs_set path (Some (known ++ (None, value) :: rest))
     = (Undefined, [])
  /\ exists attributes valid,
       lua_apr_file_attrs_set path (Some known)
       = (Returns (push_status (apr_file_attrs_set path attributes valid)),
          [Call_file_attrs_set path attributes valid]).
Proof.
  intros Hk. unfold lua_apr_file_attrs_set. split; [|split].
  - intros key Hkey.
    destruct (attrs_loop_known known ((Some key, value) :: rest) Hk 0 0)
      as (a & v & ->).
    cbn [attrs_loop]. unfold attribute_key in Hkey.
    destruct (String.eqb key "readonly"); [discriminate|].
    destruct (String.eqb key "hidden"); [discriminate|].
    destruct (String.eqb key "executable"); [discriminate|].
    reflexivity.
  - destruct (attrs_loop_known known ((None, value) :: rest) Hk 0 0)
      as (a & v & ->).
    reflexivity.
  - destruct (attrs_loop_known known [] Hk 0 0) as (a & v & H).
    rewrite app_nil_r in H. rewrite H. cbn [attrs_loop].
    exists a, v. reflexivity.
Qed.

End FileAttrsTheory.

Lemma attrs_set_masks_witness :
  In (Call_file_attrs_set "/tmp/f" 1 5)
     (snd (@lua_apr_file_attrs_set _ sample_services "/tmp/f"
             (Some [(Some "readonly", true); (Some "hidden", false)])))
  /\ Z.land 1 5 = 1.
Proof.
  split; [left; reflexivity|].
  apply (@attrs_set_masks _ sample_services "/tmp/f"
           [(Some "readonly", true); (Some "hidden", false)] "/tmp/f" 1 5).
  left. reflexivity.
Defined.

(** After [readonly], the string key [archive] raises an error that names
    it, and a key that is no string, such as [true], leaves defined
    behaviour; in neither case is the runtime called. *)
Lemma attrs_set_rejects_unknown_keys_witness :
  @lua_apr_file_attrs_set _ sample_services "/tmp/f"
    (Some [(Some "readonly", true); (Some "archive", true);
           (Some "hidden", true)])
  = (Returns (Raised (ErrorMessage "invalid key 'archive'")), [])
  /\ @lua_apr_file_attrs_set _ sample_services "/tmp/f"
       (Some [(Some "readonly", true); (None, true); (Some "hidden", true)])
     = (Undefined, []).
Proof.
  destruct (@attrs_set_rejects_unknown_keys _ sample_services "/tmp/f"
              [(Some "readonly", true)] [(Some "hidden", true)] true eq_refl)
    as (Hraise & Hnull & _).
  split; [exact (Hraise "archive" eq_refl) | exact Hnull].
Defined.

(** ** file:seek: the buffer across seeks *)

Section FileSeekTheory.

Context {RT : FileRuntime}.

Lemma buffer_eta (b : lua_apr_buffer) : mk_buffer (index b) (limit b) = b.
Proof. destruct b. reflexivity. Qed.

Lemma adjust_buffer_within (b : lua_apr_buffer) (p e : Z) :
  0 <= limit b < two63 -> 0 <= e < two63 ->
  let b' := adjust_buffer b p (e - limit b) e in
  0 <= index b' <= limit b' /\ limit b' <= limit b.
Proof.
  intros Hl He. unfold adjust_buffer.
  destruct ((p >=? e - limit b) && (p <=? e)) eqn:E; cbn [index limit].
  - apply andb_prop in E. destruct E as [E1 E2].
    apply Z.geb_le in E1. apply Z.leb_le in E2.
    rewrite apr_off_t_of_id by (unfold apr_off_t_range, two63 in *; lia).
    unfold size_t_of. rewrite Z.mod_small by (unfold two64, two63 in *; lia).
    lia.
  - lia.
Qed.

(** X6.  [file:seek] keeps the buffer consistent: when the index lies
    within the limit before the call and the position query answers a file
    position, the index lies within the limit afterwards, however the call
    ends, and the limit has not grown. *)
Theorem file_seek_keeps_index_within_limit (file : lua_apr_file)
    (whence : option string) (offset : Z) :
  0 <= index (buffer file) <= limit (buffer file) ->
  limit (buffer file) < two63 ->
  match handle file with
  | Some h =>
      let '(status, end_of_buf, _) := apr_file_seek h APR_CUR 0 in
      status = APR_SUCCESS -> 0 <= end_of_buf < two63
  | None => True
  end ->
  let after := buffer (snd (file_seek file whence offset)) in
  0 <= index after <= limit after /\ limit after <= limit (buffer file).
Proof.
  intros Hb Hl Hq. cbv zeta.
  destruct (handle file) as [h|] eqn:Hh.
  2:{ unfold file_seek, file_check. rewrite Hh. cbn. lia. }
  destruct (luaL_checkoption whence "cur" modenames) as [i|] eqn:Ho.
  2:{ unfold file_seek. rewrite (file_check_open _ _ Hh), Ho. cbn. lia. }
  destruct (apr_file_seek h APR_CUR 0) as [[status e] h1] eqn:Eq.
  destruct (status =? APR_SUCCESS) eqn:Es.
  2:{ unfold file_seek. rewrite (file_check_open _ _ Hh), Ho, Eq, Es.
      cbn. lia. }
  apply Z.eqb_eq in Es. subst status. specialize (Hq eq_refl).
  rewrite (file_seek_after_query file whence offset h h1 i e Hh Ho Eq).
  cbv zeta.
  destruct (apr_file_seek h1 _ _) as [[status p] h2].
  destruct (negb (status =? APR_SUCCESS)); cbn [snd buffer set_handle].
  - lia.
  - rewrite start_of_buf_exact
      by (unfold apr_off_t_range, two63 in *; lia).
    apply adjust_buffer_within; lia.
Qed.

(** X7.  [file:seek()] moves the descriptor to the logical position but
    keeps the buffer as it was, so a second [file:seek()] right after it
    takes the logical position for the end of the buffered input: with a
    descriptor that honours seeks as [lseek] does, the first call returns
    the logical position [p] and leaves index and limit alone, and the
    second call asks the descriptor for [p - (limit - index)]. *)
Theorem file_seek_twice_drifts (file : lua_apr_file)
    (h h1 h2 h3 : apr_file_t) (end_of_buf : Z) :
  handle file = Some h ->
  0 <= index (buffer file) <= limit (buffer file) ->
  limit (buffer file) <= end_of_buf < two63 ->
  let p := end_of_buf - limit (buffer file) + index (buffer file) in
  apr_file_seek h APR_CUR 0 = (APR_SUCCESS, end_of_buf, h1) ->
  apr_file_seek h1 APR_SET p = (APR_SUCCESS, p, h2) ->
  apr_file_seek h2 APR_CUR 0 = (APR_SUCCESS, p, h3) ->
  let file1 := snd (file_seek file None 0) in
  fst (file_seek file None 0) = Pushed p
  /\ buffer file1 = buffer file
  /\ fst (file_seek file1 None 0)
     = let '(status, q, _) :=
         apr_file_seek h3 APR_SET
           (p - (limit (buffer file) - index (buffer file))) in
       if status =? APR_SUCCESS then Pushed q else PushedError status.
Proof.
  intros Hh Hb He p Hq Hs Hq2. cbv zeta.
  assert (H1 : file_seek file None 0
               = (Pushed p, mk_file (Some h2) (memory_pool file) (buffer file))).
  { rewrite (file_seek_after_query file None 0 h h1 1 end_of_buf Hh eq_refl Hq).
    cbv zeta. cbn [nth modes seek_request apr_seek_where_eqb fst snd].
    rewrite (cur_offset_congr _ _ _ (end_of_buf - limit (buffer file)))
      by apply start_of_buf_mod.
    rewrite Z.add_0_l, apr_off_t_of_id
      by (unfold apr_off_t_range, two63 in *; lia).
    fold p. rewrite Hs. cbn [negb Z.eqb APR_SUCCESS].
    rewrite start_of_buf_exact by (unfold apr_off_t_range, two63 in *; lia).
    unfold adjust_buffer.
    replace ((p >=? end_of_buf - limit (buffer file)) && (p <=? end_of_buf))
      with true
      by (symmetry; apply andb_true_intro; split;
          [apply Z.geb_le | apply Z.leb_le]; unfold p; lia).
    replace (p - (end_of_buf - limit (buffer file)))
      with (index (buffer file)) by (unfold p; lia).
    rewrite apr_off_t_of_id by (unfold apr_off_t_range, two63 in *; lia).
    unfold size_t_of.
    rewrite Z.mod_small by (unfold two64, two63 in *; lia).
    rewrite buffer_eta. reflexivity. }
  rewrite H1. cbn [fst snd].
  split; [reflexivity|]. split; [reflexivity|].
  rewrite (file_seek_after_query
             (mk_file (Some h2) (memory_pool file) (buffer file))
             None 0 h2 h3 1 p eq_refl eq_refl Hq2).
  cbv zeta. cbn [nth modes seek_request apr_seek_where_eqb fst snd buffer].
  rewrite (cur_offset_congr _ _ _ (p - limit (buffer file)))
    by apply start_of_buf_mod.
  rewrite Z.add_0_l, apr_off_t_of_id
    by (unfold apr_off_t_range, two63, p in *; lia).
  replace (p - limit (buffer file) + index (buffer file))
    with (p - (limit (buffer file) - index (buffer file))) by lia.
  destruct (apr_file_seek h3 APR_SET _) as [[status q] h4].
  destruct (status =? APR_SUCCESS); reflexivity.
Qed.

End FileSeekTheory.

Lemma file_seek_keeps_index_within_limit_witness :
  let after := buffer (snd (@file_seek posix_runtime sample_file (Some "set") 50)) in
  0 <= index after <= limit after /\ limit after <= 4096.
Proof.
  apply (@file_seek_keeps_index_within_limit posix_runtime sample_file
           (Some "set") 50).
  - cbn. lia.
  - reflexivity.
  - cbn. intros _. unfold two63. lia.
Defined.

(** On the sample file, whose logical position is 10: the first call
    returns 10 and the second, asking for 10 - 4086, fails. *)
Lemma file_seek_twice_drifts_witness :
  fst (@file_seek posix_runtime sample_file None 0) = Pushed 10
  /\ fst (@file_seek posix_runtime
            (snd (@file_seek posix_runtime sample_file None 0)) None 0)
     = PushedError APR_EINVAL.
Proof.
  pose proof (@file_seek_twice_drifts posix_runtime sample_file
                sample_descriptor sample_descriptor (mk_posix 10 10000)
                (mk_posix 10 10000) 4096 eq_refl) as H.
  cbv zeta in H.
  destruct H as (H1 & _ & H2); try reflexivity.
  - cbn. lia.
  - cbn. unfold two63. lia.
  - split; [exact H1 | exact H2].
Defined.

(** ** Directory objects: iteration, opening, closing *)

Section DirectoryObjectsTheory.

Context {DR : DirRuntime}.

(** One call of the reader on a handle whose results are all readable:
    it is at the end, having met markers only, or it returns the first entry
    that is no marker and leaves a shorter handle behind. *)
Lemma dir_read_loop_next (h : apr_dir_t) :
  Forall entry_readable h ->
  (dir_read_loop h = (Pushed None, [])
   /\ filter (fun i => negb (is_marker i)) (map snd h) = [])
  \/ exists info rest,
      dir_read_loop h = (Pushed (Some info), rest)
      /\ filter (fun i => negb (is_marker i)) (map snd h)
         = info :: filter (fun i => negb (is_marker i)) (map snd rest)
      /\ Forall entry_readable rest
      /\ (List.length rest < List.length h)%nat.
Proof.
  induction 1 as [|[status info] h Hr Hh IH].
  - left. split; reflexivity.
  - cbn [dir_read_loop map filter snd]. fold (is_marker info).
    assert (Hs : (status =? APR_SUCCESS) || APR_STATUS_IS_INCOMPLETE status
                 = true).
    { destruct Hr as [Hr|Hr]; cbn in Hr; subst status; reflexivity. }
    rewrite Hs. destruct (is_marker info); cbn [negb].
    + destruct IH as [[-> ->]|(i & rest & -> & -> & Hf & Hl)].
      * left. split; reflexivity.
      * right. exists i, rest. cbn [List.length].
        repeat split; trivial. lia.
    + right. exists info, h. cbn [List.length]. repeat split; trivial. lia.
Qed.

(** X8.  A [for] loop over [directory:entries()] of an open directory
    whose reads all succeed ends, and it yields, in the order of the
    directory, every entry that is not a self or parent marker, each once;
    the directory is left open, at its end. *)
Theorem for_entries_yields_every_entry (fuel : nat) :
  forall (directory : lua_apr_dir) (h : apr_dir_t),
    dir_handle directory = Some h ->
    Forall entry_readable h ->
    (List.length h < fuel)%nat ->
    for_entries fuel directory
    = Some (filter (fun i => negb (is_marker i)) (map snd h), Pushed tt,
            set_dir_handle directory (Some [])).
Proof.
  induction fuel as [|fuel IH]; intros directory h Hh Hr Hl; [lia|].
  cbn [for_entries]. unfold dir_read, checkdir. rewrite Hh. cbn [andb].
  destruct (dir_read_loop_next h Hr)
    as [[-> ->]|(info & rest & -> & -> & Hf & Hlen)].
  - reflexivity.
  - rewrite (IH (set_dir_handle directory (Some rest)) rest eq_refl Hf)
      by lia.
    reflexivity.
Qed.

(** X9.  [apr.dir_open] leaves no pool behind when it fails.  When
    [apr_pool_create] fails, its status is the error returned and nothing
    else is called.  When the pool is there and [apr_dir_open] fails, the
    pool just created is destroyed and the status of [apr_dir_open] is the
    error returned.  When both succeed nothing is released: the object
    returned is open on that directory and owns the pool, and its finalizer
    destroys that pool. *)
Theorem dir_open_releases_pool_on_failure (w : world) (filepath : string)
    (pool : nat) :
  (forall s1 w1,
      apr_pool_create w = (s1, w1) -> s1 <> APR_SUCCESS ->
      lua_apr_dir_open w filepath pool = (PushedError s1, w1, None, []))
  /\ (forall w1 s2 h w2,
        apr_pool_create w = (APR_SUCCESS, w1) ->
        apr_dir_open w1 filepath = (s2, h, w2) -> s2 <> APR_SUCCESS ->
        lua_apr_dir_open w filepath pool
        = (PushedError s2, w2, Some pool, [Call_pool_destroy_of pool]))
  /\ (forall w1 h w2,
        apr_pool_create w = (APR_SUCCESS, w1) ->
        apr_dir_open w1 filepath = (APR_SUCCESS, h, w2) ->
        let directory := mk_dir (Some h) pool filepath in
        lua_apr_dir_open w filepath pool = (Pushed directory, w2, Some pool, [])
        /\ filter is_pool_destroy (snd (dir_gc w2 directory))
           = [Call_pool_destroy_of pool]).
Proof.
  unfold lua_apr_dir_open. split; [|split].
  - intros s1 w1 -> Hne.
    assert (E : (APR_SUCCESS =? s1) = false)
      by (apply Z.eqb_neq; congruence).
    rewrite E. reflexivity.
  - intros w1 s2 h w2 -> -> Hne.
    assert (E : (APR_SUCCESS =? s2) = false)
      by (apply Z.eqb_neq; congruence).
    rewrite E. reflexivity.
  - intros w1 h w2 -> ->. cbv zeta.
    split; [reflexivity|].
    unfold dir_gc, checkdir. cbn [dir_handle andb].
    destruct (apr_dir_close w2 h) as [s w3]. reflexivity.
Qed.

(** A closed directory object gives nothing back. *)
Lemma closed_dir_releases_nothing (w : world) (directory : lua_apr_dir)
    (ops : list close_op) :
  dir_handle directory = None -> run_dir_ops w directory ops = [].
Proof.
  revert w directory. induction ops as [|op ops IH]; intros w directory Hh.
  - reflexivity.
  - destruct op; cbn [run_dir_ops]; unfold dir_close, dir_gc, checkdir;
      rewrite Hh; cbn; apply IH; exact Hh.
Qed.

(** X10.  The pool of a directory object is destroyed by the finalizer
    only, and only when the finalizer finds the directory open: over any
    sequence of [directory:close()] and finalizer calls on an open
    directory, the pool is destroyed once if the sequence begins with the
    finalizer and never if it begins with [directory:close()].  A directory
    that was closed by hand keeps its pool. *)
Theorem dir_pool_destroyed_by_first_finalizer_only (w : world)
    (directory : lua_apr_dir) (h : apr_dir_t) (ops : list close_op) :
  dir_handle directory = Some h ->
  filter is_pool_destroy (run_dir_ops w directory ops)
  = match ops with
    | Op_gc :: _ => [Call_pool_destroy_of (dir_memory_pool directory)]
    | _ => []
    end.
Proof.
  intros Hh. destruct ops as [|[|] ops]; [reflexivity| |].
  - cbn [run_dir_ops]. unfold dir_close, checkdir. rewrite Hh. cbn [andb].
    destruct (apr_dir_close w h) as [status w'].
    rewrite closed_dir_releases_nothing by reflexivity. reflexivity.
  - cbn [run_dir_ops]. unfold dir_gc, checkdir. rewrite Hh. cbn [andb].
    destruct (apr_dir_close w h) as [status w'].
    rewrite closed_dir_releases_nothing by reflexivity. reflexivity.
Qed.

Variable apr_dir_rewind : apr_dir_t -> apr_status_t * apr_dir_t.

(** X11.  [directory:close()] closes the object whatever [apr_dir_close]
    answers: it returns what [push_status] makes of the answer, and from
    then on [read], [rewind], [entries] and [close] raise "attempt to use a
    closed directory" and leave the world alone, the finalizer does
    nothing, and [tostring] tells that the directory is closed. *)
Theorem dir_close_always_closes (w : world) (directory : lua_apr_dir)
    (h : apr_dir_t) :
  dir_handle directory = Some h ->
  let '(result, closed, w', calls) := dir_close w directory in
  let raised := ErrorMessage "attempt to use a closed directory" in
  result = push_status (fst (apr_dir_close w h))
  /\ calls = [Call_dir_close_handle]
  /\ dir_read closed = (Raised raised, closed)
  /\ dir_rewind apr_dir_rewind closed = (Raised raised, closed)
  /\ dir_entries closed = Raised raised
  /\ dir_close w' closed = (Raised raised, closed, w', [])
  /\ dir_gc w' closed = (Pushed tt, closed, w', [])
  /\ dir_tostring closed
     = Pushed ("closed directory (" ++ dir_filepath directory ++ ")")%string.
Proof.
  intros Hh. unfold dir_close at 1, checkdir. rewrite Hh. cbn [andb].
  destruct (apr_dir_close w h) as [status w']. cbn.
  repeat split.
Qed.

End DirectoryObjectsTheory.

Lemma for_entries_yields_every_entry_witness :
  for_entries 3 sample_dir
  = Some ([], Pushed tt, mk_dir (Some []) 2 "/tmp/t/sub").
Proof.
  apply (for_entries_yields_every_entry 3 sample_dir
           [sim_marker "."; sim_marker ".."] eq_refl).
  - repeat constructor.
  - cbn. lia.
Defined.

(** Over the small file system [/tmp/nowhere] is no directory: the open
    fails with ENOENT and the pool made for it is destroyed. *)
Lemma dir_open_releases_pool_on_failure_witness :
  @lua_apr_dir_open sim_runtime sample_tree "/tmp/nowhere" 5
  = (PushedError APR_ENOENT, sample_tree, Some 5%nat,
     [Call_pool_destroy_of 5]).
Proof.
  apply (proj1 (proj2 (@dir_open_releases_pool_on_failure sim_runtime
                         sample_tree "/tmp/nowhere" 5))
           sample_tree APR_ENOENT [] sample_tree);
    [reflexivity | reflexivity | discriminate].
Defined.

Lemma dir_pool_destroyed_by_first_finalizer_only_witness :
  filter is_pool_destroy
    (@run_dir_ops sim_runtime sample_tree sample_dir [Op_close; Op_gc; Op_gc])
  = [].
Proof.
  apply (@dir_pool_destroyed_by_first_finalizer_only sim_runtime sample_tree
           sample_dir [sim_marker "."; sim_marker ".."] [Op_close; Op_gc; Op_gc]).
  reflexivity.
Defined.

Lemma dir_close_always_closes_witness :
  dir_read
    (snd (fst (fst (@dir_close sim_runtime sample_tree sample_dir))))
  = (Raised (ErrorMessage "attempt to use a closed directory"),
     snd (fst (fst (@dir_close sim_runtime sample_tree sample_dir)))).
Proof.
  pose proof (@dir_close_always_closes sim_runtime (fun h => (APR_SUCCESS, h))
                sample_tree sample_dir [sim_marker "."; sim_marker ".."]
                eq_refl) as H.
  destruct (@dir_close sim_runtime sample_tree sample_dir)
    as [[[result closed] w'] calls].
  cbn [fst snd]. destruct H as (_ & _ & H & _). exact H.
Defined.

(** ** File objects: closing *)

Section FileCloseTheory.

Context {RT : FileRuntime} {FS : FileServices RT}.

(** X12.  [file:close()] closes the object whatever [apr_file_close]
    answers: the handle is closed, the pool destroyed and the buffer freed,
    and the answer goes to [push_status]; from then on [seek], [flush],
    [lock], [unlock] and [close] raise "attempt to use a closed file"
    without calling the runtime, and the finalizer releases nothing more. *)
Theorem file_close_always_closes (file : lua_apr_file) (h : apr_file_t) :
  handle file = Some h ->
  let '(result, closed, calls) := file_close file in
  let raised := ErrorMessage "attempt to use a closed file" in
  result = push_status (apr_file_close h)
  /\ calls = [Call_file_close; Call_pool_destroy_of (memory_pool file);
              Call_free_buffer]
  /\ (forall whence offset,
        file_seek closed whence offset = (Raised raised, closed))
  /\ file_flush closed = (Raised raised, [])
  /\ (forall (N : Type) type (nonblocking : option (lua_value N)),
        file_lock closed type nonblocking = (Raised raised, []))
  /\ file_unlock closed = (Raised raised, [])
  /\ file_close closed = (Raised raised, closed, [])
  /\ file_gc closed = (Pushed tt, closed, []).
Proof.
  intros Hh. unfold file_close at 1, file_close_real, file_check.
  rewrite Hh. cbn [andb]. repeat split.
Qed.

End FileCloseTheory.

Lemma file_close_always_closes_witness :
  @file_flush posix_runtime sample_services
    (snd (fst (@file_close posix_runtime sample_file)))
  = (Raised (ErrorMessage "attempt to use a closed file"), []).
Proof.
  pose proof (@file_close_always_closes posix_runtime sample_services
                sample_file sample_descriptor eq_refl) as H.
  destruct (@file_close posix_runtime sample_file) as [[result closed] calls].
  cbn [fst snd]. destruct H as (_ & _ & _ & H & _). exact H.
Defined.

(** ** apr.dir_remove_recursive: the first failure *)

Lemma first_failure_app (a b : list action) :
  first_failure (a ++ b)
  = match first_failure a with
    | Some s => Some s
    | None => first_failure b
    end.
Proof.
  induction a as [|x a IH]; cbn; [reflexivity|].
  destruct (failure_of x); [reflexivity | exact IH].
Qed.

Lemma after_first_failure_app (a b : list action) :
  after_first_failure (a ++ b)
  = match first_failure a with
    | Some _ => after_first_failure a ++ b
    | None => after_first_failure b
    end.
Proof.
  induction a as [|x a IH]; cbn; [reflexivity|].
  destruct (failure_of x); [reflexivity | exact IH].
Qed.

Lemma first_failure_clear (n : Z) (p : pool) (c : Z) :
  first_failure (clear_every n p c) = None.
Proof. unfold clear_every. destruct (Z.rem c n =? 0); reflexivity. Qed.

Lemma failure_not_success (a : action) (s : apr_status_t) :
  failure_of a = Some s -> s <> APR_SUCCESS.
Proof.
  destruct a as [p st| | |st0 ok|st0 fp ok|fp st|st info|st|r ad p st m|fp st|fp st];
    cbn [failure_of]; try discriminate;
    try (destruct (st =? APR_SUCCESS) eqn:E; [discriminate|];
         intros H; injection H as <-; apply Z.eqb_neq; exact E);
    try (destruct ok; [discriminate|]; intros H; injection H as <-;
         discriminate).
  cbn [is_failed_read].
  destruct (negb (APR_STATUS_IS_ENOENT st)); [|discriminate].
  destruct (st =? APR_SUCCESS) eqn:E; [discriminate|].
  cbn. destruct (negb (st =? APR_INCOMPLETE)); [|discriminate].
  intros H. injection H as <-. apply Z.eqb_neq. exact E.
Qed.

(** The first failing call, found from a split of the trace. *)
Lemma first_failure_split (pre post : list action) (a : action)
    (s : apr_status_t) :
  first_failure pre = None -> failure_of a = Some s ->
  first_failure (pre ++ a :: post) = Some s
  /\ after_first_failure (pre ++ a :: post) = post.
Proof.
  intros Hp Ha. rewrite first_failure_app, after_first_failure_app, Hp.
  cbn. rewrite Ha. split; reflexivity.
Qed.

(** Bring the tests recorded on a path to bear on the goal. *)
Ltac known_tests :=
  repeat match goal with
    | H : negb _ = true |- _ => apply negb_true_iff in H
    | H : negb _ = false |- _ => apply negb_false_iff in H
    | H : (?s =? APR_SUCCESS) = true |- _ => apply Z.eqb_eq in H; subst s
    end.

Ltac use_tests :=
  repeat match goal with
    | H : (?s =? APR_SUCCESS) = false |- context [?s =? APR_SUCCESS] =>
        rewrite H
    | H : APR_STATUS_IS_ENOENT ?s = _
      |- context [APR_STATUS_IS_ENOENT ?s] => rewrite H
    | H : negb (?s =? APR_SUCCESS) && negb (?s =? APR_INCOMPLETE) = _
      |- context [negb (?s =? APR_SUCCESS) && negb (?s =? APR_INCOMPLETE)] =>
        rewrite H
    end.

Ltac failure_simpl :=
  cbn [fst snd emit];
  trace_uncons;
  rewrite ?first_failure_app, ?after_first_failure_app, ?first_failure_clear;
  cbn [first_failure after_first_failure failure_of is_failed_read
       negb andb app];
  use_tests;
  cbn [first_failure after_first_failure failure_of is_failed_read
       negb andb app Z.eqb APR_SUCCESS].

Section FailureTheory.

Context {DR : DirRuntime}.

Lemma read_entries_failure (w : world) (D : string) (directory : apr_dir_t)
    (todo : list string) (c : Z) :
  after_first_failure (fst (read_entries w D directory todo c)) = []
  /\ first_failure (fst (read_entries w D directory todo c))
     = match snd (read_entries w D directory todo c) with
       | Entries_abort s _ _ => Some s
       | Entries_done _ _ _ _ => None
       end.
Proof.
  functional induction (read_entries w D directory todo c);
    known_tests; repeat failure_simpl;
    try (split; reflexivity); try assumption.
Qed.


Ltac use_read_failure :=
  match goal with
  | H : read_entries ?w ?D ?d ?t ?c = (?body, ?r) |- _ =>
      let Hf := fresh "Hfail" in
      pose proof (read_entries_failure w D d t c) as Hf;
      rewrite H in Hf; cbn [fst snd] in Hf;
      let H1 := fresh "Hafter" in
      let H2 := fresh "Hfirst" in
      destruct Hf as [H1 H2]
  end.

Lemma walk_failure (fuel : nat) (w : world) (todo done : list string) (c : Z) :
  after_first_failure (fst (walk fuel w todo done c)) = []
  /\ first_failure (fst (walk fuel w todo done c))
     = match snd (walk fuel w todo done c) with
       | Walk_abort s _ _ => Some s
       | _ => None
       end.
Proof.
  functional induction (walk fuel w todo done c);
    try use_read_failure; known_tests; repeat failure_simpl;
    try (split; reflexivity);
    try (rewrite ?Hfirst, ?Hafter; repeat failure_simpl;
         try (split; reflexivity); try assumption).
Qed.

Lemma remove_dirs_failure (w : world) (done : list string) (c : Z) :
  after_first_failure (fst (remove_dirs w done c)) = []
  /\ first_failure (fst (remove_dirs w done c))
     = if fst (snd (remove_dirs w done c)) =? APR_SUCCESS then None
       else Some (fst (snd (remove_dirs w done c))).
Proof.
  functional induction (remove_dirs w done c);
    known_tests; repeat failure_simpl;
    try (split; reflexivity); try assumption.
Qed.

Lemma create_pools_failure (w : world) :
  after_first_failure (fst (create_pools w)) = []
  /\ first_failure (fst (create_pools w))
     = if fst (fst (snd (create_pools w))) =? APR_SUCCESS then None
       else Some (fst (fst (snd (create_pools w)))).
Proof.
  unfold create_pools.
  destruct (apr_pool_create w) as [s1 w1].
  destruct (s1 =? APR_SUCCESS) eqn:E1.
  2:{ cbn. rewrite E1. split; reflexivity. }
  destruct (apr_pool_create w1) as [s2 w2].
  destruct (s2 =? APR_SUCCESS) eqn:E2.
  2:{ cbn. rewrite E1, E2. split; reflexivity. }
  destruct (apr_pool_create w2) as [s3 w3].
  cbn. rewrite E1, E2.
  destruct (s3 =? APR_SUCCESS) eqn:E3; split; reflexivity.
Qed.

Lemma destroys_wind_down (pools : list pool) :
  forallb is_winding_down (map Call_pool_destroy pools) = true
  /\ first_failure (map Call_pool_destroy pools) = None.
Proof. induction pools as [|p pools [IH1 IH2]]; split; trivial. Qed.

Lemma cleanup_winds_down (w : world) (directory : option apr_dir_t)
    (pools : list pool) :
  forallb is_winding_down (fst (cleanup w directory pools)) = true
  /\ (directory = None -> first_failure (fst (cleanup w directory pools)) = None).
Proof.
  unfold cleanup. destruct (destroys_wind_down pools) as [H1 H2].
  destruct directory as [d|].
  - destruct (apr_dir_close w d) as [s w']. cbn [fst]. split; [exact H1|].
    discriminate.
  - cbn [fst app]. split; [exact H1 | intros _; exact H2].
Qed.

(** The status of the whole function is that of the first call that
    failed, after which only the calls of the cleanup are made. *)
Lemma remove_recursive_failure (fuel : nat) (w : world) (root : string)
    (tr : list action) (status : option apr_status_t) (w' : world) :
  remove_recursive_status fuel w root = (tr, status, w') ->
  match status with
  | Some s =>
      s = match first_failure tr with Some f => f | None => APR_SUCCESS end
      /\ forallb is_winding_down (after_first_failure tr) = true
  | None => first_failure tr = None
  end.
Proof.
  unfold remove_recursive_status. intros H.
  destruct (create_pools_failure w) as [Ha0 Hf0].
  destruct (create_pools w) as [t0 [[st pools] w0]]. cbn [fst snd] in *.
  destruct (st =? APR_SUCCESS) eqn:Est; cbn [negb] in H.
  2:{ destruct (cleanup_winds_down w0 None pools) as [Hw _].
      destruct (cleanup w0 None pools) as [t9 w9]. cbn [fst] in *.
      injection H as <- <- <-.
      rewrite first_failure_app, after_first_failure_app, Hf0, Ha0.
      split; [reflexivity | exact Hw]. }
  apply Z.eqb_eq in Est. subst st.
  destruct (apr_array_alloc w0) as [ok1 w1].
  destruct (apr_array_alloc w1) as [ok2 w2].
  destruct ok1; cbn [negb orb] in H.
  2:{ destruct (cleanup_winds_down w2 None pools) as [Hw _].
      destruct (cleanup w2 None pools) as [t9 w9]. cbn [fst] in *.
      injection H as <- <- <-.
      rewrite first_failure_app, after_first_failure_app, Hf0.
      cbn. split; [reflexivity | exact Hw]. }
  destruct ok2; cbn [negb] in H.
  2:{ destruct (cleanup_winds_down w2 None pools) as [Hw _].
      destruct (cleanup w2 None pools) as [t9 w9]. cbn [fst] in *.
      injection H as <- <- <-.
      rewrite first_failure_app, after_first_failure_app, Hf0.
      cbn. split; [reflexivity | exact Hw]. }
  destruct (apr_array_alloc w2) as [ok3 w3].
  destruct ok3; cbn [negb] in H.
  2:{ destruct (cleanup_winds_down w3 None pools) as [Hw _].
      destruct (cleanup w3 None pools) as [t9 w9]. cbn [fst] in *.
      injection H as <- <- <-.
      rewrite first_failure_app, after_first_failure_app, Hf0.
      cbn. split; [reflexivity | exact Hw]. }
  destruct (walk_failure fuel w3 [root] [] 0) as [Ha3 Hf3].
  destruct (walk fuel w3 [root] [] 0) as [t3 out]. cbn [fst snd] in *.
  destruct out as [w4 done c | st' w4 directory | w4 td dn c].
  - destruct (remove_dirs_failure w4 done c) as [Ha4 Hf4].
    destruct (remove_dirs w4 done c) as [t4 [st' w5]]. cbn [fst snd] in *.
    destruct (cleanup_winds_down w5 None pools) as [Hw Hn].
    destruct (cleanup w5 None pools) as [t9 w9]. cbn [fst] in *.
    injection H as <- <- <-.
    rewrite !first_failure_app, !after_first_failure_app, Hf0.
    cbn [first_failure after_first_failure failure_of app].
    rewrite !first_failure_app, !after_first_failure_app, Hf3, Hf4.
    destruct (st' =? APR_SUCCESS) eqn:E.
    + apply Z.eqb_eq in E. subst st'. rewrite (Hn eq_refl).
      split; [reflexivity|].
      clear - Hw. induction t9 as [|a t9 IH]; [reflexivity|].
      cbn in Hw. apply andb_prop in Hw. destruct Hw as [Hw1 Hw2].
      cbn. destruct (failure_of a); [exact Hw2 | apply IH, Hw2].
    + rewrite Ha4. cbn [app]. split; [reflexivity | exact Hw].
  - destruct (cleanup_winds_down w4 directory pools) as [Hw _].
    destruct (cleanup w4 directory pools) as [t9 w9]. cbn [fst] in *.
    injection H as <- <- <-.
    rewrite !first_failure_app, !after_first_failure_app, Hf0.
    cbn [first_failure after_first_failure failure_of app].
    rewrite !first_failure_app, !after_first_failure_app, Hf3, Ha3.
    cbn [app]. split; [reflexivity | exact Hw].
  - injection H as <- <- <-.
    rewrite !first_failure_app, Hf0.
    cbn [first_failure failure_of app]. exact Hf3.
Qed.

End FailureTheory.

(** ** apr.dir_remove_recursive: what a successful run did *)

Lemma first_failure_not_success (tr : list action) (s : apr_status_t) :
  first_failure tr = Some s -> s <> APR_SUCCESS.
Proof.
  induction tr as [|a tr IH]; cbn; [discriminate|].
  destruct (failure_of a) eqn:E; [|exact IH].
  intros H. injection H as <-. exact (failure_not_success _ _ E).
Qed.

Lemma opened_app (a b : list action) : opened (a ++ b) = opened a ++ opened b.
Proof. apply flat_map_app. Qed.

Lemma files_removed_app (a b : list action) :
  files_removed (a ++ b) = files_removed a ++ files_removed b.
Proof. apply flat_map_app. Qed.

Lemma files_met_app (a b : list action) :
  files_met (a ++ b) = files_met a ++ files_met b.
Proof. apply flat_map_app. Qed.

Lemma opened_clear (n : Z) (p : pool) (c : Z) : opened (clear_every n p c) = [].
Proof. unfold clear_every. destruct (Z.rem c n =? 0); reflexivity. Qed.

Lemma files_removed_clear (n : Z) (p : pool) (c : Z) :
  files_removed (clear_every n p c) = [].
Proof. unfold clear_every. destruct (Z.rem c n =? 0); reflexivity. Qed.

Lemma files_met_clear (n : Z) (p : pool) (c : Z) :
  files_met (clear_every n p c) = [].
Proof. unfold clear_every. destruct (Z.rem c n =? 0); reflexivity. Qed.

Ltac paths_simpl :=
  cbn [fst snd emit];
  trace_uncons;
  rewrite ?opened_app, ?files_removed_app, ?files_met_app, ?opened_clear,
    ?files_removed_clear, ?files_met_clear;
  cbn [opened files_removed files_met flat_map app];
  use_tests;
  cbn [opened files_removed files_met flat_map app Z.eqb APR_SUCCESS];
  rewrite ?app_nil_r.

Section PathsTheory.

Context {DR : DirRuntime}.

(** The inner loop opens no directory, and hands to [apr_file_remove]
    every path it built in the inner pool, and nothing else. *)
Lemma read_entries_paths (w : world) (D : string) (directory : apr_dir_t)
    (todo : list string) (c : Z) :
  opened (fst (read_entries w D directory todo c)) = []
  /\ files_removed (fst (read_entries w D directory todo c))
     = files_met (fst (read_entries w D directory todo c)).
Proof.
  functional induction (read_entries w D directory todo c);
    known_tests; repeat paths_simpl;
    try (split; reflexivity); try assumption.
  - destruct IHp as [-> ->]. split; reflexivity.
Qed.

Ltac use_read_paths :=
  match goal with
  | H : read_entries ?w ?D ?d ?t ?c = (?body, ?r) |- _ =>
      let Hp := fresh "Hpaths" in
      pose proof (read_entries_paths w D d t c) as Hp;
      rewrite H in Hp; cbn [fst snd] in Hp;
      let H1 := fresh "Hopened" in
      let H2 := fresh "Hfiles" in
      destruct Hp as [H1 H2]
  end.

Lemma walk_files (fuel : nat) (w : world) (todo done : list string) (c : Z) :
  files_removed (fst (walk fuel w todo done c))
  = files_met (fst (walk fuel w todo done c)).
Proof.
  functional induction (walk fuel w todo done c);
    try use_read_paths; repeat paths_simpl; try reflexivity;
    try (rewrite ?Hfiles; congruence).
Qed.

(** When the first loop ends with [todo] empty, the directories it opened
    are those it pushed on [done], in that order, beginning with the top of
    [todo]. *)
Lemma walk_done_opened (fuel : nat) (w : world) (todo done : list string)
    (c : Z) :
  forall w' done' c',
    snd (walk fuel w todo done c) = Walk_done w' done' c' ->
    opened (fst (walk fuel w todo done c))
    = completed (fst (walk fuel w todo done c))
    /\ forall x todo', todo = x :: todo' ->
         exists l, completed (fst (walk fuel w todo done c)) = x :: l.
Proof.
  functional induction (walk fuel w todo done c);
    intros w' done' c' H; cbn [snd emit] in H; try discriminate;
    try use_read_paths; try use_read_entries.
  - split; [reflexivity | discriminate].
  - destruct (IHp _ _ _ H) as [IH _]. known_tests.
    repeat paths_simpl. trace_simpl. rewrite Hopened, IH.
    split; [reflexivity|].
    intros x todo0 E. injection E as <- <-. eexists. reflexivity.
Qed.

(** When the fuel runs out, every unit of it went into opening a
    directory. *)
Lemma walk_fuel_opened (fuel : nat) (w : world) (todo done : list string)
    (c : Z) :
  forall w' todo' done' c',
    snd (walk fuel w todo done c) = Walk_out_of_fuel w' todo' done' c' ->
    List.length (opened (fst (walk fuel w todo done c))) = fuel.
Proof.
  functional induction (walk fuel w todo done c);
    intros w' todo0 done0 c' H; cbn [snd emit] in H; try discriminate;
    try use_read_paths.
  - reflexivity.
  - repeat paths_simpl. rewrite Hopened. cbn [app List.length].
    f_equal. exact (IHp _ _ _ _ H).
Qed.

Lemma remove_dirs_paths (w : world) (done : list string) (c : Z) :
  opened (fst (remove_dirs w done c)) = []
  /\ files_removed (fst (remove_dirs w done c)) = []
  /\ files_met (fst (remove_dirs w done c)) = []
  /\ (fst (snd (remove_dirs w done c)) = APR_SUCCESS ->
      removals (fst (remove_dirs w done c)) = done).
Proof.
  functional induction (remove_dirs w done c); repeat paths_simpl.
  - repeat split; reflexivity.
  - repeat split; try reflexivity.
    cbn [fst snd]. intros ->. discriminate.
  - destruct IHp as (-> & -> & -> & IH). repeat split; try reflexivity.
    trace_simpl. intros Hs. rewrite (IH Hs). reflexivity.
Qed.

End PathsTheory.

(** ** apr.dir_remove_recursive: the calls of each part *)

Lemma loop_calls_clear (n : Z) (c : Z) :
  forallb is_loop_call (clear_every n inner_pool c) = true
  /\ forallb is_loop_call (clear_every n middle_pool c) = true.
Proof. unfold clear_every. destruct (Z.rem c n =? 0); split; reflexivity. Qed.

(** What holds of no call of a kind holds of no call of a trace made of
    that kind. *)
Lemma flat_map_none {B : Type} (f : action -> list B) (q : action -> bool)
    (tr : list action) :
  forallb q tr = true -> (forall a, q a = true -> f a = []) ->
  flat_map f tr = [].
Proof.
  intros Hq Hf. induction tr as [|a tr IH]; [reflexivity|].
  cbn in *. apply andb_prop in Hq. destruct Hq as [Ha Hq].
  rewrite (Hf a Ha), (IH Hq). reflexivity.
Qed.

Ltac calls_simpl :=
  cbn [fst snd emit];
  trace_uncons;
  rewrite ?forallb_app;
  rewrite ?(proj1 (loop_calls_clear _ _)), ?(proj2 (loop_calls_clear _ _));
  cbn [forallb is_loop_call andb];
  repeat match goal with
    | H : filename_symbolic ?n = false |- context [filename_symbolic ?n] =>
        rewrite H
    end;
  cbn [negb andb].

Section CallsTheory.

Context {DR : DirRuntime}.

Lemma read_entries_calls (w : world) (D : string) (directory : apr_dir_t)
    (todo : list string) (c : Z) :
  forallb is_loop_call (fst (read_entries w D directory todo c)) = true.
Proof.
  functional induction (read_entries w D directory todo c);
    repeat calls_simpl; try reflexivity; try assumption.
Qed.

Lemma walk_calls (fuel : nat) (w : world) (todo done : list string) (c : Z) :
  forallb is_loop_call (fst (walk fuel w todo done c)) = true.
Proof.
  functional induction (walk fuel w todo done c);
    try match goal with
      | H : read_entries ?w ?D ?d ?t ?c = (?body, ?r) |- _ =>
          let Hc := fresh "Hcalls" in
          pose proof (read_entries_calls w D d t c) as Hc;
          rewrite H in Hc; cbn [fst] in Hc
      end;
    repeat calls_simpl; rewrite ?Hcalls; try reflexivity; try assumption.
Qed.

Lemma remove_dirs_calls (w : world) (done : list string) (c : Z) :
  forallb is_loop_call (fst (remove_dirs w done c)) = true.
Proof.
  functional induction (remove_dirs w done c);
    repeat calls_simpl; try reflexivity; try assumption.
Qed.

Lemma create_pools_calls (w : world) :
  forallb is_setup_call (fst (create_pools w)) = true
  /\ snd (fst (snd (create_pools w))) = rev (pools_created (fst (create_pools w))).
Proof.
  unfold create_pools.
  destruct (apr_pool_create w) as [s1 w1].
  destruct (s1 =? APR_SUCCESS) eqn:E1.
  2:{ cbn. rewrite E1. split; reflexivity. }
  destruct (apr_pool_create w1) as [s2 w2].
  destruct (s2 =? APR_SUCCESS) eqn:E2.
  2:{ cbn. rewrite E1, E2. split; reflexivity. }
  destruct (apr_pool_create w2) as [s3 w3].
  cbn. rewrite E1, E2.
  destruct (s3 =? APR_SUCCESS) eqn:E3; split; reflexivity.
Qed.

Lemma cleanup_calls (w : world) (directory : option apr_dir_t)
    (pools : list pool) :
  exists close,
    fst (cleanup w directory pools) = close ++ map Call_pool_destroy pools
    /\ (close = [] \/ exists s, close = [Call_dir_close s]).
Proof.
  unfold cleanup. destruct directory as [d|].
  - destruct (apr_dir_close w d) as [s w']. exists [Call_dir_close s].
    split; [reflexivity | right; exists s; reflexivity].
  - exists []. split; [reflexivity | left; reflexivity].
Qed.

(** The calls of the function: those of the setup, those of the two loops
    and, unless the fuel ran out, those of the cleanup, which destroys the
    pools that were created, the last one first. *)
Lemma remove_recursive_calls (fuel : nat) (w : world) (root : string)
    (tr : list action) (status : option apr_status_t) (w' : world) :
  remove_recursive_status fuel w root = (tr, status, w') ->
  exists hdr t3 t4 ftr,
    tr = hdr ++ t3 ++ t4 ++ ftr
    /\ forallb is_setup_call hdr = true
    /\ (t3 = [] \/ exists w3, t3 = fst (walk fuel w3 [root] [] 0))
    /\ (t4 = [] \/ exists w4 done c, t4 = fst (remove_dirs w4 done c))
    /\ match status with
       | Some _ =>
           exists close,
             ftr = close ++ map Call_pool_destroy (rev (pools_created hdr))
             /\ (close = [] \/ exists s, close = [Call_dir_close s])
       | None => ftr = []
       end.
Proof.
  unfold remove_recursive_status. intros H.
  destruct (create_pools_calls w) as [Hs0 Hp0].
  destruct (create_pools w) as [t0 [[st pools] w0]]. cbn [fst snd] in *.
  subst pools.
  assert (Hmk : forall t, forallb is_setup_call t = true ->
                  pools_created t = [] ->
                  forallb is_setup_call (t0 ++ t) = true
                  /\ pools_created (t0 ++ t) = pools_created t0).
  { intros t Ht Hc. rewrite forallb_app, Hs0, Ht. split; [reflexivity|].
    unfold pools_created in *. rewrite flat_map_app, Hc. apply app_nil_r. }
  destruct (negb (st =? APR_SUCCESS)).
  { destruct (cleanup_calls w0 None (rev (pools_created t0)))
      as (close & Hc & Hclose).
    destruct (cleanup w0 None _) as [t9 w9]. cbn [fst] in *.
    injection H as <- <- <-. exists t0, [], [], t9. cbn [app].
    split; [reflexivity|]. split; [exact Hs0|].
    split; [left; reflexivity|]. split; [left; reflexivity|].
    exists close. split; assumption. }
  destruct (apr_array_alloc w0) as [ok1 w1].
  destruct (apr_array_alloc w1) as [ok2 w2].
  destruct (Hmk [Call_array_make stack_todo ok1; Call_array_make stack_done ok2]
              eq_refl eq_refl) as [Hs1 Hp1].
  destruct (negb ok1 || negb ok2).
  { destruct (cleanup_calls w2 None (rev (pools_created t0)))
      as (close & Hc & Hclose).
    destruct (cleanup w2 None _) as [t9 w9]. cbn [fst] in *.
    injection H as <- <- <-.
    exists (t0 ++ [Call_array_make stack_todo ok1;
                   Call_array_make stack_done ok2]), [], [], t9.
    split; [rewrite <- !app_assoc; reflexivity|]. split; [exact Hs1|].
    split; [left; reflexivity|]. split; [left; reflexivity|].
    exists close. rewrite Hp1. split; assumption. }
  destruct (apr_array_alloc w2) as [ok3 w3].
  destruct (Hmk [Call_array_make stack_todo ok1; Call_array_make stack_done ok2;
                 Call_array_push stack_todo root ok3]
              eq_refl eq_refl) as [Hs2 Hp2].
  destruct (negb ok3).
  { destruct (cleanup_calls w3 None (rev (pools_created t0)))
      as (close & Hc & Hclose).
    destruct (cleanup w3 None _) as [t9 w9]. cbn [fst] in *.
    injection H as <- <- <-.
    exists (t0 ++ [Call_array_make stack_todo ok1;
                   Call_array_make stack_done ok2;
                   Call_array_push stack_todo root ok3]), [], [], t9.
    split; [rewrite <- !app_assoc; reflexivity|]. split; [exact Hs2|].
    split; [left; reflexivity|]. split; [left; reflexivity|].
    exists close. rewrite Hp2. split; assumption. }
  destruct (walk fuel w3 [root] [] 0) as [t3 out] eqn:Ew.
  destruct out as [w4 done c | st' w4 directory | w4 td dn c].
  - destruct (remove_dirs w4 done c) as [t4 [st' w5]] eqn:Er.
    destruct (cleanup_calls w5 None (rev (pools_created t0)))
      as (close & Hc & Hclose).
    destruct (cleanup w5 None _) as [t9 w9]. cbn [fst] in *.
    injection H as <- <- <-.
    exists (t0 ++ [Call_array_make stack_todo ok1;
                   Call_array_make stack_done ok2;
                   Call_array_push stack_todo root ok3]), t3, t4, t9.
    split; [rewrite <- !app_assoc; reflexivity|]. split; [exact Hs2|].
    split; [right; exists w3; rewrite Ew; reflexivity|].
    split; [right; exists w4, done, c; rewrite Er; reflexivity|].
    exists close. rewrite Hp2. split; assumption.
  - destruct (cleanup_calls w4 directory (rev (pools_created t0)))
      as (close & Hc & Hclose).
    destruct (cleanup w4 directory _) as [t9 w9]. cbn [fst] in *.
    injection H as <- <- <-.
    exists (t0 ++ [Call_array_make stack_todo ok1;
                   Call_array_make stack_done ok2;
                   Call_array_push stack_todo root ok3]), t3, [], t9.
    split; [rewrite <- !app_assoc; reflexivity|]. split; [exact Hs2|].
    split; [right; exists w3; rewrite Ew; reflexivity|].
    split; [left; reflexivity|].
    exists close. rewrite Hp2. split; assumption.
  - injection H as <- <- <-.
    exists (t0 ++ [Call_array_make stack_todo ok1;
                   Call_array_make stack_done ok2;
                   Call_array_push stack_todo root ok3]), t3, [], [].
    split; [rewrite <- !app_assoc, app_nil_r; reflexivity|].
    split; [exact Hs2|].
    split; [right; exists w3; rewrite Ew; reflexivity|].
    split; [left; reflexivity | reflexivity].
Qed.

(** The calls of a run that ended with success. *)
Lemma remove_recursive_success (fuel : nat) (w : world) (root : string)
    (tr : list action) (w' : world) :
  remove_recursive_status fuel w root = (tr, Some APR_SUCCESS, w') ->
  exists w3 w4 done c,
    snd (walk fuel w3 [root] [] 0) = Walk_done w4 done c
    /\ fst (snd (remove_dirs w4 done c)) = APR_SUCCESS
    /\ tr = [Call_pool_create outer_pool APR_SUCCESS;
             Call_pool_create middle_pool APR_SUCCESS;
             Call_pool_create inner_pool APR_SUCCESS;
             Call_array_make stack_todo true; Call_array_make stack_done true;
             Call_array_push stack_todo root true]
            ++ fst (walk fuel w3 [root] [] 0)
            ++ fst (remove_dirs w4 done c)
            ++ [Call_pool_destroy inner_pool; Call_pool_destroy middle_pool;
                Call_pool_destroy outer_pool].
Proof.
  unfold remove_recursive_status, create_pools, cleanup. intros H.
  destruct (apr_pool_create w) as [s1 w1].
  destruct (s1 =? APR_SUCCESS) eqn:E1.
  2:{ rewrite E1 in H. cbn in H. injection H as _ Hs _.
      rewrite Hs in E1. discriminate. }
  destruct (apr_pool_create w1) as [s2 w2].
  destruct (s2 =? APR_SUCCESS) eqn:E2.
  2:{ rewrite E2 in H. cbn in H. injection H as _ Hs _.
      rewrite Hs in E2. discriminate. }
  destruct (apr_pool_create w2) as [s3 w0].
  destruct (s3 =? APR_SUCCESS) eqn:E3; cbn [negb] in H.
  2:{ injection H as _ Hs _. rewrite Hs in E3. discriminate. }
  apply Z.eqb_eq in E1, E2, E3. subst s1 s2 s3.
  destruct (apr_array_alloc w0) as [ok1 wa].
  destruct (apr_array_alloc wa) as [ok2 wb].
  destruct ok1; cbn [negb orb] in H; [|discriminate].
  destruct ok2; cbn [negb] in H; [|discriminate].
  destruct (apr_array_alloc wb) as [ok3 w3].
  destruct ok3; cbn [negb] in H; [|discriminate].
  pose proof (walk_failure fuel w3 [root] [] 0) as [_ Hf3].
  destruct (walk fuel w3 [root] [] 0) as [t3 out] eqn:Ew. cbn [fst snd] in *.
  destruct out as [w4 done c | st' w4 directory | w4 td dn c].
  - destruct (remove_dirs w4 done c) as [t4 [st' w5]] eqn:Er.
    injection H as <- Hs <-. subst st'.
    exists w3, w4, done, c. rewrite Ew, Er. cbn [fst snd].
    split; [reflexivity|]. split; [reflexivity|]. reflexivity.
  - destruct directory as [d|]; [destruct (apr_dir_close w4 d)|];
      injection H as _ Hs _; subst st';
      apply first_failure_not_success in Hf3; contradiction.
  - discriminate.
Qed.

End CallsTheory.

(** ** apr.dir_remove_recursive: the directory handle *)

Lemma handles_ok_app (o : bool) (a b : list action) :
  handles_ok o (a ++ b)
  = handles_ok o a && handles_ok (fold_left handle_step a o) b.
Proof.
  revert o. induction a as [|x a IH]; intros o; cbn; [reflexivity|].
  rewrite IH, andb_assoc. reflexivity.
Qed.

Lemma handles_ok_split (o : bool) (pre post : list action) (a : action) :
  handles_ok o (pre ++ a :: post) = true ->
  handle_use_ok (fold_left handle_step pre o) a = true.
Proof.
  rewrite handles_ok_app. cbn. intros H.
  apply andb_prop in H. destruct H as [_ H].
  apply andb_prop in H. tauto.
Qed.

Lemma handles_seq (o o1 o2 : bool) (a b : list action) :
  handles_ok o a = true /\ fold_left handle_step a o = o1 ->
  handles_ok o1 b = true /\ fold_left handle_step b o1 = o2 ->
  handles_ok o (a ++ b) = true /\ fold_left handle_step (a ++ b) o = o2.
Proof.
  intros [H1 H2] [H3 H4].
  rewrite handles_ok_app, fold_left_app, H1, H2, H3, H4. split; reflexivity.
Qed.

Lemma handles_clear_inner (o : bool) (n c : Z) :
  handles_ok o (clear_every n inner_pool c) = true
  /\ fold_left handle_step (clear_every n inner_pool c) o = o.
Proof. unfold clear_every. destruct (Z.rem c n =? 0); split; reflexivity. Qed.

Lemma handles_clear_middle (n c : Z) :
  handles_ok false (clear_every n middle_pool c) = true
  /\ fold_left handle_step (clear_every n middle_pool c) false = false.
Proof. unfold clear_every. destruct (Z.rem c n =? 0); split; reflexivity. Qed.

Lemma handles_setup (tr : list action) :
  forallb is_setup_call tr = true ->
  handles_ok false tr = true /\ fold_left handle_step tr false = false.
Proof.
  induction tr as [|a tr IH]; [split; reflexivity|].
  cbn. intros H. apply andb_prop in H. destruct H as [Ha H].
  destruct a as [p st| | |st0 ok|[|] fp ok|fp st|st info|st|r ad p st m|fp st|fp st];
    try discriminate; cbn; apply IH, H.
Qed.

Lemma handles_destroys (pools : list pool) :
  handles_ok false (map Call_pool_destroy pools) = true
  /\ fold_left handle_step (map Call_pool_destroy pools) false = false.
Proof.
  induction pools as [|p pools [IH1 IH2]]; [split; reflexivity|].
  cbn. rewrite IH1, IH2. destruct p; split; reflexivity.
Qed.

Ltac handles_simpl :=
  cbn [fst snd emit];
  trace_uncons;
  rewrite ?handles_ok_app, ?fold_left_app;
  rewrite ?(proj1 (handles_clear_inner _ _ _)),
    ?(proj2 (handles_clear_inner _ _ _)),
    ?(proj1 (handles_clear_middle _ _)), ?(proj2 (handles_clear_middle _ _));
  cbn [handles_ok handle_use_ok handle_step fold_left andb negb];
  use_tests;
  cbn [handles_ok handle_use_ok handle_step fold_left andb negb Z.eqb
       APR_SUCCESS].

Section HandleTheory.

Context {DR : DirRuntime}.

Lemma read_entries_handles (w : world) (D : string) (directory : apr_dir_t)
    (todo : list string) (c : Z) :
  handles_ok true (fst (read_entries w D directory todo c)) = true
  /\ fold_left handle_step (fst (read_entries w D directory todo c)) true
     = true.
Proof.
  functional induction (read_entries w D directory todo c);
    repeat handles_simpl; try (split; reflexivity); try assumption.
Qed.

Lemma walk_handles (fuel : nat) (w : world) (todo done : list string) (c : Z) :
  handles_ok false (fst (walk fuel w todo done c)) = true
  /\ fold_left handle_step (fst (walk fuel w todo done c)) false
     = match snd (walk fuel w todo done c) with
       | Walk_abort _ _ (Some _) => true
       | _ => false
       end.
Proof.
  functional induction (walk fuel w todo done c);
    try match goal with
      | H : read_entries ?w ?D ?d ?t ?c = (?body, ?r) |- _ =>
          let Hh := fresh "Hh" in
          pose proof (read_entries_handles w D d t c) as Hh;
          rewrite H in Hh; cbn [fst] in Hh; destruct Hh as [Hh1 Hh2]
      end;
    known_tests; repeat handles_simpl;
    rewrite ?Hh1, ?Hh2; repeat handles_simpl;
    try (split; reflexivity); try assumption.
Qed.

Lemma remove_dirs_handles (w : world) (done : list string) (c : Z) :
  handles_ok false (fst (remove_dirs w done c)) = true
  /\ fold_left handle_step (fst (remove_dirs w done c)) false = false.
Proof.
  functional induction (remove_dirs w done c);
    repeat handles_simpl; try (split; reflexivity); try assumption.
Qed.

(** Over the whole function the handle is used as it must be, and it is
    closed when the function returns. *)
Lemma remove_recursive_handles (fuel : nat) (w : world) (root : string)
    (tr : list action) (status : option apr_status_t) (w' : world) :
  remove_recursive_status fuel w root = (tr, status, w') ->
  handles_ok false tr = true
  /\ (status <> None -> handle_open tr = false).
Proof.
  unfold remove_recursive_status, handle_open. intros H.
  destruct (create_pools_calls w) as [Hs0 _].
  destruct (create_pools w) as [t0 [[st pools] w0]]. cbn [fst snd] in *.
  assert (Hsetup : forall t, forallb is_setup_call t = true ->
                     handles_ok false (t0 ++ t) = true
                     /\ fold_left handle_step (t0 ++ t) false = false).
  { intros t Ht. apply handles_setup. rewrite forallb_app, Hs0, Ht.
    reflexivity. }
  assert (Hend : forall wx,
                   handles_ok false (fst (cleanup wx None pools)) = true
                   /\ fold_left handle_step (fst (cleanup wx None pools))
                        false = false).
  { intros wx. unfold cleanup. cbn [fst app]. apply handles_destroys. }
  destruct (negb (st =? APR_SUCCESS)).
  { pose proof (handles_seq false false false _ _ (handles_setup _ Hs0)
                  (Hend w0)) as [H3 H4].
    destruct (cleanup w0 None pools) as [t9 w9]. cbn [fst] in *.
    injection H as <- <- <-. split; [exact H3 | intros _; exact H4]. }
  destruct (apr_array_alloc w0) as [ok1 w1].
  destruct (apr_array_alloc w1) as [ok2 w2].
  destruct (negb ok1 || negb ok2).
  { pose proof (handles_seq false false false _ _
                  (Hsetup [Call_array_make stack_todo ok1;
                           Call_array_make stack_done ok2] eq_refl)
                  (Hend w2)) as [H3 H4].
    destruct (cleanup w2 None pools) as [t9 w9]. cbn [fst] in *.
    injection H as <- <- <-. rewrite <- !app_assoc in H3, H4.
    split; [exact H3 | intros _; exact H4]. }
  destruct (apr_array_alloc w2) as [ok3 w3].
  pose proof (Hsetup [Call_array_make stack_todo ok1;
                      Call_array_make stack_done ok2;
                      Call_array_push stack_todo root ok3] eq_refl) as Hhdr.
  destruct (negb ok3).
  { pose proof (handles_seq false false false _ _ Hhdr (Hend w3)) as [H3 H4].
    destruct (cleanup w3 None pools) as [t9 w9]. cbn [fst] in *.
    injection H as <- <- <-. rewrite <- !app_assoc in H3, H4.
    split; [exact H3 | intros _; exact H4]. }
  pose proof (walk_handles fuel w3 [root] [] 0) as Hw.
  destruct (walk fuel w3 [root] [] 0) as [t3 out]. cbn [fst snd] in *.
  destruct out as [w4 done c | st' w4 directory | w4 td dn c].
  - pose proof (remove_dirs_handles w4 done c) as Hr.
    destruct (remove_dirs w4 done c) as [t4 [st' w5]]. cbn [fst snd] in *.
    pose proof (handles_seq false false false _ _ Hhdr
                  (handles_seq false false false _ _ Hw
                     (handles_seq false false false _ _ Hr (Hend w5))))
      as [H3 H4].
    destruct (cleanup w5 None pools) as [t9 w9]. cbn [fst] in *.
    injection H as <- <- <-. rewrite <- !app_assoc in H3, H4.
    split; [exact H3 | intros _; exact H4].
  - destruct directory as [d|].
    + assert (Hc : handles_ok true (fst (cleanup w4 (Some d) pools)) = true
                   /\ fold_left handle_step (fst (cleanup w4 (Some d) pools))
                        true = false).
      { unfold cleanup. destruct (apr_dir_close w4 d) as [s wx].
        cbn [fst]. apply (handles_seq true false false [Call_dir_close s]);
          [split; reflexivity | apply handles_destroys]. }
      pose proof (handles_seq false false false _ _ Hhdr
                    (handles_seq false true false _ _ Hw Hc)) as [H3 H4].
      destruct (cleanup w4 (Some d) pools) as [t9 w9]. cbn [fst] in *.
      injection H as <- <- <-. rewrite <- !app_assoc in H3, H4.
      split; [exact H3 | intros _; exact H4].
    + pose proof (handles_seq false false false _ _ Hhdr
                    (handles_seq false false false _ _ Hw (Hend w4)))
        as [H3 H4].
      destruct (cleanup w4 None pools) as [t9 w9]. cbn [fst] in *.
      injection H as <- <- <-. rewrite <- !app_assoc in H3, H4.
      split; [exact H3 | intros _; exact H4].
  - pose proof (handles_seq false false false _ _ Hhdr Hw) as [H3 H4].
    injection H as <- <- <-. rewrite <- !app_assoc in H3.
    split; [exact H3 | intros Hn; contradiction].
Qed.

(** Every directory the first loop opens was on [todo] or was met as a
    subdirectory. *)
Lemma walk_opened (fuel : nat) (w : world) (todo done : list string) (c : Z) :
  forall p,
    In p (opened (fst (walk fuel w todo done c))) ->
    In p todo \/ In p (map snd (subdirectories_met (fst (walk fuel w todo done c)))).
Proof.
  functional induction (walk fuel w todo done c); intros p;
    try match goal with
      | H : read_entries ?w ?D ?d ?t ?c = (?body, ?r) |- _ =>
          let Hp := fresh "Hp" in
          pose proof (proj1 (read_entries_paths w D d t c)) as Hp;
          rewrite H in Hp; cbn [fst] in Hp
      end;
    repeat paths_simpl; rewrite ?Hp; cbn [app In];
    try (intros [<-|[]]; left; left; reflexivity); try contradiction.
  use_read_done.
  intros [<-|Hin]; [left; left; reflexivity|].
  apply IHp in Hin. trace_simpl. rewrite !map_app, !in_app_iff.
  destruct Hin as [Hin|Hin]; [|right; right; exact Hin].
  rewrite Htodo, in_app_iff in Hin.
  destruct Hin as [Hin|Hin]; [|left; right; exact Hin].
  right. left. apply in_rev in Hin. exact Hin.
Qed.

End HandleTheory.

(** ** apr.dir_remove_recursive: results on the whole function *)

Lemma push_status_failure (s : apr_status_t) :
  s <> APR_SUCCESS -> push_status s = PushedError s.
Proof.
  intros H. unfold push_status, push_error_status.
  apply Z.eqb_neq in H. rewrite H. reflexivity.
Qed.

Lemma push_status_true (s : apr_status_t) :
  push_status s = Pushed true -> s = APR_SUCCESS.
Proof.
  unfold push_status, push_error_status.
  destruct (s =? APR_SUCCESS) eqn:E; [|discriminate].
  intros _. apply Z.eqb_eq. exact E.
Qed.

Lemma cleanup_calls_destroys (pools : list pool) :
  forallb is_cleanup_call (map Call_pool_destroy pools) = true.
Proof. induction pools; trivial. Qed.

Lemma passes_opened (ds : list (string * list action)) (p : string) :
  In p (completed (passes ds)) ->
  Forall (fun db => emptying (fst db) (snd db)) ds ->
  In (Call_dir_open p APR_SUCCESS) (passes ds).
Proof.
  induction ds as [|[D body] ds IH]; cbn [passes flat_map fst snd];
    [contradiction|].
  intros Hin Hf. inversion Hf as [|? ? He Hf']; subst. cbn [fst snd] in He.
  fold (passes ds) in *. unfold pass in *.
  rewrite !completed_app, (emptying_completed _ _ He) in Hin.
  cbn in Hin. destruct Hin as [<-|Hin].
  - cbn. right. left. reflexivity.
  - apply in_or_app. right. apply IH; assumption.
Qed.

Lemma joins_current_app (cur : option string) (a b : list action) :
  joins_current cur (a ++ b)
  = joins_current cur a && joins_current (fold_left current_step a cur) b.
Proof.
  revert cur. induction a as [|x a IH]; intros cur; cbn; [reflexivity|].
  rewrite IH, andb_assoc. reflexivity.
Qed.

Lemma joins_current_split (cur : option string) (pre post : list action)
    (D add : string) (p : pool) (s : apr_status_t) (P : string) :
  joins_current cur (pre ++ Call_filepath_merge D add p s P :: post) = true ->
  fold_left current_step pre cur = Some D /\ filename_symbolic add = false.
Proof.
  rewrite joins_current_app. cbn. intros H.
  apply andb_prop in H. destruct H as [_ H].
  apply andb_prop in H. destruct H as [H _].
  destruct (fold_left current_step pre cur) as [D'|]; [|discriminate].
  cbn in H. apply andb_prop in H. destruct H as [H1 H2].
  apply String.eqb_eq in H1. apply negb_true_iff in H2. subst D'. tauto.
Qed.

(** Calls that neither build a path nor open a directory leave the current
    directory as it is. *)
Lemma joins_current_others (cur : option string) (tr : list action) :
  forallb (fun a => negb (is_open_or_merge a)) tr = true ->
  joins_current cur tr = true /\ fold_left current_step tr cur = cur.
Proof.
  revert cur. induction tr as [|a tr IH]; intros cur; [split; reflexivity|].
  cbn. intros H. apply andb_prop in H. destruct H as [Ha H].
  destruct a; try discriminate; destruct cur; cbn; apply IH, H.
Qed.

Lemma joins_seq (c c1 c2 : option string) (a b : list action) :
  joins_current c a = true /\ fold_left current_step a c = c1 ->
  joins_current c1 b = true /\ fold_left current_step b c1 = c2 ->
  joins_current c (a ++ b) = true /\ fold_left current_step (a ++ b) c = c2.
Proof.
  intros [H1 H2] [H3 H4].
  rewrite joins_current_app, fold_left_app, H1, H2, H3, H4. split; reflexivity.
Qed.

Lemma others_clear (n : Z) (p : pool) (c : Z) :
  forallb (fun a => negb (is_open_or_merge a)) (clear_every n p c) = true.
Proof. unfold clear_every. destruct (Z.rem c n =? 0); reflexivity. Qed.

Lemma others_weaken (q : action -> bool) (tr : list action) :
  (forall a, q a = true -> is_open_or_merge a = false) ->
  forallb q tr = true -> forallb (fun a => negb (is_open_or_merge a)) tr = true.
Proof.
  intros Hq H. rewrite forallb_forall in *. intros a Ha.
  rewrite (Hq a (H a Ha)). reflexivity.
Qed.

Section ResultsTheory.

Context {DR : DirRuntime}.

Lemma read_entries_joins (w : world) (D : string) (directory : apr_dir_t)
    (todo : list string) (c : Z) :
  joins_current (Some D) (fst (read_entries w D directory todo c)) = true
  /\ fold_left current_step (fst (read_entries w D directory todo c)) (Some D)
     = Some D.
Proof.
  functional induction (read_entries w D directory todo c);
    cbn [fst snd emit]; trace_uncons;
    repeat (apply (joins_seq (Some filepath) (Some filepath) (Some filepath));
            [try (apply joins_current_others, others_clear);
             try (split; reflexivity)|]);
    try (apply joins_current_others, others_clear);
    try (split; reflexivity); try assumption;
    cbn [joins_current joins current_step fold_left];
    rewrite ?String.eqb_refl;
    repeat match goal with
      | H : filename_symbolic ?n = false |- context [filename_symbolic ?n] =>
          rewrite H
      end;
    cbn [negb andb]; try (split; reflexivity); try assumption.
Qed.

Lemma walk_joins (fuel : nat) (w : world) (todo done : list string) (c : Z) :
  forall cur, joins_current cur (fst (walk fuel w todo done c)) = true.
Proof.
  functional induction (walk fuel w todo done c); intros cur;
    try match goal with
      | H : read_entries ?w ?D ?d ?t ?c = (?body, ?r) |- _ =>
          let Hj := fresh "Hj" in
          pose proof (read_entries_joins w D d t c) as Hj;
          rewrite H in Hj; cbn [fst] in Hj; destruct Hj as [Hj1 Hj2]
      end;
    known_tests; cbn [fst snd emit]; trace_uncons;
    rewrite ?joins_current_app, ?fold_left_app;
    destruct cur;
    cbn [joins_current joins current_step fold_left Z.eqb APR_SUCCESS andb];
    use_tests; rewrite ?Hj1, ?Hj2;
    cbn [joins_current joins current_step fold_left andb];
    rewrite ?IHp; reflexivity.
Qed.

Lemma remove_dirs_others (w : world) (done : list string) (c : Z) :
  forallb (fun a => negb (is_open_or_merge a)) (fst (remove_dirs w done c))
  = true.
Proof.
  functional induction (remove_dirs w done c);
    cbn [fst snd emit]; rewrite ?forallb_app, ?others_clear;
    cbn [forallb is_open_or_merge negb andb]; trivial.
Qed.

(** Over the whole function every path is built from the directory opened
    last. *)
Lemma remove_recursive_joins (fuel : nat) (w : world) (root : string)
    (tr : list action) (status : option apr_status_t) (w' : world) :
  remove_recursive_status fuel w root = (tr, status, w') ->
  joins_current None tr = true.
Proof.
  intros H. apply remove_recursive_calls in H.
  destruct H as (hdr & t3 & t4 & ftr & -> & Hh & H3 & H4 & Hf).
  assert (Hhdr : forallb (fun a => negb (is_open_or_merge a)) hdr = true).
  { apply (others_weaken is_setup_call); [|exact Hh].
    intros [ | | | |[|] | | | | | | ]; cbn; congruence. }
  assert (Hftr : forallb (fun a => negb (is_open_or_merge a)) ftr = true).
  { destruct status as [s|]; [|subst ftr; reflexivity].
    destruct Hf as (close & -> & Hc).
    apply (others_weaken is_cleanup_call).
    - intros []; cbn; congruence.
    - rewrite forallb_app, cleanup_calls_destroys.
      destruct Hc as [->|[s' ->]]; reflexivity. }
  destruct (joins_current_others None hdr Hhdr) as [Hj1 Hj2].
  rewrite joins_current_app, Hj1, Hj2. cbn [andb].
  rewrite joins_current_app.
  assert (Hw : joins_current None t3 = true).
  { destruct H3 as [->|[w3 ->]]; [reflexivity | apply walk_joins]. }
  rewrite Hw. cbn [andb]. rewrite joins_current_app.
  assert (Hr : forallb (fun a => negb (is_open_or_merge a)) t4 = true).
  { destruct H4 as [->|(w4 & done & c & ->)];
      [reflexivity | apply remove_dirs_others]. }
  destruct (joins_current_others (fold_left current_step t3 None) t4 Hr)
    as [-> ->].
  apply joins_current_others, Hftr.
Qed.

End ResultsTheory.

(** ** apr.dir_remove_recursive: further results *)

(** A pass over a directory opens none. *)
Lemma emptying_opened (D : string) (body : list action) :
  emptying D body -> opened body = [].
Proof. induction 1; cbn; trivial. Qed.

(** The directories opened by a run of passes, and those pushed on [done],
    are the directories passed over, in that order. *)
Lemma passes_lists (ds : list (string * list action)) :
  Forall (fun db => emptying (fst db) (snd db)) ds ->
  opened (passes ds) = map fst ds /\ completed (passes ds) = map fst ds.
Proof.
  induction 1 as [|[D body] ds He _ [IHo IHc]]; [split; reflexivity|].
  cbn [fst snd] in He.
  cbn [passes flat_map fst snd map]. fold (passes ds). unfold pass.
  rewrite !opened_app, !completed_app, IHo, IHc,
    (emptying_opened _ _ He), (emptying_completed _ _ He).
  split; reflexivity.
Qed.

Lemma removal_steps_clear (c : Z) :
  forallb is_removal_step (clear_every 100 middle_pool c) = true.
Proof. unfold clear_every. destruct (Z.rem c 100 =? 0); reflexivity. Qed.

Section FurtherResults.

Context {DR : DirRuntime}.

(** When the first loop ends with [todo] empty, its calls are passes,
    each followed by its push on [done], and nothing else. *)
Lemma walk_done_passes (fuel : nat) (w : world) (todo done : list string)
    (c : Z) :
  forall w' done' c',
    snd (walk fuel w todo done c) = Walk_done w' done' c' ->
    exists ds,
      fst (walk fuel w todo done c) = passes ds
      /\ Forall (fun db => emptying (fst db) (snd db)) ds.
Proof.
  functional induction (walk fuel w todo done c);
    intros w' done' c' H; cbn [snd emit] in H; try discriminate.
  - exists []. split; [reflexivity | constructor].
  - use_read_done. tests.
    destruct (IHp _ _ _ H) as (ds & Ht & Hf).
    exists ((filepath, body) :: ds). cbn [fst snd emit]. rewrite Ht.
    split; [|constructor; assumption].
    cbn [passes flat_map fst snd]. unfold pass.
    rewrite <- !app_assoc. reflexivity.
Qed.

(** A second loop that ends with success has made no other call than
    clears of the middle pool and removals that succeeded. *)
Lemma remove_dirs_steps (w : world) (done : list string) (c : Z) :
  fst (snd (remove_dirs w done c)) = APR_SUCCESS ->
  forallb is_removal_step (fst (remove_dirs w done c)) = true.
Proof.
  functional induction (remove_dirs w done c); cbn [fst snd emit].
  - reflexivity.
  - intros ->. discriminate.
  - intros Hs. rewrite !forallb_app, removal_steps_clear, (IHp Hs).
    cbn [forallb is_removal_step andb].
    match goal with H : negb (_ =? _) = false |- _ =>
      apply negb_false_iff in H; rewrite H end.
    reflexivity.
Qed.

(** The function runs out of fuel only in the first loop, after opening
    as many directories as there was fuel. *)
Lemma remove_recursive_out_of_fuel (fuel : nat) (w : world) (root : string)
    (tr : list action) (w' : world) :
  remove_recursive_status fuel w root = (tr, None, w') ->
  List.length (opened tr) = fuel.
Proof.
  unfold remove_recursive_status. intros H.
  pose proof (create_pools_calls w) as [Hs0 _].
  destruct (create_pools w) as [t0 [[st pools] w0]]. cbn [fst snd] in *.
  assert (Ho0 : opened t0 = []).
  { apply (flat_map_none _ is_setup_call); [exact Hs0|].
    intros []; cbn; trivial; discriminate. }
  destruct (negb (st =? APR_SUCCESS)).
  { destruct (cleanup w0 None pools). discriminate. }
  destruct (apr_array_alloc w0) as [ok1 w1].
  destruct (apr_array_alloc w1) as [ok2 w2].
  destruct (negb ok1 || negb ok2).
  { destruct (cleanup w2 None pools). discriminate. }
  destruct (apr_array_alloc w2) as [ok3 w3].
  destruct (negb ok3).
  { destruct (cleanup w3 None pools). discriminate. }
  pose proof (walk_fuel_opened fuel w3 [root] [] 0) as Hw.
  destruct (walk fuel w3 [root] [] 0) as [t3 out]. cbn [fst snd] in Hw.
  destruct out as [w4 done c | st' w4 directory | w4 td dn c].
  - destruct (remove_dirs w4 done c) as [t4 [st' w5]].
    destruct (cleanup w5 None pools). discriminate.
  - destruct (cleanup w4 directory pools). discriminate.
  - injection H as <- <-.
    rewrite !opened_app, Ho0. cbn [opened flat_map app].
    exact (Hw _ _ _ _ eq_refl).
Qed.


(** X13.  The first call that fails ends [apr.dir_remove_recursive]: the
    function returns, the error it returns is the status of that call, and
    after it nothing is opened, read, joined or removed any more; only the
    calls of the cleanup follow (and the second [apr_array_make], when the
    first got no memory).  When no call fails and the fuel outlasts the
    directories opened, the function returns true.  The fuel runs out only
    when no call has failed and every unit of it went into opening a
    directory. *)
Theorem first_failure_ends_the_run (fuel : nat) (w : world) (root : string)
    (tr : list action) (result : option (lua_return bool)) (w' : world) :
  lua_apr_dir_remove_recursive fuel w root = (tr, result, w') ->
  (forall pre a post s,
      tr = pre ++ a :: post ->
      first_failure pre = None -> failure_of a = Some s ->
      result = Some (PushedError s) /\ forallb is_winding_down post = true)
  /\ (first_failure tr = None ->
      (List.length (opened tr) < fuel)%nat -> result = Some (Pushed true))
  /\ (result = None ->
      first_failure tr = None /\ List.length (opened tr) = fuel).
Proof.
  intros H. apply lua_remove_recursive_status in H.
  destruct H as (status & H & ->).
  pose proof (remove_recursive_failure _ _ _ _ _ _ H) as Hf.
  destruct status as [s0|]; cbn [option_map].
  - destruct Hf as [Hs Hw]. split; [|split].
    + intros pre a post s -> Hpre Ha.
      destruct (first_failure_split pre post a s Hpre Ha) as [Hff Haf].
      rewrite Hff in Hs. rewrite Haf in Hw. subst s0.
      split; [|exact Hw]. f_equal.
      apply push_status_failure. exact (failure_not_success _ _ Ha).
    + intros Hn _. rewrite Hn in Hs. subst s0. reflexivity.
    + discriminate.
  - apply remove_recursive_out_of_fuel in H. split; [|split].
    + intros pre a post s -> Hpre Ha.
      destruct (first_failure_split pre post a s Hpre Ha) as [Hff _].
      congruence.
    + intros _ Hl. lia.
    + intros _. split; assumption.
Qed.

(** X14.  When [apr.dir_remove_recursive] returns true, no call had
    failed, and its calls were those of the setup, then one pass for every
    directory opened, then the removals, then the destruction of the three
    pools.  In its pass a directory was opened, read up to "no more
    entries" - each entry a marker skipped, a subdirectory pushed on [todo]
    or another entry removed with success -, closed with success and pushed
    on [done].  Every directory on [done] was then removed with success, in
    the reverse of the order in which they were opened, so that the
    directory given, which was opened first, was removed last. *)
Theorem success_removes_every_directory_opened (fuel : nat) (w : world)
    (root : string) (tr : list action) (w' : world) :
  lua_apr_dir_remove_recursive fuel w root = (tr, Some (Pushed true), w') ->
  first_failure tr = None
  /\ (exists ds t4,
        tr = setup_calls root ++ passes ds ++ t4 ++ destroy_calls
        /\ Forall (fun db => emptying (fst db) (snd db)) ds
        /\ map fst ds = opened tr
        /\ forallb is_removal_step t4 = true
        /\ removals t4 = rev (map fst ds))
  /\ opened tr = completed tr
  /\ removals tr = rev (opened tr)
  /\ exists l, opened tr = root :: l /\ removals tr = rev l ++ [root].
Proof.
  intros H. apply lua_remove_recursive_status in H.
  destruct H as ([s0|] & H & Hr); [|discriminate].
  injection Hr as Hr. symmetry in Hr. apply push_status_true in Hr. subst s0.
  pose proof (remove_recursive_failure _ _ _ _ _ _ H) as [Hs _].
  assert (Hnone : first_failure tr = None).
  { destruct (first_failure tr) as [f|] eqn:E; [|reflexivity].
    apply first_failure_not_success in E. congruence. }
  apply remove_recursive_success in H.
  destruct H as (w3 & w4 & done & c & Hw & Hrm & ->).
  fold (setup_calls root). fold destroy_calls.
  destruct (walk_done_passes fuel w3 [root] [] 0 _ _ _ Hw) as (ds & Hds & Hf).
  destruct (passes_lists ds Hf) as [Hpo Hpc].
  destruct (walk_done_opened fuel w3 [root] [] 0 _ _ _ Hw) as [_ Hroot].
  destruct (Hroot root [] eq_refl) as [l Hl].
  destruct (walk_order fuel w3 [root] [] 0 _ _ _ Hw) as (Hdone & _ & _).
  cbv zeta in Hdone. rewrite app_nil_r in Hdone.
  pose proof (walk_removes_nothing fuel w3 [root] [] 0) as Hnr.
  destruct (remove_dirs_paths w4 done c) as (Hro & _ & _ & Hrr).
  destruct (remove_dirs_trace w4 done c) as (_ & Hrc & _ & _).
  cbv zeta in Hrc. specialize (Hrr Hrm).
  pose proof (remove_dirs_steps w4 done c Hrm) as Hsteps.
  rewrite Hds in *.
  assert (Hopened : opened (setup_calls root ++ passes ds
                            ++ fst (remove_dirs w4 done c) ++ destroy_calls)
                    = map fst ds).
  { rewrite !opened_app, Hpo, Hro. cbn. apply app_nil_r. }
  assert (Hcompleted : completed (setup_calls root ++ passes ds
                                  ++ fst (remove_dirs w4 done c)
                                  ++ destroy_calls)
                       = map fst ds).
  { rewrite !completed_app, Hpc, Hrc. cbn. apply app_nil_r. }
  assert (Hremovals : removals (setup_calls root ++ passes ds
                                ++ fst (remove_dirs w4 done c)
                                ++ destroy_calls)
                      = rev (map fst ds)).
  { rewrite !removals_app, Hnr, Hrr, Hdone, Hpc. cbn. apply app_nil_r. }
  rewrite Hopened, Hcompleted, Hremovals.
  split; [exact Hnone|]. split; [|split; [reflexivity|split; [reflexivity|]]].
  - exists ds, (fst (remove_dirs w4 done c)).
    split; [reflexivity|]. split; [exact Hf|]. split; [reflexivity|].
    split; [exact Hsteps|]. rewrite Hrr, Hdone, Hpc. reflexivity.
  - exists l. rewrite <- Hpc, Hl. split; reflexivity.
Qed.

(** X15.  [apr.dir_remove_recursive] holds at most one directory handle
    at a time, however deep the tree: a directory is opened only when none
    is open, read and closed only while one is open, and the middle pool,
    which holds the handle, is cleared or destroyed only when none is open;
    and when the function returns, with success or not, no handle is left
    open. *)
Theorem one_directory_handle_at_a_time (fuel : nat) (w : world)
    (root : string) (tr : list action) (result : option (lua_return bool))
    (w' : world) :
  lua_apr_dir_remove_recursive fuel w root = (tr, result, w') ->
  (forall pre a post,
      tr = pre ++ a :: post -> handle_use_ok (handle_open pre) a = true)
  /\ (result <> None -> handle_open tr = false).
Proof.
  intros H. apply lua_remove_recursive_status in H.
  destruct H as (status & H & ->).
  apply remove_recursive_handles in H. destruct H as [Hok Hend]. split.
  - intros pre a post ->. exact (handles_ok_split false pre post a Hok).
  - intros Hn. apply Hend. destruct status; [discriminate | contradiction].
Qed.

Lemma pools_created_none (q : action -> bool) (tr : list action) :
  (forall a, q a = true ->
     match a with Call_pool_create _ _ | Call_pool_destroy _ => False
     | _ => True end) ->
  forallb q tr = true -> pools_created tr = [] /\ pools_destroyed tr = [].
Proof.
  intros Hq H. split; apply (flat_map_none _ q); trivial;
    intros a Ha; specialize (Hq a Ha); destruct a; tauto.
Qed.

(** X16.  On every path out of [apr.dir_remove_recursive] the pools that
    were created are destroyed, each once, after every other call and the
    last created first; no pool is destroyed before that, and the outer
    pool, which holds the two stacks and the paths on them, is never
    cleared. *)
Theorem pools_destroyed_once_at_the_end (fuel : nat) (w : world)
    (root : string) (tr : list action) (result : lua_return bool)
    (w' : world) :
  lua_apr_dir_remove_recursive fuel w root = (tr, Some result, w') ->
  (exists body,
      tr = body ++ map Call_pool_destroy (rev (pools_created tr))
      /\ pools_destroyed body = [] /\ pools_created body = pools_created tr)
  /\ ~ In (Call_pool_clear outer_pool) tr.
Proof.
  intros H. apply lua_remove_recursive_status in H.
  destruct H as ([s0|] & H & Hr); [|discriminate]. clear Hr.
  apply remove_recursive_calls in H.
  destruct H as (hdr & t3 & t4 & ftr & -> & Hh & H3 & H4 & close & -> & Hc).
  assert (H3' : forallb is_loop_call t3 = true)
    by (destruct H3 as [->|[w3 ->]]; [reflexivity | apply walk_calls]).
  assert (H4' : forallb is_loop_call t4 = true)
    by (destruct H4 as [->|(w4 & done & c & ->)];
        [reflexivity | apply remove_dirs_calls]).
  assert (Hloop : forall a, is_loop_call a = true ->
            match a with Call_pool_create _ _ | Call_pool_destroy _ => False
            | _ => True end)
    by (intros []; cbn; trivial; discriminate).
  destruct (pools_created_none _ _ Hloop H3') as [Hc3 Hd3].
  destruct (pools_created_none _ _ Hloop H4') as [Hc4 Hd4].
  assert (Hdh : pools_destroyed hdr = []).
  { apply (flat_map_none _ is_setup_call); [exact Hh|].
    intros []; cbn; trivial; discriminate. }
  assert (Hcl : pools_created close = [] /\ pools_destroyed close = [])
    by (destruct Hc as [->|[s ->]]; split; reflexivity).
  destruct Hcl as [Hcc Hdc].
  assert (Hcd : forall l, pools_created (map Call_pool_destroy l) = [])
    by (induction l; trivial).
  assert (Hbody : pools_created (hdr ++ t3 ++ t4 ++ close) = pools_created hdr).
  { unfold pools_created in *.
    rewrite !flat_map_app, Hc3, Hc4, Hcc. apply app_nil_r. }
  assert (Hall : pools_created
                   (hdr ++ t3 ++ t4 ++ close
                    ++ map Call_pool_destroy (rev (pools_created hdr)))
                 = pools_created hdr).
  { unfold pools_created in *.
    rewrite !flat_map_app, Hc3, Hc4, Hcc, Hcd. apply app_nil_r. }
  split.
  - exists (hdr ++ t3 ++ t4 ++ close). rewrite Hall, Hbody.
    split; [rewrite <- !app_assoc; reflexivity|].
    split; [|reflexivity].
    unfold pools_destroyed in *.
    rewrite !flat_map_app, Hdh, Hd3, Hd4, Hdc. reflexivity.
  - rewrite !in_app_iff. intros [Hin|[Hin|[Hin|[Hin|Hin]]]].
    + rewrite forallb_forall in Hh. apply Hh in Hin. discriminate.
    + rewrite forallb_forall in H3'. apply H3' in Hin. discriminate.
    + rewrite forallb_forall in H4'. apply H4' in Hin. discriminate.
    + destruct Hc as [->|[s ->]]; [contradiction|].
      destruct Hin as [Hin|[]]. discriminate.
    + apply in_map_iff in Hin. destruct Hin as (p & Hp & _). discriminate.
Qed.

End FurtherResults.

Section TouchedPaths.

Context {DR : DirRuntime}.

Lemma cleanup_part_paths (status : option apr_status_t) (hdr ftr : list action) :
  match status with
  | Some _ =>
      exists close,
        ftr = close ++ map Call_pool_destroy (rev (pools_created hdr))
        /\ (close = [] \/ exists s, close = [Call_dir_close s])
  | None => ftr = []
  end ->
  forallb is_cleanup_call ftr = true.
Proof.
  destruct status as [s|]; [|intros ->; reflexivity].
  intros (close & -> & Hc). rewrite forallb_app, cleanup_calls_destroys.
  destruct Hc as [->|[s' ->]]; reflexivity.
Qed.

(** X17.  [apr.dir_remove_recursive] touches only what it found: the
    paths it hands to [apr_file_remove] are the paths it built from entries
    that are not directories, all of them and in that order; every directory
    it opens is the one it was given or a subdirectory it met; every
    directory it removes had been pushed on [done]; and every directory on
    [done] had been opened with success. *)
Theorem only_paths_found_are_touched (fuel : nat) (w : world) (root : string)
    (tr : list action) (result : option (lua_return bool)) (w' : world) :
  lua_apr_dir_remove_recursive fuel w root = (tr, result, w') ->
  files_removed tr = files_met tr
  /\ (forall p, In p (opened tr) ->
        p = root \/ In p (map snd (subdirectories_met tr)))
  /\ (forall p, In p (removals tr) -> In p (completed tr))
  /\ (forall p, In p (completed tr) -> In (Call_dir_open p APR_SUCCESS) tr).
Proof.
  intros H. apply lua_remove_recursive_status in H.
  destruct H as (status & H & _).
  pose proof (remove_recursive_calls _ _ _ _ _ _ H)
    as (hdr & t3 & t4 & ftr & Htr & Hh & H3 & H4 & Hf).
  apply cleanup_part_paths in Hf.
  assert (Hhdr : opened hdr = [] /\ files_removed hdr = []
                 /\ files_met hdr = []).
  { repeat split; apply (flat_map_none _ is_setup_call); trivial;
      intros []; cbn; trivial; discriminate. }
  assert (Hftr : opened ftr = [] /\ files_removed ftr = []
                 /\ files_met ftr = []).
  { repeat split; apply (flat_map_none _ is_cleanup_call); trivial;
      intros []; cbn; trivial; discriminate. }
  assert (Ht4 : opened t4 = [] /\ files_removed t4 = [] /\ files_met t4 = []).
  { destruct H4 as [->|(w4 & done & c & ->)]; [repeat split|].
    destruct (remove_dirs_paths w4 done c) as (? & ? & ? & _). auto. }
  destruct Hhdr as (Ho1 & Hr1 & Hm1). destruct Hftr as (Ho9 & Hr9 & Hm9).
  destruct Ht4 as (Ho4 & Hr4 & Hm4).
  split; [|split; [|split]].
  - subst tr.
    rewrite !files_removed_app, !files_met_app, Hr1, Hm1, Hr4, Hm4, Hr9, Hm9.
    cbn [app]. f_equal.
    destruct H3 as [->|[w3 ->]]; [reflexivity | apply walk_files].
  - intros p Hin. subst tr.
    rewrite !opened_app, Ho1, Ho4, Ho9, app_nil_r in Hin. cbn [app] in Hin.
    destruct H3 as [->|[w3 ->]]; [contradiction|].
    apply walk_opened in Hin. destruct Hin as [[<-|[]]|Hin];
      [left; reflexivity|].
    right. rewrite !subdirectories_met_app, !map_app, !in_app_iff. tauto.
  - intros p Hin.
    destruct (remove_recursive_lists _ _ _ _ _ _ H) as [Hn|[[earlier He] _]].
    + rewrite Hn in Hin. contradiction.
    + rewrite He. apply in_or_app. right. apply in_rev.
      rewrite rev_involutive. exact Hin.
  - intros p Hin. apply remove_recursive_shape in H.
    destruct H as (hdr' & t3' & t4' & ftr' & -> & Hq1 & Hq9 & _ & Hs).
    destruct Hq1 as (Hc1 & _). destruct Hq9 as (Hc9 & _).
    rewrite !completed_app, Hc1, Hc9, app_nil_r in Hin. cbn [app] in Hin.
    destruct Hs as [[-> ->]|(w3 & -> & Hs)]; [contradiction|].
    assert (Hc4 : completed t4' = []).
    { destruct (snd (walk fuel w3 [root] [] 0)) as [w4 done c| |];
        try (destruct Hs as [-> _]; reflexivity).
      destruct Hs as [-> _].
      destruct (remove_dirs_trace w4 done c) as (_ & Hc & _). exact Hc. }
    rewrite Hc4, app_nil_r in Hin.
    destruct (walk_passes fuel w3 [root] [] 0) as (ds & tail & Ht & Hct & Hds).
    rewrite Ht in *. rewrite completed_app, Hct, app_nil_r in Hin.
    apply in_or_app. right. apply in_or_app. left. apply in_or_app. left.
    apply passes_opened; assumption.
Qed.

(** X18.  Every path [apr.dir_remove_recursive] builds joins the
    directory it opened last to a name that is neither [.] nor [..], in the
    outer or in the inner pool: it never steps from a directory to that
    directory itself or to its parent. *)
Theorem paths_join_the_directory_opened_last (fuel : nat) (w : world)
    (root : string) (tr : list action) (result : option (lua_return bool))
    (w' : world) :
  lua_apr_dir_remove_recursive fuel w root = (tr, result, w') ->
  forall pre D add p s P post,
    tr = pre ++ Call_filepath_merge D add p s P :: post ->
    current pre = Some D /\ filename_symbolic add = false
    /\ p <> middle_pool.
Proof.
  intros H pre D add p s P post Htr.
  apply lua_remove_recursive_status in H.
  destruct H as (status & H & _).
  pose proof (remove_recursive_joins _ _ _ _ _ _ H) as Hj.
  rewrite Htr in Hj. apply joins_current_split in Hj.
  destruct Hj as [Hcur Hadd]. split; [exact Hcur|]. split; [exact Hadd|].
  pose proof (remove_recursive_calls _ _ _ _ _ _ H)
    as (hdr & t3 & t4 & ftr & Htr' & Hh & H3 & H4 & Hf).
  apply cleanup_part_paths in Hf.
  assert (Hin : In (Call_filepath_merge D add p s P) tr)
    by (rewrite Htr; apply in_or_app; right; left; reflexivity).
  rewrite Htr', !in_app_iff in Hin.
  assert (H3' : forallb is_loop_call t3 = true)
    by (destruct H3 as [->|[w3 ->]]; [reflexivity | apply walk_calls]).
  assert (H4' : forallb is_loop_call t4 = true)
    by (destruct H4 as [->|(w4 & done & c & ->)];
        [reflexivity | apply remove_dirs_calls]).
  rewrite forallb_forall in Hh, H3', H4', Hf.
  destruct Hin as [Hin|[Hin|[Hin|Hin]]].
  - apply Hh in Hin. discriminate.
  - apply H3' in Hin. intros ->. discriminate.
  - apply H4' in Hin. intros ->. discriminate.
  - apply Hf in Hin. discriminate.
Qed.

End TouchedPaths.

Lemma faulty_run_is_run :
  @lua_apr_dir_remove_recursive faulty_runtime 10 sample_tree "/tmp/t"
  = (faulty_trace, Some (PushedError APR_EACCES), sample_tree).
Proof. vm_compute. reflexivity. Defined.

(** On the file system whose directories cannot be read, the read that
    fails with EACCES is the first failure: the function returns its
    status, and the calls after it close the directory and destroy the
    pools. *)
Lemma first_failure_ends_the_run_witness :
  snd (fst faulty_run) = Some (PushedError APR_EACCES)
  /\ forallb is_winding_down (skipn 12 faulty_trace) = true.
Proof.
  apply (proj1 (@first_failure_ends_the_run faulty_runtime 10 sample_tree
                  "/tmp/t" faulty_trace (snd (fst faulty_run)) sample_tree
                  faulty_run_is_run)
           (firstn 11 faulty_trace) (Call_dir_read APR_EACCES finfo_none)
           (skipn 12 faulty_trace) APR_EACCES); reflexivity.
Defined.

(** On the sample tree the run is made of two passes, over [/tmp/t] and
    over [/tmp/t/sub], and the two are removed in the reverse order. *)
Lemma success_removes_every_directory_opened_witness :
  (exists ds t4,
      sample_trace
      = setup_calls "/tmp/t" ++ passes ds ++ t4 ++ destroy_calls
      /\ Forall (fun db => emptying (fst db) (snd db)) ds
      /\ map fst ds = opened sample_trace
      /\ forallb is_removal_step t4 = true
      /\ removals t4 = rev (map fst ds))
  /\ removals sample_trace = ["/tmp/t/sub"; "/tmp/t"].
Proof.
  destruct (@success_removes_every_directory_opened sim_runtime 10 sample_tree
              "/tmp/t" sample_trace [] sample_run_is_run)
    as (_ & Hshape & _ & Hrev & _).
  split; [exact Hshape|]. rewrite Hrev. reflexivity.
Defined.

Lemma one_directory_handle_at_a_time_witness :
  handle_open sample_trace = false.
Proof.
  apply (@one_directory_handle_at_a_time sim_runtime 10 sample_tree "/tmp/t"
           sample_trace (Some (Pushed true)) [] sample_run_is_run).
  discriminate.
Defined.

Lemma pools_destroyed_once_at_the_end_witness :
  ~ In (Call_pool_clear outer_pool) sample_trace.
Proof.
  apply (@pools_destroyed_once_at_the_end sim_runtime 10 sample_tree "/tmp/t"
           sample_trace (Pushed true) [] sample_run_is_run).
Defined.

Lemma only_paths_found_are_touched_witness :
  files_removed sample_trace = files_met sample_trace.
Proof.
  apply (@only_paths_found_are_touched sim_runtime 10 sample_tree "/tmp/t"
           sample_trace (Some (Pushed true)) [] sample_run_is_run).
Defined.

Lemma paths_join_the_directory_opened_last_witness :
  current (firstn 14 sample_trace) = Some "/tmp/t".
Proof.
  apply (@paths_join_the_directory_opened_last sim_runtime 10 sample_tree
           "/tmp/t" sample_trace (Some (Pushed true)) [] sample_run_is_run
           (firstn 14 sample_trace) "/tmp/t" "a" inner_pool APR_SUCCESS
           "/tmp/t/a" (skipn 15 sample_trace)).
  reflexivity.
Defined.

(** ** apr.dir_remove_recursive: paths in the inner pool *)

Lemma last_after_head {A : Type} (l : list A) :
  forall x d, last (x :: l) d = last l x.
Proof.
  induction l as [|y l IH]; intros x d; [reflexivity|].
  change (last (x :: y :: l) d) with (last (y :: l) d).
  rewrite !IH. reflexivity.
Qed.

Lemma fresh_paths_app (prev : option action) (a b : list action) :
  fresh_paths prev (a ++ b)
  = fresh_paths prev a && fresh_paths (last (map Some a) prev) b.
Proof.
  revert prev. induction a as [|x a IH]; intros prev; [reflexivity|].
  cbn [app fresh_paths map].
  rewrite IH, (last_after_head (map Some a) (Some x) prev), andb_assoc.
  reflexivity.
Qed.

Lemma fresh_paths_others (tr : list action) :
  forallb (fun a => negb (is_file_remove a)) tr = true ->
  forall prev, fresh_paths prev tr = true.
Proof.
  induction tr as [|a tr IH]; intros H prev; [reflexivity|].
  cbn in *. apply andb_prop in H. destruct H as [Ha H].
  rewrite (IH H). destruct a; try discriminate; reflexivity.
Qed.

Lemma fresh_paths_split (prev : option action) (pre post : list action)
    (P : string) (s : apr_status_t) :
  fresh_paths prev (pre ++ Call_file_remove P s :: post) = true ->
  exists D add,
    last (map Some pre) prev
    = Some (Call_filepath_merge D add inner_pool APR_SUCCESS P).
Proof.
  rewrite fresh_paths_app. cbn. intros H.
  apply andb_prop in H. destruct H as [_ H].
  apply andb_prop in H. destruct H as [H _].
  destruct (last (map Some pre) prev) as [[]|]; try discriminate.
  destruct p; try discriminate.
  apply andb_prop in H. destruct H as [H1 H2].
  apply Z.eqb_eq in H1. apply String.eqb_eq in H2. subst.
  eexists _, _. reflexivity.
Qed.

Lemma fresh_paths_clear (n : Z) (p : pool) (c : Z) (prev : option action) :
  fresh_paths prev (clear_every n p c) = true.
Proof. unfold clear_every. destruct (Z.rem c n =? 0); reflexivity. Qed.

Section FreshPathsTheory.

Context {DR : DirRuntime}.

Lemma read_entries_fresh (w : world) (D : string) (directory : apr_dir_t)
    (todo : list string) (c : Z) :
  forall prev, fresh_paths prev (fst (read_entries w D directory todo c)) = true.
Proof.
  functional induction (read_entries w D directory todo c); intros prev;
    known_tests; cbn [fst snd emit]; trace_uncons;
    rewrite ?fresh_paths_app, ?fresh_paths_clear;
    cbn [fresh_paths removes_fresh_path andb Z.eqb APR_SUCCESS map last];
    rewrite ?String.eqb_refl, ?IHp; reflexivity.
Qed.

Lemma walk_fresh (fuel : nat) (w : world) (todo done : list string) (c : Z) :
  forall prev, fresh_paths prev (fst (walk fuel w todo done c)) = true.
Proof.
  functional induction (walk fuel w todo done c); intros prev;
    try match goal with
      | H : read_entries ?w ?D ?d ?t ?c = (?body, ?r) |- _ =>
          let Hf := fresh "Hf" in
          pose proof (read_entries_fresh w D d t c) as Hf;
          rewrite H in Hf; cbn [fst] in Hf
      end;
    cbn [fst snd emit]; trace_uncons;
    rewrite ?fresh_paths_app;
    cbn [fresh_paths removes_fresh_path andb map last];
    rewrite ?Hf, ?IHp; reflexivity.
Qed.

Lemma remove_dirs_no_file (w : world) (done : list string) (c : Z) :
  forallb (fun a => negb (is_file_remove a)) (fst (remove_dirs w done c))
  = true.
Proof.
  functional induction (remove_dirs w done c);
    cbn [fst snd emit]; rewrite ?forallb_app; unfold clear_every;
    try destruct (Z.rem allocation_counter 100 =? 0);
    cbn [forallb is_file_remove negb andb]; trivial.
Qed.

(** X19.  A path handed to [apr_file_remove] is the path built, with
    success and in the inner pool, by the call just before it: between the
    building of a path in the inner pool and its use the pool is not
    cleared, and nothing else is called. *)
Theorem files_are_removed_by_fresh_paths (fuel : nat) (w : world)
    (root : string) (tr : list action) (result : option (lua_return bool))
    (w' : world) :
  lua_apr_dir_remove_recursive fuel w root = (tr, result, w') ->
  forall pre P s post,
    tr = pre ++ Call_file_remove P s :: post ->
    exists pre' D add,
      pre = pre' ++ [Call_filepath_merge D add inner_pool APR_SUCCESS P].
Proof.
  intros H pre P s post Htr.
  apply lua_remove_recursive_status in H.
  destruct H as (status & H & _).
  apply remove_recursive_calls in H.
  destruct H as (hdr & t3 & t4 & ftr & Htr' & Hh & H3 & H4 & Hf).
  apply cleanup_part_paths in Hf.
  assert (Hall : fresh_paths None tr = true).
  { rewrite Htr', !fresh_paths_app.
    rewrite (fresh_paths_others hdr).
    2:{ rewrite forallb_forall in *. intros a Ha. apply Hh in Ha.
        destruct a; try discriminate; reflexivity. }
    assert (H3' : forall prev, fresh_paths prev t3 = true)
      by (destruct H3 as [->|[w3 ->]]; [reflexivity | apply walk_fresh]).
    rewrite H3'. rewrite (fresh_paths_others t4).
    2:{ destruct H4 as [->|(w4 & done & c & ->)];
          [reflexivity | apply remove_dirs_no_file]. }
    rewrite (fresh_paths_others ftr); [reflexivity|].
    rewrite forallb_forall in *. intros a Ha. apply Hf in Ha.
    destruct a; try discriminate; reflexivity. }
  rewrite Htr in Hall. apply fresh_paths_split in Hall.
  destruct Hall as (D & add & Hl).
  destruct pre as [|a pre] using rev_ind; [discriminate|].
  rewrite map_app in Hl. cbn [map] in Hl. rewrite last_last in Hl.
  injection Hl as ->.
  exists pre, D, add. reflexivity.
Qed.

End FreshPathsTheory.

Lemma files_are_removed_by_fresh_paths_witness :
  exists pre' D add,
    firstn 15 sample_trace
    = pre' ++ [Call_filepath_merge D add inner_pool APR_SUCCESS "/tmp/t/a"].
Proof.
  apply (@files_are_removed_by_fresh_paths sim_runtime 10 sample_tree "/tmp/t"
           sample_trace (Some (Pushed true)) [] sample_run_is_run
           (firstn 15 sample_trace) "/tmp/t/a" APR_SUCCESS
           (skipn 16 sample_trace)).
  reflexivity.
Defined.

(** ** apr.dir_remove_recursive over the small file system *)

Lemma sim_key_unique (w : list sim_node) (a b : sim_node) :
  sim_wf w -> In a w -> In b w -> node_path a = node_path b -> a = b.
Proof.
  intros [Hn Hs] Ha Hb Hp. rewrite Forall_forall in Hs.
  apply sim_join_inj in Hp; [|apply Hs, Ha | apply Hs, Hb].
  destruct Hp as [Hp1 Hp2].
  assert (Hk : (node_parent a, node_name a) = (node_parent b, node_name b))
    by congruence.
  clear Hs Hp1 Hp2. induction w as [|x w IH]; [contradiction|].
  cbn in Hn. apply NoDup_cons_iff in Hn. destruct Hn as [Hx Hn].
  destruct Ha as [->|Ha], Hb as [->|Hb]; trivial.
  - exfalso. apply Hx. rewrite Hk. apply in_map_iff. exists b. tauto.
  - exfalso. apply Hx. rewrite <- Hk. apply in_map_iff. exists a. tauto.
  - auto.
Qed.

Lemma sim_is_dir_spec (w : list sim_node) (p : string) :
  sim_is_dir w p = true <->
  exists m, In m w /\ node_path m = p /\ is_dir_node m = true.
Proof.
  unfold sim_is_dir. rewrite existsb_exists. split.
  - intros (m & Hin & H). apply andb_prop in H. destruct H as [H1 H2].
    apply String.eqb_eq in H1. exists m. auto.
  - intros (m & Hin & H1 & H2). exists m. split; [exact Hin|].
    apply andb_true_intro. split; [apply String.eqb_eq; exact H1 | exact H2].
Qed.

Section SimSteps.

Variable u : list sim_node.
Variable D : string.

(** The steps of the inner loop over the entries of the small file
    system: where the loop goes on, and the subdirectories met. *)
Lemma sim_step_end (todo : list string) (c : Z) :
  snd (@read_entries sim_runtime u D [] todo c) = @Entries_done sim_runtime u [] todo c
  /\ subdirectories_met (fst (@read_entries sim_runtime u D [] todo c)) = [].
Proof. cbn [read_entries fst snd]. split; [reflexivity|]. trace_simpl. reflexivity. Qed.

Lemma sim_step_marker (nm : string) (rest : apr_dir_t) (todo : list string)
    (c : Z) :
  filename_symbolic nm = true ->
  snd (@read_entries sim_runtime u D (sim_marker nm :: rest) todo c)
  = snd (@read_entries sim_runtime u D rest todo c)
  /\ subdirectories_met
       (fst (@read_entries sim_runtime u D (sim_marker nm :: rest) todo c))
     = subdirectories_met (fst (@read_entries sim_runtime u D rest todo c)).
Proof.
  intros H. cbn [read_entries sim_marker name APR_STATUS_IS_ENOENT Z.eqb
                 APR_SUCCESS APR_ENOENT negb andb].
  rewrite H. cbn [emit fst snd]. split; [reflexivity|]. trace_simpl.
  reflexivity.
Qed.

Lemma sim_step_dir (n : sim_node) (rest : apr_dir_t) (todo : list string)
    (c : Z) :
  filename_symbolic (node_name n) = false -> is_dir_node n = true ->
  snd (@read_entries sim_runtime u D (sim_entry n :: rest) todo c)
  = snd (@read_entries sim_runtime u D rest
           (sim_join D (node_name n) :: todo) c)
  /\ subdirectories_met
       (fst (@read_entries sim_runtime u D (sim_entry n :: rest) todo c))
     = (D, sim_join D (node_name n))
         :: subdirectories_met
              (fst (@read_entries sim_runtime u D rest
                      (sim_join D (node_name n) :: todo) c)).
Proof.
  intros Hs Hd. unfold is_dir_node in Hd.
  cbn [read_entries sim_entry name filetype APR_STATUS_IS_ENOENT Z.eqb
       APR_SUCCESS APR_ENOENT negb andb].
  rewrite Hs, Hd.
  cbn [apr_filepath_merge apr_array_alloc sim_runtime Z.eqb APR_SUCCESS negb
       emit fst snd].
  split; [reflexivity|]. trace_simpl. reflexivity.
Qed.

Lemma sim_step_file (n : sim_node) (rest : apr_dir_t) (todo : list string)
    (c : Z) :
  filename_symbolic (node_name n) = false -> is_dir_node n = false ->
  In n u -> node_parent n = D ->
  let u1 := snd (sim_file_remove u (node_path n)) in
  fst (sim_file_remove u (node_path n)) = APR_SUCCESS
  /\ snd (@read_entries sim_runtime u D (sim_entry n :: rest) todo c)
     = snd (@read_entries sim_runtime u1 D rest todo (int_of (c + 1)))
  /\ subdirectories_met
       (fst (@read_entries sim_runtime u D (sim_entry n :: rest) todo c))
     = subdirectories_met
         (fst (@read_entries sim_runtime u1 D rest todo (int_of (c + 1)))).
Proof.
  intros Hs Hd Hin Hp u1.
  assert (Hhit : existsb (fun m => String.eqb (node_path m) (node_path n)
                            && negb (apr_filetype_eqb (node_type m) APR_DIR))
                   u = true).
  { apply existsb_exists. exists n. split; [exact Hin|].
    rewrite String.eqb_refl. unfold is_dir_node in Hd. rewrite Hd.
    reflexivity. }
  assert (Hrm : sim_file_remove u (node_path n) = (APR_SUCCESS, u1)).
  { unfold u1, sim_file_remove. rewrite Hhit. reflexivity. }
  split; [rewrite Hrm; reflexivity|].
  unfold is_dir_node in Hd.
  cbn [read_entries sim_entry name filetype APR_STATUS_IS_ENOENT Z.eqb
       APR_SUCCESS APR_ENOENT negb andb].
  rewrite Hs, Hd.
  cbn [apr_filepath_merge apr_file_remove sim_runtime Z.eqb APR_SUCCESS].
  replace (sim_join D (node_name n)) with (node_path n)
    by (unfold node_path; rewrite Hp; reflexivity).
  rewrite Hrm. cbn [Z.eqb APR_SUCCESS emit fst snd].
  split; [reflexivity|]. trace_simpl. reflexivity.
Qed.

End SimSteps.

Lemma sim_names_ok_filter (p : sim_node -> bool) (w : list sim_node) :
  sim_names_ok w -> sim_names_ok (filter p w).
Proof.
  unfold sim_names_ok. rewrite !Forall_forall. intros H n Hn.
  apply filter_In in Hn. apply H. tauto.
Qed.

Lemma sim_file_remove_spec (u : list sim_node) (a : sim_node) :
  sim_wf u -> In a u -> is_dir_node a = false ->
  forall n,
    In n (snd (sim_file_remove u (node_path a))) <-> In n u /\ n <> a.
Proof.
  intros Hwf Ha Hd n. unfold sim_file_remove.
  assert (Hhit : existsb (fun m => String.eqb (node_path m) (node_path a)
                            && negb (apr_filetype_eqb (node_type m) APR_DIR))
                   u = true).
  { apply existsb_exists. exists a. split; [exact Ha|].
    rewrite String.eqb_refl. unfold is_dir_node in Hd. rewrite Hd.
    reflexivity. }
  rewrite Hhit. cbn [snd]. rewrite filter_In. split.
  - intros [Hn Hk]. split; [exact Hn|]. intros ->.
    rewrite String.eqb_refl in Hk. unfold is_dir_node in Hd.
    rewrite Hd in Hk. discriminate.
  - intros [Hn Hne]. split; [exact Hn|].
    destruct (String.eqb (node_path n) (node_path a)) eqn:E; [|reflexivity].
    apply String.eqb_eq in E. exfalso. apply Hne.
    exact (sim_key_unique u n a Hwf Hn Ha E).
Qed.

(** A pass over the entries [l] of the directory [D], all of them present:
    the loop is left by [break], the objects of [l] that are no directories
    are gone, and its directories are met and pushed on [todo]. *)
Lemma sim_pass_entries (D : string) (l : list sim_node) :
  forall (u : list sim_node) (todo : list string) (c : Z),
    sim_wf u -> sim_names_ok u -> incl l u ->
    Forall (fun n => node_parent n = D) l ->
    NoDup (map node_name l) ->
    exists u' c',
      snd (@read_entries sim_runtime u D (map sim_entry l) todo c)
      = @Entries_done sim_runtime u' []
          (rev (map node_path (filter is_dir_node l)) ++ todo) c'
      /\ subdirectories_met
           (fst (@read_entries sim_runtime u D (map sim_entry l) todo c))
         = map (fun n => (D, node_path n)) (filter is_dir_node l)
      /\ sim_wf u'
      /\ (forall n,
            In n u' <-> In n u /\ ~ (In n l /\ is_dir_node n = false)).
Proof.
  induction l as [|a l IH]; intros u todo c Hwf Hok Hincl Hpar Hnames.
  - exists u, c. cbn [map filter rev app].
    destruct (sim_step_end u D todo c) as [-> ->].
    split; [reflexivity|]. split; [reflexivity|]. split; [exact Hwf|].
    intros n. cbn [In]. tauto.
  - assert (Ha : In a u) by (apply Hincl; left; reflexivity).
    assert (Hl : incl l u) by (intros m Hm; apply Hincl; right; exact Hm).
    apply Forall_cons_iff in Hpar. destruct Hpar as [HaD Hpar].
    cbn [map] in Hnames. apply NoDup_cons_iff in Hnames.
    destruct Hnames as [Hfresh Hnames].
    assert (Hsym : filename_symbolic (node_name a) = false).
    { unfold sim_names_ok in Hok. rewrite Forall_forall in Hok.
      apply Hok, Ha. }
    assert (Hpath : sim_join D (node_name a) = node_path a)
      by (unfold node_path; rewrite HaD; reflexivity).
    cbn [map filter]. destruct (is_dir_node a) eqn:Hd.
    + destruct (sim_step_dir u D a (map sim_entry l) todo c Hsym Hd)
        as [-> ->].
      destruct (IH u (sim_join D (node_name a) :: todo) c Hwf Hok Hl Hpar
                  Hnames) as (u' & c' & -> & -> & Hwf' & Hin).
      exists u', c'. rewrite Hpath. cbn [rev map]. rewrite <- app_assoc.
      split; [reflexivity|]. split; [reflexivity|]. split; [exact Hwf'|].
      intros n. rewrite Hin. cbn [In]. split.
      * intros [Hu Hn]. split; [exact Hu|].
        intros [[<-|Hm] Hnd]; [congruence|]. apply Hn. split; assumption.
      * intros [Hu Hn]. split; [exact Hu|].
        intros [Hm Hnd]. apply Hn. split; [right; exact Hm | exact Hnd].
    + destruct (sim_step_file u D a (map sim_entry l) todo c Hsym Hd Ha HaD)
        as (_ & -> & ->).
      pose proof (sim_file_remove_spec u a Hwf Ha Hd) as Hu1.
      pose proof (sim_file_remove_wf u (node_path a) Hwf) as Hwf1.
      assert (Hok1 : sim_names_ok (snd (sim_file_remove u (node_path a)))).
      { unfold sim_file_remove. destruct (existsb _ u); cbn [snd];
          [apply sim_names_ok_filter|]; exact Hok. }
      assert (Hl1 : incl l (snd (sim_file_remove u (node_path a)))).
      { intros m Hm. apply Hu1. split; [apply Hl, Hm|]. intros ->.
        apply Hfresh. apply in_map. exact Hm. }
      destruct (IH _ todo (int_of (c + 1)) Hwf1 Hok1 Hl1 Hpar Hnames)
        as (u' & c' & -> & -> & Hwf' & Hin).
      exists u', c'.
      split; [reflexivity|]. split; [reflexivity|]. split; [exact Hwf'|].
      intros n. rewrite Hin, Hu1. cbn [In]. split.
      * intros [[Hu Hne] Hn]. split; [exact Hu|].
        intros [[<-|Hm] Hnd]; [congruence|]. apply Hn. split; assumption.
      * intros [Hu Hn]. split; [split; [exact Hu|]|].
        -- intros ->. apply Hn. split; [left; reflexivity | exact Hd].
        -- intros [Hm Hnd]. apply Hn. split; [right; exact Hm | exact Hnd].
Qed.

(** One turn of the first loop over the small file system, for a directory
    that exists and whose pass is left by [break]. *)
Lemma sim_walk_step (fuel : nat) (u : list sim_node) (D : string)
    (todo done : list string) (c : Z) (u2 : list sim_node) (d2 : apr_dir_t)
    (todo2 : list string) (c2 : Z) :
  sim_is_dir u D = true ->
  let stream :=
    sim_marker "." :: sim_marker ".."
      :: map sim_entry (filter (fun n => String.eqb (node_parent n) D) u) in
  snd (@read_entries sim_runtime u D stream todo c)
  = @Entries_done sim_runtime u2 d2 todo2 c2 ->
  @walk sim_runtime (S fuel) u (D :: todo) done c
  = emit ([Call_pool_clear middle_pool; Call_dir_open D APR_SUCCESS]
          ++ fst (@read_entries sim_runtime u D stream todo c)
          ++ [Call_dir_close APR_SUCCESS]
          ++ [Call_array_push stack_done D true])
      (@walk sim_runtime fuel u2 todo2 (D :: done) c2).
Proof.
  intros Hd stream Hs.
  cbn [walk apr_dir_open sim_runtime]. unfold sim_dir_open. rewrite Hd.
  cbn [negb Z.eqb APR_SUCCESS]. fold stream.
  destruct (@read_entries sim_runtime u D stream todo c) as [body out].
  cbn [snd fst] in *. subst out.
  cbn [apr_dir_close apr_array_alloc sim_runtime negb Z.eqb APR_SUCCESS].
  reflexivity.
Qed.

(** The pass over a directory of the small file system, from the handle
    that [apr_dir_open] gives. *)
Lemma sim_pass_directory (u : list sim_node) (D : string)
    (todo : list string) (c : Z) :
  sim_wf u -> sim_names_ok u ->
  let l := filter (fun n => String.eqb (node_parent n) D) u in
  let stream := sim_marker "." :: sim_marker ".." :: map sim_entry l in
  exists u' c',
    snd (@read_entries sim_runtime u D stream todo c)
    = @Entries_done sim_runtime u' []
        (rev (map node_path (filter is_dir_node l)) ++ todo) c'
    /\ subdirectories_met (fst (@read_entries sim_runtime u D stream todo c))
       = map (fun n => (D, node_path n)) (filter is_dir_node l)
    /\ sim_wf u'
    /\ (forall n,
          In n u' <->
          In n u /\ ~ ((In n u /\ node_parent n = D) /\ is_dir_node n = false)).
Proof.
  intros Hwf Hok l stream. unfold stream.
  destruct (sim_step_marker u D "." (sim_marker ".." :: map sim_entry l)
              todo c eq_refl) as [-> ->].
  destruct (sim_step_marker u D ".." (map sim_entry l) todo c eq_refl)
    as [-> ->].
  destruct (sim_pass_entries D l u todo c Hwf Hok) as (u' & c' & H1 & H2 & H3 & H4).
  - intros n Hn. apply filter_In in Hn. tauto.
  - apply Forall_forall. intros n Hn. apply filter_In in Hn.
    apply String.eqb_eq. tauto.
  - apply sim_names_nodup. apply Hwf.
  - exists u', c'. split; [exact H1|]. split; [exact H2|]. split; [exact H3|].
    intros n. rewrite H4. unfold l. rewrite filter_In, String.eqb_eq.
    tauto.
Qed.

Lemma tree_dirs_count (w : list sim_node) (root : string)
    (paths : list string) :
  tree_dirs w root paths -> NoDup paths ->
  (List.length paths <= List.length (filter is_dir_node w))%nat.
Proof.
  intros Ht Hn.
  rewrite <- (length_map node_path (filter is_dir_node w)).
  apply NoDup_incl_length; [exact Hn|].
  intros x Hx. destruct (Ht x Hx) as (m & Hm & <- & Hd & _).
  apply in_map, filter_In. tauto.
Qed.

Section SmallFileSystem.

Variable w : list sim_node.
Variable root : string.
Hypothesis Hok : sim_names_ok w.

Lemma files_gone_names (done : list string) (u : list sim_node) :
  files_gone w done u -> sim_names_ok u.
Proof.
  intros Hg. unfold sim_names_ok in *. rewrite Forall_forall in *.
  intros n Hn. apply Hok. apply Hg in Hn. tauto.
Qed.

(** Over a well-formed small file system the first loop, given fuel for
    every directory, ends with [todo] empty: the objects that are no
    directories are gone from every directory it passed over, and the
    subdirectories of each of them were met. *)
Lemma sim_walk_total (fuel : nat) :
  forall (u : list sim_node) (todo done : list string) (c : Z),
    sim_wf u -> files_gone w done u -> walk_inv root todo done ->
    tree_dirs w root (todo ++ done) ->
    (List.length (filter is_dir_node w) < fuel + List.length done)%nat ->
    exists t u' done' c',
      @walk sim_runtime fuel u todo done c
      = (t, @Walk_done sim_runtime u' done' c')
      /\ sim_wf u' /\ files_gone w done' u' /\ tree_dirs w root done'
      /\ NoDup done'
      /\ (forall D n,
            In D (completed t) -> In n w -> node_parent n = D ->
            is_dir_node n = true -> In (D, node_path n) (subdirectories_met t)).
Proof.
  induction fuel as [|fuel IH]; intros u todo done c Hu Hg Hinv Ht Hm.
  - destruct todo as [|D todo].
    + exists [], u, done, c. destruct Hinv as [Hnd _].
      split; [reflexivity|]. split; [exact Hu|]. split; [exact Hg|].
      split; [exact Ht|]. split; [exact Hnd|]. intros D n [].
    + exfalso. destruct Hinv as [Hnd _].
      pose proof (tree_dirs_count _ _ _ Ht Hnd) as Hc.
      rewrite length_app in Hc. cbn [List.length] in Hc. lia.
  - destruct todo as [|D todo].
    + exists [], u, done, c. destruct Hinv as [Hnd _].
      split; [reflexivity|]. split; [exact Hu|]. split; [exact Hg|].
      split; [exact Ht|]. split; [exact Hnd|]. intros D n [].
    + pose proof (files_gone_names _ _ Hg) as Huok.
      destruct (Ht D (or_introl eq_refl)) as (m & Hmw & HmD & Hmd & Hmt).
      assert (Hmu : In m u).
      { apply Hg. split; [exact Hmw|]. intros [Hx _]. congruence. }
      assert (Hdir : sim_is_dir u D = true)
        by (apply sim_is_dir_spec; exists m; auto).
      destruct (sim_pass_directory u D todo c Hu Huok)
        as (u2 & c2 & Hs & Hmet & Hu2 & Hin2).
      set (l := filter (fun n => String.eqb (node_parent n) D) u) in *.
      rewrite (sim_walk_step fuel u D todo done c u2 [] _ c2 Hdir Hs).
      assert (Hpaths : map node_path (filter is_dir_node l)
                       = map (sim_join D) (map node_name (filter is_dir_node l))).
      { rewrite map_map. apply map_ext_in. intros n Hn.
        apply filter_In in Hn. destruct Hn as [Hn _].
        apply filter_In in Hn. destruct Hn as [_ Hn].
        apply String.eqb_eq in Hn. unfold node_path. rewrite Hn.
        reflexivity. }
      assert (Hinv2 : walk_inv root
                        (rev (map node_path (filter is_dir_node l)) ++ todo)
                        (D :: done)).
      { rewrite Hpaths. apply walk_inv_step; [exact Hinv| |].
        - apply nodup_map_filter, sim_names_nodup, Hu.
        - apply Forall_forall. intros x Hx. apply in_map_iff in Hx.
          destruct Hx as (n & <- & Hn). apply filter_In in Hn.
          destruct Hn as [Hn _]. apply filter_In in Hn.
          destruct Hu as [_ Hs']. rewrite Forall_forall in Hs'.
          apply Hs'. tauto. }
      assert (Hg2 : files_gone w (D :: done) u2).
      { intros n. rewrite Hin2. cbn [In]. split.
        - intros [Hn Hno]. pose proof (proj1 (Hg n) Hn) as [Hnw Hnd].
          split; [exact Hnw|]. intros [Hf [HD|HD]].
          + apply Hno. auto.
          + apply Hnd. auto.
        - intros [Hnw Hno].
          assert (Hn : In n u)
            by (apply Hg; split; [exact Hnw|]; intros [Hf HD]; apply Hno; auto).
          split; [exact Hn|]. intros [[_ HD] Hf]. apply Hno. auto. }
      assert (Ht2 : tree_dirs w root
                      ((rev (map node_path (filter is_dir_node l)) ++ todo)
                       ++ D :: done)).
      { intros x Hx. rewrite <- app_assoc in Hx. apply in_app_or in Hx.
        destruct Hx as [Hx|Hx].
        - apply in_rev, in_map_iff in Hx. destruct Hx as (n & <- & Hn).
          apply filter_In in Hn. destruct Hn as [Hn Hnd].
          apply filter_In in Hn. destruct Hn as [Hn HnD].
          apply String.eqb_eq in HnD.
          assert (Hnw : In n w) by (apply Hg in Hn; tauto).
          exists n. repeat split; trivial.
          apply (tree_child w root n m); trivial. congruence.
        - apply Ht. cbn. apply in_app_or in Hx.
          destruct Hx as [Hx|[Hx|Hx]]; [right; apply in_or_app; auto | auto |].
          right. apply in_or_app. auto. }
      destruct (IH u2 _ (D :: done) c2 Hu2 Hg2 Hinv2 Ht2)
        as (t & u' & done' & c' & Hw & Hu' & Hg' & Ht' & Hnd' & HM).
      { cbn [List.length]. lia. }
      rewrite Hw. cbn [emit fst snd].
      eexists _, u', done', c'. split; [reflexivity|].
      split; [exact Hu'|]. split; [exact Hg'|]. split; [exact Ht'|].
      split; [exact Hnd'|].
      intros D0 n HD0 Hnw HnD Hnd. subst l.
      destruct (@read_entries_quiet sim_runtime u D
                  (sim_marker "." :: sim_marker ".."
                   :: map sim_entry
                        (filter (fun n => String.eqb (node_parent n) D) u))
                  todo c) as [Hq _].
      rewrite !completed_app, Hq in HD0. cbn in HD0.
      rewrite !subdirectories_met_app, Hmet.
      cbn [subdirectories_met flat_map app]. rewrite ?app_nil_r, !in_app_iff.
      destruct HD0 as [<-|HD0].
      * left. apply in_map_iff. exists n.
        split; [congruence|]. apply filter_In. split; [|exact Hnd].
        apply filter_In. split; [|apply String.eqb_eq; exact HnD].
        apply Hg. split; [exact Hnw|]. intros [Hf _]. congruence.
      * right. apply (HM D0 n); assumption.
Qed.

End SmallFileSystem.

(** Over the small file system the second loop removes every directory of
    [ds], when each one exists and whatever an earlier directory of [ds]
    did not hold has left it already. *)
Lemma sim_remove_dirs_total (ds : list string) :
  forall (u : list sim_node) (c : Z),
    NoDup ds ->
    (forall D, In D ds ->
       exists m, In m u /\ node_path m = D /\ is_dir_node m = true) ->
    (forall l1 D l2 n,
       ds = l1 ++ D :: l2 -> In n u -> node_parent n = D ->
       In (node_path n) l1) ->
    exists t u',
      @remove_dirs sim_runtime u ds c = (t, (APR_SUCCESS, u'))
      /\ forall n, In n u' <-> In n u /\ ~ In (node_path n) ds.
Proof.
  induction ds as [|d ds IH]; intros u c Hnd Hex Hch.
  - exists [], u. split; [reflexivity|]. intros n. cbn [In]. tauto.
  - apply NoDup_cons_iff in Hnd. destruct Hnd as [Hd Hnd].
    assert (Hdir : sim_is_dir u d = true)
      by (apply sim_is_dir_spec, Hex; left; reflexivity).
    assert (Hempty : existsb (fun n => String.eqb (node_parent n) d) u = false).
    { destruct (existsb _ u) eqn:E; [|reflexivity]. exfalso.
      apply existsb_exists in E. destruct E as (n & Hn & Hp).
      apply String.eqb_eq in Hp.
      exact (Hch [] d ds n eq_refl Hn Hp). }
    set (u1 := filter (fun n => negb (String.eqb (node_path n) d)) u).
    assert (Hu1 : forall n, In n u1 <-> In n u /\ node_path n <> d).
    { intros n. unfold u1. rewrite filter_In, negb_true_iff.
      split; intros [H1 H2]; (split; [exact H1|]).
      - intros E. apply String.eqb_eq in E. congruence.
      - apply String.eqb_neq. exact H2. }
    destruct (IH u1 (int_of (c + 1)) Hnd) as (t & u' & Hr & Hin).
    + intros D HD. destruct (Hex D (or_intror HD)) as (m & Hm & Hp & Hmd).
      exists m. split; [|auto]. apply Hu1. split; [exact Hm|]. congruence.
    + intros l1 D l2 n -> Hn Hp. apply Hu1 in Hn. destruct Hn as [Hn Hne].
      destruct (Hch (d :: l1) D l2 n eq_refl Hn Hp) as [E|Hin];
        [congruence | exact Hin].
    + eexists _, u'. split.
      * cbn [remove_dirs apr_dir_remove sim_runtime]. unfold sim_dir_remove.
        rewrite Hdir, Hempty. cbn [negb Z.eqb APR_SUCCESS]. fold u1.
        rewrite Hr. cbn [emit fst snd]. reflexivity.
      * intros n. rewrite Hin, Hu1. cbn [In]. split.
        -- intros [[Hn Hne] Hds]. split; [exact Hn|]. intros [E|Hx]; auto.
        -- intros [Hn Hno]. split; [split; [exact Hn|]|]; auto.
Qed.

(** X20.  On a well-formed small file system in which no object is named
    like a marker, [apr.dir_remove_recursive] on a directory, with fuel for
    every object, returns true, and what is left of the file system is what
    was not in the tree of that directory: the directory and everything
    below it are gone and nothing else is. *)
Theorem sim_removes_the_tree (fuel : nat) (w : list sim_node) (root : string) :
  sim_wf w -> sim_names_ok w -> sim_is_dir w root = true ->
  (List.length w < fuel)%nat ->
  exists tr w',
    @lua_apr_dir_remove_recursive sim_runtime fuel w root
    = (tr, Some (Pushed true), w')
    /\ forall n, In n w' <-> In n w /\ ~ in_tree w root n.
Proof.
  intros Hwf Hok Hroot Hfuel.
  assert (Hinv : walk_inv root [root] []).
  { split.
    - repeat constructor. intros [].
    - intros x [<-|[]]. split; [lia | left; reflexivity]. }
  assert (Ht0 : tree_dirs w root ([root] ++ [])).
  { intros x [<-|[]]. apply sim_is_dir_spec in Hroot.
    destruct Hroot as (m & Hm & Hp & Hd). exists m.
    repeat split; trivial. apply tree_root; assumption. }
  assert (Hg0 : files_gone w [] w) by (intros n; cbn [In]; tauto).
  assert (Hm0 : (List.length (filter is_dir_node w) < fuel + 0)%nat).
  { pose proof (filter_length_le is_dir_node w). cbn [List.length]. lia. }
  destruct (sim_walk_total w root Hok fuel w [root] [] 0 Hwf Hg0 Hinv Ht0 Hm0)
    as (t & u' & done' & c' & Hw & Hu' & Hg' & Ht' & Hnd' & HM).
  pose proof (@walk_order sim_runtime fuel w [root] [] 0 u' done' c') as Ho.
  rewrite Hw in Ho. cbn [fst snd] in Ho. specialize (Ho eq_refl).
  destruct Ho as (Hdone & Htodo & Hsub). rewrite app_nil_r in Hdone.
  assert (Hcompleted : forall x, In x done' <-> In x (completed t))
    by (intros x; rewrite Hdone; symmetry; apply in_rev).
  destruct (sim_remove_dirs_total done' u' c' Hnd') as (t4 & u4 & Hr & Hin4).
  { intros D HD. destruct (Ht' D HD) as (m & Hm & Hp & Hd & _).
    exists m. split; [|auto]. apply Hg'. split; [exact Hm|].
    intros [Hf _]. congruence. }
  { intros l1 D l2 n Hsplit Hn Hp.
    apply Hg' in Hn. destruct Hn as [Hnw Hnf].
    assert (HD : In D done')
      by (rewrite Hsplit; apply in_or_app; right; left; reflexivity).
    assert (Hd : is_dir_node n = true).
    { destruct (is_dir_node n); [reflexivity|]. exfalso. apply Hnf.
      split; [reflexivity | congruence]. }
    pose proof (HM D n (proj1 (Hcompleted D) HD) Hnw Hp Hd) as Hmet.
    destruct (Hsub _ _ Hmet) as (c1 & c2 & Hc & Hc2).
    rewrite Hc, rev_app_distr in Hdone. cbn [rev] in Hdone.
    rewrite <- app_assoc in Hdone. cbn [app] in Hdone.
    rewrite Hsplit in Hdone.
    apply nodup_split_unique in Hdone; [|rewrite <- Hsplit; exact Hnd'].
    destruct Hdone as [-> _]. apply in_rev in Hc2. exact Hc2. }
  exists (([Call_pool_create outer_pool APR_SUCCESS;
            Call_pool_create middle_pool APR_SUCCESS;
            Call_pool_create inner_pool APR_SUCCESS]
           ++ [Call_array_make stack_todo true; Call_array_make stack_done true]
           ++ [Call_array_push stack_todo root true] ++ t ++ t4
           ++ [] ++ map Call_pool_destroy [inner_pool; middle_pool; outer_pool])),
         u4.
  split.
  - unfold lua_apr_dir_remove_recursive, remove_recursive_status.
    cbn [create_pools apr_pool_create apr_array_alloc sim_runtime Z.eqb
         APR_SUCCESS negb orb].
    rewrite Hw, Hr. reflexivity.
  - assert (HA : forall n,
               in_tree w root n ->
               (is_dir_node n = true -> In (node_path n) done')
               /\ (is_dir_node n = false -> In (node_parent n) done')).
    { induction 1 as [n Hn Hp Hd|n m Hm IHm Hmd Hn Hp].
      - split; [|congruence]. intros _. apply Hcompleted, Htodo.
        left. auto.
      - destruct IHm as [IHm _]. specialize (IHm Hmd). split.
        + intros Hd. apply Hcompleted.
          pose proof (HM _ n (proj1 (Hcompleted _) IHm) Hn Hp Hd) as Hmet.
          destruct (Hsub _ _ Hmet) as (c1 & c2 & -> & Hc2).
          apply in_or_app. right. right. exact Hc2.
        + intros _. rewrite Hp. exact IHm. }
    intros n. rewrite Hin4. split.
    + intros [Hn Hno]. apply Hg' in Hn. destruct Hn as [Hnw Hnf].
      split; [exact Hnw|]. intros Htree. apply HA in Htree.
      destruct Htree as [H1 H2].
      destruct (is_dir_node n) eqn:Hd; [apply Hno; auto|].
      apply Hnf. auto.
    + intros [Hnw Hno]. split.
      * apply Hg'. split; [exact Hnw|]. intros [Hf Hp]. apply Hno.
        destruct (Ht' _ Hp) as (m & Hm & Hpm & Hd & Hmt).
        apply (tree_child w root n m); auto.
      * intros Hp. apply Hno.
        destruct (Ht' _ Hp) as (m & Hm & Hpm & Hd & Hmt).
        rewrite (sim_key_unique w n m Hwf Hnw Hm); auto.
Qed.

(** The sample tree at [/tmp/t] is removed whole; what is left is empty,
    since the sample holds nothing else. *)
Lemma sim_removes_the_tree_witness :
  exists tr w',
    @lua_apr_dir_remove_recursive sim_runtime 5 sample_tree "/tmp/t"
    = (tr, Some (Pushed true), w')
    /\ forall n, In n w' <-> In n sample_tree /\ ~ in_tree sample_tree "/tmp/t" n.
Proof.
  apply (sim_removes_the_tree 5 sample_tree "/tmp/t").
  - split.
    + repeat constructor; cbn; intuition discriminate.
    + repeat constructor.
  - repeat constructor.
  - reflexivity.
  - cbn. lia.
Defined.

(** ** apr.dir_remove_recursive: the size of the inner pool *)

Lemma alive_ok_app (k : Z) (a b : list action) :
  alive_ok k (a ++ b)
  = alive_ok k a && alive_ok (fold_left alive_step a k) b.
Proof.
  revert k. induction a as [|x a IH]; intros k; cbn; [reflexivity|].
  rewrite IH, andb_assoc. reflexivity.
Qed.

Lemma alive_seq (k k1 k2 : Z) (a b : list action) :
  alive_ok k a = true /\ fold_left alive_step a k = k1 ->
  alive_ok k1 b = true /\ fold_left alive_step b k1 = k2 ->
  alive_ok k (a ++ b) = true /\ fold_left alive_step (a ++ b) k = k2.
Proof.
  intros [H1 H2] [H3 H4].
  rewrite alive_ok_app, fold_left_app, H1, H2, H3, H4. split; reflexivity.
Qed.

Lemma alive_ok_prefix (k : Z) (pre post : list action) :
  k <= 1000 -> alive_ok k (pre ++ post) = true ->
  fold_left alive_step pre k <= 1000.
Proof.
  revert k. induction pre as [|a pre IH]; intros k Hk H; [exact Hk|].
  cbn in H. apply andb_prop in H. destruct H as [Ha H].
  apply Z.leb_le in Ha. cbn. apply IH; assumption.
Qed.

Lemma alive_others (tr : list action) :
  forallb (fun a => negb (is_inner_call a)) tr = true ->
  forall k, k <= 1000 ->
    alive_ok k tr = true /\ fold_left alive_step tr k = k
    /\ count is_inner_merge tr = 0.
Proof.
  induction tr as [|a tr IH]; intros H k Hk; [repeat split|].
  cbn in H. apply andb_prop in H. destruct H as [Ha H].
  destruct (IH H k Hk) as (IH1 & IH2 & IH3).
  assert (Hs : alive_step k a = k /\ is_inner_merge a = false)
    by (destruct a as [| [] | | | | | | |? ? [] ? ?| |];
        try discriminate; split; reflexivity).
  destruct Hs as [Hs Hm]. cbn [alive_ok fold_left]. rewrite Hs, IH1, IH2.
  split; [|split; [reflexivity|]].
  - apply andb_true_intro. split; [apply Z.leb_le; exact Hk | reflexivity].
  - unfold count in *. cbn [filter]. rewrite Hm. exact IH3.
Qed.

Lemma alive_cap_bounds (c : Z) :
  0 <= c mod 1000 <= alive_cap c /\ alive_cap c <= 1000.
Proof.
  unfold alive_cap. pose proof (Z.mod_pos_bound c 1000 ltac:(lia)).
  destruct (c mod 1000 =? 0) eqn:E; lia.
Qed.

Lemma alive_cap_next (c k : Z) :
  0 <= k <= c mod 1000 -> 0 <= k + 1 <= alive_cap (c + 1).
Proof.
  intros Hk. unfold alive_cap.
  pose proof (Z.mod_pos_bound c 1000 ltac:(lia)) as Hb.
  pose proof (Z.div_mod c 1000 ltac:(lia)) as Hc.
  destruct (Z.eq_dec (c mod 1000) 999) as [E|E].
  - assert (Hn : (c + 1) mod 1000 = 0).
    { symmetry. apply Z.mod_unique with (q := c / 1000 + 1); lia. }
    rewrite Hn. cbn. lia.
  - assert (Hn : (c + 1) mod 1000 = c mod 1000 + 1).
    { symmetry. apply Z.mod_unique with (q := c / 1000); lia. }
    rewrite Hn. destruct (c mod 1000 + 1 =? 0) eqn:E0; lia.
Qed.

(** The check at the head of the inner loop, and the read after it. *)
Lemma alive_here (k c : Z) (status : apr_status_t) (info : apr_finfo_t) :
  0 <= c -> 0 <= k <= alive_cap c ->
  let here := clear_every 1000 inner_pool c ++ [Call_dir_read status info] in
  alive_ok k here = true
  /\ 0 <= fold_left alive_step here k <= c mod 1000
  /\ count is_inner_merge here = 0.
Proof.
  intros Hc Hk here. unfold here, clear_every, alive_cap in *.
  rewrite Z.rem_mod_nonneg by lia.
  pose proof (Z.mod_pos_bound c 1000 ltac:(lia)) as Hb.
  destruct (c mod 1000 =? 0) eqn:E; cbn.
  - apply Z.eqb_eq in E. split; [reflexivity|]. split; [lia | reflexivity].
  - split; [|split; [lia | reflexivity]].
    rewrite andb_true_r. apply Z.leb_le. lia.
Qed.

Lemma count_single (f : action -> bool) (a : action) :
  count f [a] = if f a then 1 else 0.
Proof. unfold count. cbn. destruct (f a); reflexivity. Qed.

Lemma count_nonneg (f : action -> bool) (tr : list action) : 0 <= count f tr.
Proof. unfold count. lia. Qed.

Lemma count_cons (f : action -> bool) (a : action) (tr : list action) :
  count f (a :: tr) = (if f a then 1 else 0) + count f tr.
Proof.
  unfold count. cbn [filter]. destruct (f a); cbn [List.length]; lia.
Qed.

Section InnerPoolTheory.

Context {DR : DirRuntime}.

Lemma read_entries_alive (w : world) (D : string) (directory : apr_dir_t)
    (todo : list string) (c : Z) :
  forall k,
    0 <= c ->
    c + count is_inner_merge (fst (read_entries w D directory todo c)) < 2 ^ 31 ->
    0 <= k <= alive_cap c ->
    alive_ok k (fst (read_entries w D directory todo c)) = true
    /\ 0 <= fold_left alive_step (fst (read_entries w D directory todo c)) k
       <= 1000
    /\ forall w' d' todo' c',
         snd (read_entries w D directory todo c) = Entries_done w' d' todo' c' ->
         0 <= c'
         /\ c' = c + count is_inner_merge (fst (read_entries w D directory todo c))
         /\ fold_left alive_step (fst (read_entries w D directory todo c)) k
            <= alive_cap c'.
Proof.
  functional induction (read_entries w D directory todo c);
    intros k Hc Hn Hk.
  all: cbn [fst snd emit] in *.
  all: try match goal with
         | |- context [clear_every 1000 inner_pool ?c
                       ++ [Call_dir_read ?s ?i]] =>
             pose proof (alive_here k c s i Hc Hk) as Hhere;
             cbv zeta in Hhere;
             set (here := clear_every 1000 inner_pool c ++ [Call_dir_read s i])
               in *;
             destruct Hhere as (Hh1 & Hh2 & Hh3);
             set (k0 := fold_left alive_step here k) in *
         end.
  all: pose proof (alive_cap_bounds allocation_counter) as Hcap.
  all: rewrite <- ?app_assoc in Hn; rewrite <- ?app_assoc.
  all: rewrite ?count_app in Hn; rewrite ?Hh3, ?count_single in Hn.
  all: rewrite ?alive_ok_app, ?fold_left_app, ?count_app.
  all: fold k0; rewrite ?Hh1, ?Hh3, ?count_single.
  all: cbn [alive_ok alive_step fold_left andb is_inner_merge] in Hn |- *.
  all: pose proof (Z.mod_pos_bound allocation_counter 1000 ltac:(lia)) as Hb.
  all: assert (Hle0 : (k0 <=? 1000) = true) by (apply Z.leb_le; lia).
  all: assert (Hle1 : (k0 + 1 <=? 1000) = true) by (apply Z.leb_le; lia).
  all: rewrite ?Hle0, ?Hle1; cbn [andb].
  all: try (split; [reflexivity|]; split; [lia|];
            intros w' d' todo' c' E; try discriminate;
            injection E as <- <- <- <-; lia).
  - pose proof (count_nonneg is_inner_merge
                  (fst (read_entries w filepath rest todo allocation_counter))).
    destruct (IHp k0 Hc ltac:(lia) ltac:(lia)) as (I1 & I2 & I3).
    split; [exact I1|]. split; [exact I2|].
    intros w' d' todo' c' E. destruct (I3 _ _ _ _ E) as (? & ? & ?). lia.
  - pose proof (count_nonneg is_inner_merge
                  (fst (read_entries w1 filepath rest (tmp :: todo)
                          allocation_counter))).
    destruct (IHp k0 Hc ltac:(lia) ltac:(lia)) as (I1 & I2 & I3).
    split; [exact I1|]. split; [exact I2|].
    intros w' d' todo' c' E. destruct (I3 _ _ _ _ E) as (? & ? & ?). lia.
  - pose proof (count_nonneg is_inner_merge
                  (fst (read_entries w1 filepath rest todo
                          (int_of (allocation_counter + 1))))).
    assert (Hi : int_of (allocation_counter + 1) = allocation_counter + 1)
      by (apply int_of_id; unfold int_range; lia).
    rewrite Hi in *.
    pose proof (alive_cap_next allocation_counter k0 Hh2).
    destruct (IHp (k0 + 1) ltac:(lia) ltac:(lia) ltac:(lia)) as (I1 & I2 & I3).
    split; [exact I1|]. split; [exact I2|].
    intros w' d' todo' c' E. destruct (I3 _ _ _ _ E) as (? & ? & ?). lia.
Qed.

Lemma loop_calls_not_inner (q : action -> bool) (tr : list action) :
  (forall a, q a = true -> is_inner_call a = false) ->
  forallb q tr = true ->
  forallb (fun a => negb (is_inner_call a)) tr = true.
Proof.
  intros Hq H. rewrite forallb_forall in *. intros a Ha.
  rewrite (Hq a (H a Ha)). reflexivity.
Qed.


Lemma walk_alive (fuel : nat) (w : world) (todo done : list string) (c : Z) :
  forall k,
    0 <= c ->
    c + count is_inner_merge (fst (walk fuel w todo done c)) < 2 ^ 31 ->
    0 <= k <= alive_cap c ->
    alive_ok k (fst (walk fuel w todo done c)) = true
    /\ 0 <= fold_left alive_step (fst (walk fuel w todo done c)) k <= 1000.
Proof.
  functional induction (walk fuel w todo done c); intros k Hc Hn Hk.
  all: cbn [fst snd emit] in *.
  all: pose proof (alive_cap_bounds allocation_counter) as Hcap.
  all: assert (Hle : (k <=? 1000) = true) by (apply Z.leb_le; lia).
  all: rewrite <- ?app_assoc in Hn; rewrite <- ?app_assoc.
  all: rewrite ?count_app in Hn; rewrite ?count_cons in Hn.
  all: change (count is_inner_merge []) with 0 in Hn.
  all: cbn [app is_inner_merge] in Hn |- *.
  all: cbn [alive_ok alive_step fold_left andb]; rewrite ?Hle; cbn [andb].
  all: try (split; [reflexivity | lia]).
  all: match goal with
       | H : read_entries ?w1 ?D ?d ?t ?c0 = (?body, ?r) |- _ =>
           pose proof (read_entries_alive w1 D d t c0 k Hc) as Hbody;
           rewrite H in Hbody; cbn [fst snd] in Hbody;
           pose proof (count_nonneg is_inner_merge body) as Hcount
       end.
  all: rewrite ?alive_ok_app, ?fold_left_app.
  all: cbn [alive_ok alive_step fold_left andb].
  all: try pose proof (count_nonneg is_inner_merge
                         (fst (walk fuel' w4 todo2 (filepath :: done)
                                 counter2))) as Hrec.
  all: destruct (Hbody ltac:(lia) Hk) as (B1 & B2 & B3); rewrite B1;
    cbn [andb];
    assert (Hle' : (fold_left alive_step body k <=? 1000) = true)
      by (apply Z.leb_le; lia);
    rewrite ?Hle'; cbn [andb]; try (split; [reflexivity | exact B2]).
  destruct (B3 _ _ _ _ eq_refl) as (C1 & C2 & C3).
  apply IHp; lia.
Qed.

Lemma remove_dirs_not_inner (w : world) (done : list string) (c : Z) :
  forallb (fun a => negb (is_inner_call a)) (fst (remove_dirs w done c)) = true.
Proof.
  functional induction (remove_dirs w done c);
    cbn [fst snd emit]; rewrite ?forallb_app; unfold clear_every;
    try destruct (Z.rem allocation_counter 100 =? 0);
    cbn [forallb is_inner_call negb andb]; trivial.
Qed.

(** X21.  As long as the counter of paths stays within [int] (fewer than
    2^31 entries that are no directories), the inner pool of
    [apr.dir_remove_recursive] never holds more than 1000 paths: at every
    point of the run at most 1000 paths have been built in it since it was
    last cleared. *)
Theorem inner_pool_holds_at_most_1000_paths (fuel : nat) (w : world)
    (root : string) (tr : list action) (result : option (lua_return bool))
    (w' : world) :
  lua_apr_dir_remove_recursive fuel w root = (tr, result, w') ->
  count is_inner_merge tr < 2 ^ 31 ->
  forall pre post, tr = pre ++ post -> 0 <= inner_alive pre <= 1000.
Proof.
  intros H Hn pre post Htr.
  apply lua_remove_recursive_status in H.
  destruct H as (status & H & _).
  apply remove_recursive_calls in H.
  destruct H as (hdr & t3 & t4 & ftr & Htr' & Hh & H3 & H4 & Hf).
  apply cleanup_part_paths in Hf.
  assert (Hhdr : forallb (fun a => negb (is_inner_call a)) hdr = true).
  { apply (loop_calls_not_inner is_setup_call); [|exact Hh].
    intros []; cbn; congruence. }
  assert (Hftr : forallb (fun a => negb (is_inner_call a)) ftr = true).
  { apply (loop_calls_not_inner is_cleanup_call); [|exact Hf].
    intros []; cbn; congruence. }
  assert (H4' : forallb (fun a => negb (is_inner_call a)) t4 = true)
    by (destruct H4 as [->|(w4 & done & c & ->)];
        [reflexivity | apply remove_dirs_not_inner]).
  destruct (alive_others hdr Hhdr 0 ltac:(lia)) as (A1 & A2 & A3).
  rewrite Htr', !count_app, A3 in Hn.
  pose proof (count_nonneg is_inner_merge t4).
  pose proof (count_nonneg is_inner_merge ftr).
  assert (H3' : alive_ok 0 t3 = true
                /\ 0 <= fold_left alive_step t3 0 <= 1000).
  { destruct H3 as [->|[w3 ->]]; [split; [reflexivity | cbn; lia]|].
    apply walk_alive; [lia | cbn; lia | cbn; lia]. }
  destruct H3' as [B1 B2].
  destruct (alive_others t4 H4' (fold_left alive_step t3 0) ltac:(lia))
    as (C1 & C2 & _).
  destruct (alive_others ftr Hftr (fold_left alive_step t3 0) ltac:(lia))
    as (D1 & D2 & _).
  assert (Hall : alive_ok 0 tr = true).
  { rewrite Htr'.
    apply (alive_seq 0 0 (fold_left alive_step t3 0) hdr (t3 ++ t4 ++ ftr)
             (conj A1 A2)).
    apply (alive_seq 0 (fold_left alive_step t3 0) (fold_left alive_step t3 0)
             t3 (t4 ++ ftr) (conj B1 eq_refl)).
    apply (alive_seq _ (fold_left alive_step t3 0) (fold_left alive_step t3 0)
             t4 ftr (conj C1 C2) (conj D1 D2)). }
  split.
  - clear - pre. unfold inner_alive.
    assert (Hge : forall l k, 0 <= k -> 0 <= fold_left alive_step l k).
    { induction l as [|a l IH]; intros k Hk; [exact Hk|].
      cbn. apply IH.
      destruct a as [| [] | | | | | | |? ? [] ? ?| |]; cbn; lia. }
    apply Hge. lia.
  - rewrite Htr in Hall. apply (alive_ok_prefix 0 pre post); [lia | exact Hall].
Qed.

End InnerPoolTheory.

Lemma inner_pool_holds_at_most_1000_paths_witness :
  0 <= inner_alive (firstn 16 sample_trace) <= 1000.
Proof.
  apply (@inner_pool_holds_at_most_1000_paths sim_runtime 10 sample_tree
           "/tmp/t" sample_trace (Some (Pushed true)) [] sample_run_is_run)
    with (post := skipn 16 sample_trace).
  - vm_compute. reflexivity.
  - reflexivity.
Defined.
